(** * Tail: lexer, parser, compiler, bytecode image codec and virtual machine

    A shallow embedding of the Tail tool chain (src/shared, src/compiler,
    src/vm, and the driver src/tailc.cpp) and the properties of its
    specification that were checked against it.

    Conventions of the embedding
    - fixed-width integers are [Z] with the wrap-around written out
      ([u8], [u16], [u32], [s64]);
    - a [double] is carried as its IEEE-754 binary64 bit pattern (a 64-bit
      [Z]); no claim below depends on the result of a float operation;
    - a [std::vector] that is used as a stack (the operand stack, the call
      stack, the compiler's context and loop stacks) is a list whose head is
      [back()]; every other vector is a list in index order;
    - a C++ exception is an error result that carries the message. *)

From Stdlib Require Import ZArith Lia List String Ascii Bool.
From stdpp Require Import base option list strings gmap numbers pretty.

Local Open Scope Z_scope.

(** ** Results shared by all components *)

Inductive result (E A : Type) : Type :=
| Ok (a : A)
| Err (e : E).
Arguments Ok {E A} a.
Arguments Err {E A} e.

(** ** Fixed-width integers *)

Definition u8 (z : Z) : Z := z mod 2 ^ 8.
Definition u16 (z : Z) : Z := z mod 2 ^ 16.
Definition u32 (z : Z) : Z := z mod 2 ^ 32.
Definition u64 (z : Z) : Z := z mod 2 ^ 64.

(** Two's complement reading of the low 64 bits: what [int64_t] holds. *)
Definition s64 (z : Z) : Z :=
  let u := u64 z in if u <? 2 ^ 63 then u else u - 2 ^ 64.

Definition UINT32_MAX : Z := 0xFFFFFFFF.

(** [vector::size()] as the integer the code compares and stores. *)
Definition len {A} (l : list A) : Z := Z.of_nat (length l).

(** [v[i]] for a 32-bit index. *)
Definition at_ {A} (l : list A) (i : Z) : option A :=
  if i <? 0 then None else l !! Z.to_nat i.

(** [v[i] = x] for an index already known to be in range. *)
Definition update_at {A} (l : list A) (i : Z) (x : A) : list A :=
  <[Z.to_nat i := x]> l.

(** ** Doubles as bit patterns *)

(** [x == 0.0]: all bits clear but possibly the sign. *)
Definition float_is_zero (f : Z) : bool := Z.land f (Z.ones 63) =? 0.

(** Exponent all ones and a non-zero mantissa. *)
Definition float_is_nan (f : Z) : bool := 0x7FF0000000000000 <? Z.land f (Z.ones 63).

(** [x == y] on doubles. *)
Definition float_eq (x y : Z) : bool :=
  negb (float_is_nan x) && negb (float_is_nan y)
  && ((x =? y) || (float_is_zero x && float_is_zero y)).

(** ** Strings *)

(** [s.find_last_of(chars)]: the last position holding one of [chars]. *)
Definition find_last_of (chars : list ascii) (s : string) : option nat :=
  let cs := list_ascii_of_string s in
  let hits := List.filter (fun i => match cs !! i with
                                    | Some c => bool_decide (c ∈ chars)
                                    | None => false
                                    end) (seq 0 (length cs)) in
  last hits.

(** [std::filesystem::path(p).stem()] for a POSIX path. *)
Definition path_stem (p : string) : string :=
  let filename :=
    match find_last_of ["/"%char] p with
    | Some slash => String.substring (S slash) (String.length p) p
    | None => p
    end in
  if String.eqb filename "." || String.eqb filename ".." then filename
  else match find_last_of ["."%char] filename with
       | Some (S dot) => String.substring 0 (S dot) filename
       | _ => filename
       end.

(** * bytecode.h: the in-memory image *)

Module TVM.

(** [enum OpCode : uint8_t]. An instruction read from a file may hold any
    byte, so the opcode is kept as the byte itself. *)
Definition OpCode := Z.

Definition OP_PUSH : OpCode := 0x01.
Definition OP_POP : OpCode := 0x02.
Definition OP_DUP : OpCode := 0x03.
Definition OP_SWAP : OpCode := 0x04.
Definition OP_ADD : OpCode := 0x10.
Definition OP_SUB : OpCode := 0x11.
Definition OP_MUL : OpCode := 0x12.
Definition OP_DIV : OpCode := 0x13.
Definition OP_MOD : OpCode := 0x14.
Definition OP_NEG : OpCode := 0x15.
Definition OP_INC : OpCode := 0x16.
Definition OP_DEC : OpCode := 0x17.
Definition OP_EQ : OpCode := 0x20.
Definition OP_NEQ : OpCode := 0x21.
Definition OP_LT : OpCode := 0x22.
Definition OP_LTE : OpCode := 0x23.
Definition OP_GT : OpCode := 0x24.
Definition OP_GTE : OpCode := 0x25.
Definition OP_AND : OpCode := 0x30.
Definition OP_OR : OpCode := 0x31.
Definition OP_NOT : OpCode := 0x32.
Definition OP_LOAD : OpCode := 0x40.
Definition OP_STORE : OpCode := 0x41.
Definition OP_LOAD_GLOBAL : OpCode := 0x42.
Definition OP_STORE_GLOBAL : OpCode := 0x43.
Definition OP_JMP : OpCode := 0x50.
Definition OP_JMP_IF : OpCode := 0x51.
Definition OP_JMP_IFNOT : OpCode := 0x52.
Definition OP_CALL : OpCode := 0x53.
Definition OP_RET : OpCode := 0x54.
Definition OP_CALL_NATIVE : OpCode := 0x55.
Definition OP_NEW_ARRAY : OpCode := 0x60.
Definition OP_LOAD_INDEX : OpCode := 0x61.
Definition OP_STORE_INDEX : OpCode := 0x62.
Definition OP_ARRAY_LEN : OpCode := 0x63.
Definition OP_PRINT : OpCode := 0x70.
Definition OP_READ : OpCode := 0x71.
Definition OP_PRINTLN : OpCode := 0x72.
Definition OP_HALT : OpCode := 0xFF.

(** [enum ValueType : uint8_t]; [TYPE_OTHER t] is a tag byte outside the
    eight named ones (the [default:] branches of the codec). *)
Inductive ValueType : Type :=
| TYPE_NIL
| TYPE_INT
| TYPE_FLOAT
| TYPE_BOOL
| TYPE_STRING
| TYPE_ARRAY_INT
| TYPE_ARRAY_FLOAT
| TYPE_ARRAY_STRING
| TYPE_OTHER (tag : Z).

Definition type_tag (t : ValueType) : Z :=
  match t with
  | TYPE_NIL => 0
  | TYPE_INT => 1
  | TYPE_FLOAT => 2
  | TYPE_BOOL => 3
  | TYPE_STRING => 4
  | TYPE_ARRAY_INT => 5
  | TYPE_ARRAY_FLOAT => 6
  | TYPE_ARRAY_STRING => 7
  | TYPE_OTHER t => t
  end.

(** [static_cast<ValueType>(byte)]. *)
Definition type_of_tag (b : Z) : ValueType :=
  match b with
  | 0 => TYPE_NIL
  | 1 => TYPE_INT
  | 2 => TYPE_FLOAT
  | 3 => TYPE_BOOL
  | 4 => TYPE_STRING
  | 5 => TYPE_ARRAY_INT
  | 6 => TYPE_ARRAY_FLOAT
  | 7 => TYPE_ARRAY_STRING
  | _ => TYPE_OTHER b
  end.

(** [struct Constant]: the tag and the member of the union [as] that the
    tag selects. [stringIdx] and [arrayIdx] are the same 32 bits. *)
Inductive Constant : Type :=
| CNil
| CInt (intVal : Z)
| CFloat (floatVal : Z)
| CBool (boolVal : bool)
| CString (stringIdx : Z)
| CArrayInt (arrayIdx : Z)
| CArrayFloat (arrayIdx : Z)
| CArrayString (arrayIdx : Z)
| COther (tag : Z).

Definition constant_type (c : Constant) : ValueType :=
  match c with
  | CNil => TYPE_NIL
  | CInt _ => TYPE_INT
  | CFloat _ => TYPE_FLOAT
  | CBool _ => TYPE_BOOL
  | CString _ => TYPE_STRING
  | CArrayInt _ => TYPE_ARRAY_INT
  | CArrayFloat _ => TYPE_ARRAY_FLOAT
  | CArrayString _ => TYPE_ARRAY_STRING
  | COther t => TYPE_OTHER t
  end.

Record Instruction : Type := mkInstruction {
  opcode : OpCode;
  operand : Z
}.

Record FunctionInfo : Type := mkFunctionInfo {
  name : string;
  address : Z;
  arity : Z;
  locals : Z
}.

Record BytecodeFile : Type := mkBytecodeFile {
  magic : Z;
  version : Z;
  flags : Z;
  code : list Instruction;
  constants : list Constant;
  strings : list string;
  intArrays : list (list Z);
  floatArrays : list (list Z);
  stringArrays : list (list string);
  functions : list FunctionInfo;
  nativeImports : list string
}.

Definition TAIL_MAGIC : Z := 0x5441494C.

(** A default-constructed [BytecodeFile]. *)
Definition emptyBytecode : BytecodeFile :=
  mkBytecodeFile TAIL_MAGIC 1 0 [] [] [] [] [] [] [] [].

(** ** bytecode.cpp: serialize *)

Definition writeUint32 (value : Z) : list Z :=
  [ Z.land value 0xFF;
    Z.land (Z.shiftr value 8) 0xFF;
    Z.land (Z.shiftr value 16) 0xFF;
    Z.land (Z.shiftr value 24) 0xFF ].

Definition writeUint16 (value : Z) : list Z :=
  [ Z.land value 0xFF; Z.land (Z.shiftr value 8) 0xFF ].

Definition writeInt64 (value : Z) : list Z :=
  (fun i => Z.land (Z.shiftr value (i * 8)) 0xFF) <$> seqZ 0 8.

(** [memcpy] of the eight bytes of the double, low byte first. *)
Definition writeDouble (value : Z) : list Z :=
  (fun i => Z.land (Z.shiftr value (i * 8)) 0xFF) <$> seqZ 0 8.

(** The bytes of a [std::string]. *)
Definition string_bytes (s : string) : list Z :=
  (fun c => Z.of_N (N_of_ascii c)) <$> list_ascii_of_string s.

Definition bytes_string (bs : list Z) : string :=
  string_of_list_ascii ((fun b => ascii_of_N (Z.to_N (u8 b))) <$> bs).

Definition writeString (s : string) : list Z :=
  writeUint32 (u32 (len (string_bytes s))) ++ string_bytes s.

Definition writeInstruction (instr : Instruction) : list Z :=
  u8 (opcode instr) :: writeUint32 (operand instr).

Definition writeConstant (cst : Constant) : list Z :=
  u8 (type_tag (constant_type cst)) ::
  match cst with
  | CInt v => writeInt64 v
  | CFloat v => writeDouble v
  | CBool b => [if b then 1 else 0]
  | CString i | CArrayInt i | CArrayFloat i | CArrayString i => writeUint32 i
  | CNil => replicate 8 0
  | COther _ => replicate 8 0
  end.

Definition writeFunction (func : FunctionInfo) : list Z :=
  writeString (name func) ++ writeUint32 (address func) ++ [arity func; locals func].

(** [count:u32] followed by the elements. *)
Definition writeVector {A} (w : A → list Z) (v : list A) : list Z :=
  writeUint32 (u32 (len v)) ++ concat (w <$> v).

Definition serialize (img : BytecodeFile) : list Z :=
  writeUint32 (magic img) ++ writeUint16 (version img) ++ writeUint16 (flags img)
  ++ writeVector writeInstruction (code img)
  ++ writeVector writeConstant (constants img)
  ++ writeVector writeString (strings img)
  ++ writeVector (writeVector writeInt64) (intArrays img)
  ++ writeVector (writeVector writeDouble) (floatArrays img)
  ++ writeVector (writeVector writeString) (stringArrays img)
  ++ writeVector writeFunction (functions img)
  ++ writeVector writeString (nativeImports img).

(** ** bytecode.cpp: deserialize

    [ptr] is the unread suffix of [data]; [end - ptr] is its length. *)

Inductive LoadError : Type :=
| Rejected      (* [return false] *)
| ReadPastEnd.  (* a read beyond [end], which C++ leaves undefined *)

Definition Reader (A : Type) : Type := list Z → result LoadError (A * list Z).

Definition ret {A} (a : A) : Reader A := fun d => Ok (a, d).

Definition bind {A B} (r : Reader A) (k : A → Reader B) : Reader B :=
  fun d => match r d with
           | Ok (a, d') => k a d'
           | Err e => Err e
           end.

Local Notation "x <- c1 ;; c2" := (bind c1 (fun x => c2))
  (at level 100, c1 at next level, right associativity).
Local Notation "c1 ;;; c2" := (bind c1 (fun _ => c2))
  (at level 100, right associativity).

Definition reject {A} : Reader A := fun _ => Err Rejected.

(** [if (ptr + n > end) return false;] *)
Definition need (n : Z) : Reader unit :=
  fun d => if len d <? n then Err Rejected else Ok (tt, d).

(** [*ptr++] *)
Definition readByte : Reader Z :=
  fun d => match d with
           | b :: d' => Ok (b, d')
           | [] => Err ReadPastEnd
           end.

Definition readUint32 : Reader Z :=
  b0 <- readByte ;; b1 <- readByte ;; b2 <- readByte ;; b3 <- readByte ;;
  ret (u32 (Z.lor (Z.lor (Z.lor b0 (Z.shiftl b1 8)) (Z.shiftl b2 16)) (Z.shiftl b3 24))).

Definition readUint16 : Reader Z :=
  b0 <- readByte ;; b1 <- readByte ;;
  ret (u16 (Z.lor b0 (Z.shiftl b1 8))).

Fixpoint readInt64_loop (n : nat) (i : Z) (acc : Z) : Reader Z :=
  match n with
  | O => ret acc
  | S n' => b <- readByte ;; readInt64_loop n' (i + 1) (Z.lor acc (Z.shiftl b (i * 8)))
  end.

Definition readInt64 : Reader Z :=
  r <- readInt64_loop 8 0 0 ;; ret (s64 r).

Definition readDouble : Reader Z :=
  r <- readInt64_loop 8 0 0 ;; ret (u64 r).

(** [for (i = 0; i < n; i++) body] collecting what each round reads. *)
Fixpoint readN {A} (n : nat) (r : Reader A) : Reader (list A) :=
  match n with
  | O => ret []
  | S n' => x <- r ;; xs <- readN n' r ;; ret (x :: xs)
  end.

(** [s.resize(len); for (j...) s[j] = static_cast<char>(ptr[j]); ptr += len;] *)
Definition readChars (len : Z) : Reader string :=
  bs <- readN (Z.to_nat len) readByte ;; ret (bytes_string bs).

Definition readString : Reader string :=
  need 4 ;;; len <- readUint32 ;; need len ;;; readChars len.

Definition readInstruction : Reader Instruction :=
  need 1 ;;; op <- readByte ;; opnd <- readUint32 ;; ret (mkInstruction op opnd).

Definition readConstant : Reader Constant :=
  need 1 ;;; t <- readByte ;;
  match type_of_tag t with
  | TYPE_INT => need 8 ;;; v <- readInt64 ;; ret (CInt v)
  | TYPE_FLOAT => need 8 ;;; v <- readDouble ;; ret (CFloat v)
  | TYPE_BOOL => need 1 ;;; b <- readByte ;; ret (CBool (negb (b =? 0)))
  | TYPE_STRING => need 4 ;;; i <- readUint32 ;; ret (CString i)
  | TYPE_ARRAY_INT => need 4 ;;; i <- readUint32 ;; ret (CArrayInt i)
  | TYPE_ARRAY_FLOAT => need 4 ;;; i <- readUint32 ;; ret (CArrayFloat i)
  | TYPE_ARRAY_STRING => need 4 ;;; i <- readUint32 ;; ret (CArrayString i)
  | TYPE_NIL => need 8 ;;; _ <- readN 8 readByte ;; ret CNil
  | TYPE_OTHER o => need 8 ;;; _ <- readN 8 readByte ;; ret (COther o)
  end.

(** [if (ptr + 4 > end) return false; n = readUint32(ptr); v.resize(n);]
    [for (i = 0; i < n; i++) v[i] = ...]: a count and that many elements. *)
Definition readVector {A} (r : Reader A) : Reader (list A) :=
  need 4 ;;; n <- readUint32 ;; readN (Z.to_nat n) r.

Definition readIntArray : Reader (list Z) := readVector (need 8 ;;; readInt64).

Definition readFloatArray : Reader (list Z) := readVector (need 8 ;;; readDouble).

Definition readStringArray : Reader (list string) := readVector readString.

Definition readFunction : Reader FunctionInfo :=
  nm <- readString ;;
  need 4 ;;; addr <- readUint32 ;;
  need 1 ;;; ar <- readByte ;;
  need 1 ;;; lc <- readByte ;;
  ret (mkFunctionInfo nm addr ar lc).

(** The code section has one more check, on the size of the whole section,
    computed in 32 bits. *)
Definition readCode : Reader (list Instruction) :=
  need 4 ;;; codeSize <- readUint32 ;;
  need (u32 (codeSize * 5)) ;;;
  readN (Z.to_nat codeSize) readInstruction.

Definition readImage : Reader BytecodeFile :=
  need 8 ;;;
  mg <- readUint32 ;;
  if negb (mg =? 0x5441494C) then reject else
  ver <- readUint16 ;;
  flg <- readUint16 ;;
  cd <- readCode ;;
  cs <- readVector readConstant ;;
  ss <- readVector readString ;;
  ia <- readVector readIntArray ;;
  fa <- readVector readFloatArray ;;
  sa <- readVector readStringArray ;;
  fs <- readVector readFunction ;;
  ns <- readVector readString ;;
  ret (mkBytecodeFile mg ver flg cd cs ss ia fa sa fs ns).

(** Bytes left after the last section only produce a warning. *)
Definition deserialize (data : list Z) : result LoadError BytecodeFile :=
  if len data <? 8 then Err Rejected else
  match readImage data with
  | Ok (img, _) => Ok img
  | Err e => Err e
  end.

(** Byte [i] of [v], low byte first. *)
Definition le_byte (v i : Z) : Z := Z.land (Z.shiftr v (i * 8)) 0xFF.

(** ** Images that the in-memory types can hold

    Every field lies in the range of its C++ type, and every count and
    string length fits the [uint32_t] the format stores it in. *)

Definition wf_string (s : string) : Prop := len (string_bytes s) < 2 ^ 32.

Definition wf_instruction (i : Instruction) : Prop :=
  0 <= opcode i < 2 ^ 8 /\ 0 <= operand i < 2 ^ 32.

Definition wf_constant (c : Constant) : Prop :=
  match c with
  | CNil | CBool _ => True
  | CInt v => - 2 ^ 63 <= v < 2 ^ 63
  | CFloat v => 0 <= v < 2 ^ 64
  | CString i | CArrayInt i | CArrayFloat i | CArrayString i => 0 <= i < 2 ^ 32
  | COther t => 8 <= t < 2 ^ 8
  end.

Definition wf_function (f : FunctionInfo) : Prop :=
  wf_string (name f) /\ 0 <= address f < 2 ^ 32
  /\ 0 <= arity f < 2 ^ 8 /\ 0 <= locals f < 2 ^ 8.

Definition wf_vector {A} (P : A → Prop) (v : list A) : Prop :=
  len v < 2 ^ 32 /\ Forall P v.

Definition wf_image (img : BytecodeFile) : Prop :=
  0 <= version img < 2 ^ 16 /\ 0 <= flags img < 2 ^ 16
  /\ wf_vector wf_instruction (code img)
  /\ wf_vector wf_constant (constants img)
  /\ wf_vector wf_string (strings img)
  /\ wf_vector (wf_vector (fun v => - 2 ^ 63 <= v < 2 ^ 63)) (intArrays img)
  /\ wf_vector (wf_vector (fun v => 0 <= v < 2 ^ 64)) (floatArrays img)
  /\ wf_vector (wf_vector wf_string) (stringArrays img)
  /\ wf_vector wf_function (functions img)
  /\ wf_vector wf_string (nativeImports img).

(** ** Vocabulary for the bounds of the reader

    [consumes n r]: on an input of at least [n] bytes [r] succeeds and
    leaves the input without its first [n] bytes. [in_bounds r]: [r] never
    reads beyond the end of its input. *)

Definition consumes {A} (n : Z) (r : Reader A) : Prop :=
  ∀ d, n <= len d → ∃ a, r d = Ok (a, drop (Z.to_nat n) d).

Definition in_bounds {A} (r : Reader A) : Prop :=
  ∀ d, r d ≠ Err ReadPastEnd.

(** The instruction count that [deserialize] finds after the 8-byte header. *)
Definition code_count (data : list Z) : Z :=
  match readUint32 (drop 8 data) with
  | Ok (codeSize, _) => codeSize
  | Err _ => 0
  end.

(** A header, the instruction count 0x33333334 and four more bytes:
    0x33333334 * 5 is 2^32 + 4. *)
Definition example_wrapping_count : list Z :=
  writeUint32 TAIL_MAGIC ++ writeUint16 1 ++ writeUint16 0
  ++ writeUint32 0x33333334 ++ [OP_HALT; 0; 0; 0].

End TVM.

(** * vm.h, vm.cpp: the virtual machine

    The operations below are the ones the checked properties speak about:
    the operand stack, the arithmetic opcodes, the variable opcodes and the
    calling convention. Host callbacks and console I/O are not modelled.
    Instruction operands and slot indices are [uint32_t]: never negative. *)

Module VM.
Import TVM.

(** [class Value] (bytecode.h): the runtime value, same tags as [Constant]. *)
Inductive Value : Type :=
| VNil
| VInt (intVal : Z)
| VFloat (floatVal : Z)
| VBool (boolVal : bool)
| VString (stringIdx : Z)
| VArrayInt (arrayIdx : Z)
| VArrayFloat (arrayIdx : Z)
| VArrayString (arrayIdx : Z)
| VOther (tag : Z).

(** The operations of [double] that the arithmetic opcodes use, on bit
    patterns. They are left abstract: only the comparison with zero, which
    decides an error, is fixed ([float_is_zero]). *)
Record FloatOps : Type := mkFloatOps {
  fadd : Z → Z → Z;
  fsub : Z → Z → Z;
  fmul : Z → Z → Z;
  fdiv : Z → Z → Z;
  f_of_int : Z → Z;          (* [static_cast<double>(int64_t)] *)
  f_to_string : Z → string   (* [std::to_string(double)] *)
}.

Record CallFrame : Type := mkCallFrame {
  returnAddr : Z;
  localStart : Z;
  argCount : Z;
  func : FunctionInfo
}.

Record State : Type := mkState {
  program : BytecodeFile;
  running : bool;
  pc : Z;
  stack : list Value;        (* head = top *)
  globals : list Value;
  locals_ : list Value;      (* [locals], shared by all frames *)
  callStack : list CallFrame (* head = innermost frame *)
}.

Definition set_program (p : BytecodeFile) (st : State) : State :=
  mkState p (running st) (pc st) (stack st) (globals st) (locals_ st) (callStack st).
Definition set_running (r : bool) (st : State) : State :=
  mkState (program st) r (pc st) (stack st) (globals st) (locals_ st) (callStack st).
Definition set_pc (a : Z) (st : State) : State :=
  mkState (program st) (running st) a (stack st) (globals st) (locals_ st) (callStack st).
Definition set_stack (s : list Value) (st : State) : State :=
  mkState (program st) (running st) (pc st) s (globals st) (locals_ st) (callStack st).
Definition set_globals (g : list Value) (st : State) : State :=
  mkState (program st) (running st) (pc st) (stack st) g (locals_ st) (callStack st).
Definition set_locals (l : list Value) (st : State) : State :=
  mkState (program st) (running st) (pc st) (stack st) (globals st) l (callStack st).
Definition set_callStack (c : list CallFrame) (st : State) : State :=
  mkState (program st) (running st) (pc st) (stack st) (globals st) (locals_ st) c.

(** An operation either throws ([Err message]) or returns with a new
    state. *)
Definition Op (A : Type) : Type := State → result string (A * State).

Definition ret {A} (a : A) : Op A := fun st => Ok (a, st).

Definition bind {A B} (m : Op A) (k : A → Op B) : Op B :=
  fun st => match m st with
            | Ok (a, st') => k a st'
            | Err e => Err e
            end.

Local Notation "x <- c1 ;; c2" := (bind c1 (fun x => c2))
  (at level 100, c1 at next level, right associativity).
Local Notation "c1 ;;; c2" := (bind c1 (fun _ => c2))
  (at level 100, right associativity).

Definition get : Op State := fun st => Ok (st, st).
Definition modify (f : State → State) : Op unit := fun st => Ok (tt, f st).

Definition runtimeError {A} (message : string) : Op A :=
  fun st => Err ("Runtime error at PC=" +:+ pretty (pc st) +:+ ": " +:+ message).

(** An access outside a vector, which C++ leaves undefined. *)
Definition undefined_access {A} : Op A :=
  fun _ => Err "undefined behaviour: vector index out of range".

Definition pop : Op Value :=
  st <- get ;;
  match stack st with
  | [] => runtimeError "Stack underflow"
  | val :: rest => modify (set_stack rest) ;;; ret val
  end.

Definition push (val : Value) : Op unit :=
  modify (fun st => set_stack (val :: stack st) st).

Definition peek (offset : Z) : Op Value :=
  st <- get ;;
  if len (stack st) <=? offset then runtimeError "Stack peek out of bounds"
  else match at_ (stack st) offset with
       | Some v => ret v
       | None => undefined_access
       end.

(** [Value::toString(prog)] *)
Definition toString (F : FloatOps) (prog : BytecodeFile) (v : Value) : string :=
  match v with
  | VNil => "nil"
  | VInt i => pretty i
  | VFloat f => f_to_string F f
  | VBool b => if b then "true" else "false"
  | VString idx =>
      match at_ (strings prog) idx with
      | Some s => s
      | None => "[string]"
      end
  | VArrayInt _ => "[int array]"
  | VArrayFloat _ => "[float array]"
  | VArrayString _ => "[string array]"
  | VOther _ => "[unknown]"
  end.

Definition is_string (v : Value) : bool :=
  match v with VString _ => true | _ => false end.

(** [program->strings.push_back(s)], returning the index it had. *)
Definition appendString (s : string) : Op Z :=
  st <- get ;;
  let p := program st in
  let idx := u32 (len (strings p)) in
  modify (set_program
            (mkBytecodeFile (magic p) (version p) (flags p) (code p) (constants p)
               (strings p ++ [s]) (intArrays p) (floatArrays p) (stringArrays p)
               (functions p) (nativeImports p))) ;;;
  ret idx.

(** ** Arithmetic. [int64_t] overflow of [+], [-] and [*] is taken to wrap. *)

Definition INT64_MIN : Z := - 2 ^ 63.

(** The operands of [/] and [%] whose quotient is no [int64_t]. *)
Definition overflows (x y : Z) : bool := (x =? INT64_MIN) && (y =? -1).

(** [INT64_MIN / -1] and [INT64_MIN % -1]: C++ leaves the operation
    undefined, and the division instruction of x86-64 raises SIGFPE, which
    ends the process. Nothing is thrown and nothing is pushed. *)
Definition division_overflow {A} : Op A :=
  fun _ => Err "undefined behaviour: INT64_MIN divided by -1 (SIGFPE)".

Definition opAdd (F : FloatOps) : Op unit :=
  b <- pop ;; a <- pop ;;
  match a, b with
  | VInt x, VInt y => push (VInt (s64 (x + y)))
  | VFloat x, VFloat y => push (VFloat (fadd F x y))
  | VInt x, VFloat y => push (VFloat (fadd F (f_of_int F x) y))
  | VFloat x, VInt y => push (VFloat (fadd F x (f_of_int F y)))
  | _, _ =>
      if is_string a || is_string b then
        st <- get ;;
        idx <- appendString (toString F (program st) a +:+ toString F (program st) b) ;;
        push (VString idx)
      else push VNil
  end.

Definition opSub (F : FloatOps) : Op unit :=
  b <- pop ;; a <- pop ;;
  match a, b with
  | VInt x, VInt y => push (VInt (s64 (x - y)))
  | VFloat x, VFloat y => push (VFloat (fsub F x y))
  | _, _ => runtimeError "Invalid types for subtraction"
  end.

Definition opMul (F : FloatOps) : Op unit :=
  b <- pop ;; a <- pop ;;
  match a, b with
  | VInt x, VInt y => push (VInt (s64 (x * y)))
  | VFloat x, VFloat y => push (VFloat (fmul F x y))
  | _, _ => runtimeError "Invalid types for multiplication"
  end.

Definition opDiv (F : FloatOps) : Op unit :=
  b <- pop ;; a <- pop ;;
  match b with
  | VInt 0 => runtimeError "Division by zero"
  | _ => ret tt
  end ;;;
  match b with
  | VFloat y => if float_is_zero y then runtimeError "Division by zero" else ret tt
  | _ => ret tt
  end ;;;
  match a, b with
  | VInt x, VInt y =>
      if overflows x y then division_overflow else push (VInt (s64 (Z.quot x y)))
  | VFloat x, VFloat y => push (VFloat (fdiv F x y))
  | _, _ => runtimeError "Invalid types for division"
  end.

Definition opMod : Op unit :=
  b <- pop ;; a <- pop ;;
  match a, b with
  | VInt x, VInt y =>
      (if y =? 0 then runtimeError "Modulo by zero" else ret tt) ;;;
      if overflows x y then division_overflow else push (VInt (s64 (Z.rem x y)))
  | _, _ => runtimeError "Invalid types for modulo"
  end.

(** ** Variables *)

Definition opLoad (index : Z) : Op unit :=
  st <- get ;;
  if len (locals_ st) <=? index then runtimeError "Local variable index out of bounds"
  else match at_ (locals_ st) index with
       | Some v => push v
       | None => undefined_access
       end.

Definition opStore (index : Z) : Op unit :=
  st <- get ;;
  if len (locals_ st) <=? index then runtimeError "Local variable index out of bounds"
  else
    v <- peek 0 ;;
    modify (fun st => set_locals (<[Z.to_nat index := v]> (locals_ st)) st).

(** [globals.resize(index + 1)] in 32-bit arithmetic. *)
Definition growGlobals (index : Z) : Op unit :=
  st <- get ;;
  if len (globals st) <=? index
  then modify (set_globals (resize (Z.to_nat (u32 (index + 1))) VNil (globals st)))
  else ret tt.

Definition opLoadGlobal (index : Z) : Op unit :=
  growGlobals index ;;;
  st <- get ;;
  match at_ (globals st) index with
  | Some v => push v
  | None => undefined_access
  end.

Definition opStoreGlobal (index : Z) : Op unit :=
  growGlobals index ;;;
  v <- peek 0 ;;
  st <- get ;;
  if len (globals st) <=? index then undefined_access
  else modify (fun st => set_globals (<[Z.to_nat index := v]> (globals st)) st).

(** ** Calling convention *)

(** [for (const auto &f : program->functions) if (f.address == funcIndex) ...] *)
Definition findFunction (prog : BytecodeFile) (funcIndex : Z) : option FunctionInfo :=
  snd <$> list_find (fun f => address f = funcIndex) (functions prog).

(** [locals[index] = v] *)
Definition storeLocal (index : Z) (v : Value) : Op unit :=
  st <- get ;;
  if len (locals_ st) <=? index then undefined_access
  else modify (set_locals (<[Z.to_nat index := v]> (locals_ st))).

(** [for (int i = arity - 1; i >= 0; i--) locals[localStart + i] = stack.empty() ? Value() : pop();]
    [n] counts the rounds left; the round with [n = S i] writes slot [i]. *)
Fixpoint callFunction_args (localStart : Z) (n : nat) : Op unit :=
  match n with
  | O => ret tt
  | S i =>
      st <- get ;;
      v <- (match stack st with
            | [] => ret VNil
            | _ :: _ => pop
            end) ;;
      storeLocal (u32 (localStart + Z.of_nat i)) v ;;;
      callFunction_args localStart i
  end.

(** [for (int i = 0; i < arity; i++) if (!stack.empty()) stack.pop_back();] *)
Fixpoint callFunction_drop (n : nat) : Op unit :=
  match n with
  | O => ret tt
  | S i =>
      modify (fun st => set_stack (tail (stack st)) st) ;;;
      callFunction_drop i
  end.

Definition callFunction (funcIndex : Z) : Op unit :=
  st <- get ;;
  match findFunction (program st) funcIndex with
  | None => runtimeError ("Function not found at address: " +:+ pretty funcIndex)
  | Some f =>
      if len (stack st) <? arity f
      then runtimeError ("Not enough arguments for function " +:+ name f)
      else
        let frame := mkCallFrame (u32 (pc st + 1)) (u32 (len (locals_ st))) (arity f) f in
        modify (fun st => set_callStack (frame :: callStack st) st) ;;;
        modify (fun st => set_locals
                  (resize (Z.to_nat (u32 (localStart frame + locals f))) VNil (locals_ st)) st) ;;;
        callFunction_args (localStart frame) (Z.to_nat (arity f)) ;;;
        callFunction_drop (Z.to_nat (arity f)) ;;;
        modify (set_pc (address f))
  end.

Definition returnFromFunction : Op unit :=
  st <- get ;;
  match callStack st with
  | [] => modify (set_running false)
  | frame :: frames =>
      modify (set_callStack frames) ;;;
      if returnAddr frame =? UINT32_MAX then modify (set_running false)
      else
        st <- get ;;
        returnValue <- (match stack st with
                        | [] => ret VNil
                        | _ :: _ => pop
                        end) ;;
        modify (fun st => set_locals (resize (Z.to_nat (localStart frame)) VNil (locals_ st)) st) ;;;
        modify (set_pc (returnAddr frame)) ;;;
        push returnValue
  end.

(** ** Vocabulary for the statements about the arithmetic opcodes *)

Definition is_numeric (v : Value) : bool :=
  match v with VInt _ | VFloat _ => true | _ => false end.

(** Both operands [int], or both [float]. *)
Definition same_numeric (a b : Value) : bool :=
  match a, b with
  | VInt _, VInt _ | VFloat _, VFloat _ => true
  | _, _ => false
  end.

Definition both_int (a b : Value) : bool :=
  match a, b with
  | VInt _, VInt _ => true
  | _, _ => false
  end.

(** An [int] zero or a [float] zero (of either sign). *)
Definition zero_divisor (b : Value) : bool :=
  match b with
  | VInt y => y =? 0
  | VFloat y => float_is_zero y
  | _ => false
  end.

(** [INT64_MIN] below [-1]: the operands at which [DIV] and [MOD] trap. *)
Definition div_overflow (a b : Value) : bool :=
  match a, b with
  | VInt x, VInt y => overflows x y
  | _, _ => false
  end.

(** The operand types the specification gives for [ADD]: both numeric, or
    at least one string. *)
Definition add_accepts (a b : Value) : bool :=
  (is_numeric a && is_numeric b) || is_string a || is_string b.

(** The operation threw. *)
Definition failed {A} (r : result string A) : bool :=
  match r with Err _ => true | Ok _ => false end.

(** ** States used in the examples

    The image of
      [fn f(int a) { return a; }]
      [fn Main() { int x = 7; Console.println(1 + f(9)); }]
    and the machine inside [Main] about to execute [CALL 0] (address 0 is
    [f]): the local [x] holds 7, and the operand stack holds the argument 9
    on top of the pending left operand 1 and of the 7 that [STORE] left
    behind. *)

Definition example_program : BytecodeFile :=
  mkBytecodeFile TAIL_MAGIC 1 0
    [ mkInstruction OP_LOAD 0; mkInstruction OP_RET 0;
      mkInstruction OP_PUSH 0; mkInstruction OP_STORE 0;
      mkInstruction OP_PUSH 1; mkInstruction OP_PUSH 2; mkInstruction OP_CALL 0;
      mkInstruction OP_ADD 0; mkInstruction OP_PRINTLN 0;
      mkInstruction OP_PUSH 3; mkInstruction OP_RET 0; mkInstruction OP_HALT 0 ]
    [ CInt 7; CInt 1; CInt 9; CNil ] [] [] [] []
    [ mkFunctionInfo "f" 0 1 1; mkFunctionInfo "Main" 2 0 1 ] [].

Definition example_before_call : State :=
  mkState example_program true 6
    [VInt 9; VInt 1; VInt 7] [] [VInt 7]
    [mkCallFrame UINT32_MAX 0 0 (mkFunctionInfo "Main" 2 0 1)].

(** The same machine after [CALL 0], as [callFunction] leaves it. *)
Definition example_after_call : State :=
  mkState example_program true 0
    [VInt 7] [] [VInt 7; VInt 9]
    [ mkCallFrame 7 1 1 (mkFunctionInfo "f" 0 1 1);
      mkCallFrame UINT32_MAX 0 0 (mkFunctionInfo "Main" 2 0 1) ].

End VM.

(** * lexer.h, lexer.cpp *)

Module Lexer.

Inductive TokenType : Type :=
| LEFT_PAREN | RIGHT_PAREN | LEFT_BRACE | RIGHT_BRACE | LEFT_BRACKET | RIGHT_BRACKET
| COMMA | DOT | SEMICOLON | COLON
| BANG | BANG_EQUAL | EQUAL | EQUAL_EQUAL | GREATER | GREATER_EQUAL | LESS | LESS_EQUAL
| PLUS | PLUS_EQUAL | MINUS | MINUS_EQUAL | STAR | STAR_EQUAL | SLASH | SLASH_EQUAL
| MOD | MOD_EQUAL
| IDENTIFIER | STRING | NUMBER | FLOAT
| AND | OR | NOT | IF | ELSE | FOR | WHILE | DO | BREAK | CONTINUE | RETURN
| TRUE | FALSE | NIL | FN | INCLUDE | INT | FLOAT_TYPE | STR | BOOL | BYTE | UNMUT | MUT
| EOF_TOKEN | ERROR.

#[global] Instance TokenType_eq_dec : EqDecision TokenType.
Proof. solve_decision. Defined.

Record Token : Type := mkToken {
  type : TokenType;
  text : string;
  line : nat;
  column : nat
}.

(** The fields of [class Lexer] that change; [source] is fixed. [tokens]
    and [errors] are in [push_back] order. *)
Record State : Type := mkState {
  start : nat;
  current : nat;
  cur_line : nat;
  cur_column : nat;
  tokens : list Token;
  errors : list string
}.

Definition keywords : gmap string TokenType :=
  list_to_map
    [ ("and", AND); ("or", OR); ("not", NOT); ("if", IF); ("else", ELSE);
      ("for", FOR); ("while", WHILE); ("do", DO); ("break", BREAK);
      ("continue", CONTINUE); ("return", RETURN); ("true", TRUE); ("false", FALSE);
      ("nil", NIL); ("fn", FN); ("include", INCLUDE); ("int", INT);
      ("float", FLOAT_TYPE); ("str", STR); ("bool", BOOL); ("byte", BYTE);
      ("unmut", UNMUT); ("mut", MUT) ]%string.

Definition NUL : ascii := Ascii.zero.
Definition NEWLINE : ascii := ascii_of_nat 10.
Definition TAB : ascii := ascii_of_nat 9.
Definition CR : ascii := ascii_of_nat 13.
Definition QUOTE : ascii := ascii_of_nat 34.
Definition BACKSLASH : ascii := ascii_of_nat 92.

Definition isdigit (c : ascii) : bool :=
  let n := nat_of_ascii c in (48 <=? n)%nat && (n <=? 57)%nat.

Definition isalpha (c : ascii) : bool :=
  let n := nat_of_ascii c in
  ((65 <=? n)%nat && (n <=? 90)%nat) || ((97 <=? n)%nat && (n <=? 122)%nat).

Definition isalnum (c : ascii) : bool := isalpha c || isdigit c.

Section WithSource.

Variable source : string.

Definition isAtEnd (st : State) : bool := (String.length source <=? current st)%nat.

(** [source[i]] for [i] inside the string. *)
Definition char_at (i : nat) : ascii :=
  match String.get i source with
  | Some c => c
  | None => NUL
  end.

Definition advance (st : State) : ascii * State :=
  if isAtEnd st then (NUL, st)
  else
    let c := char_at (current st) in
    let st := mkState (start st) (S (current st)) (cur_line st) (cur_column st)
                (tokens st) (errors st) in
    if Ascii.eqb c NEWLINE
    then (c, mkState (start st) (current st) (S (cur_line st)) 1 (tokens st) (errors st))
    else (c, mkState (start st) (current st) (cur_line st) (S (cur_column st))
               (tokens st) (errors st)).

Definition peek (st : State) : ascii :=
  if isAtEnd st then NUL else char_at (current st).

Definition peekNext (st : State) : ascii :=
  if (String.length source <=? current st + 1)%nat then NUL
  else char_at (current st + 1).

Definition match_ (expected : ascii) (st : State) : bool * State :=
  if isAtEnd st then (false, st)
  else if negb (Ascii.eqb (char_at (current st)) expected) then (false, st)
  else (true, snd (advance st)).

(** [addToken(type, text)]: the token carries the position the lexer has
    reached when the token is added. *)
Definition addTokenText (t : TokenType) (txt : string) (st : State) : State :=
  mkState (start st) (current st) (cur_line st) (cur_column st)
    (tokens st ++ [mkToken t txt (cur_line st) (cur_column st)]) (errors st).

(** [source.substr(start, current - start)] *)
Definition lexeme (st : State) : string :=
  String.substring (start st) (current st - start st) source.

Definition addToken (t : TokenType) (st : State) : State :=
  addTokenText t (lexeme st) st.

Definition error (message : string) (st : State) : State :=
  mkState (start st) (current st) (cur_line st) (cur_column st) (tokens st)
    (errors st ++ [("Lexer error at line " +:+ pretty (cur_line st) +:+
                    ", column " +:+ pretty (cur_column st) +:+ ": " +:+ message)%string]).

(** [addToken(match('=') ? withEq : without)] *)
Definition addTokenEq (withEq without : TokenType) (st : State) : State :=
  let '(m, st) := match_ "="%char st in
  addToken (if m then withEq else without) st.

(** [while (cond(peek())) advance();] Every round consumes a character, so
    the length of the source bounds the number of rounds. *)
Fixpoint advanceWhile (fuel : nat) (cond : ascii → bool) (st : State) : State :=
  match fuel with
  | O => st
  | S fuel' =>
      if cond (peek st) then advanceWhile fuel' cond (snd (advance st)) else st
  end.

(** [while (peek() != '\n' && !isAtEnd()) advance();] *)
Fixpoint skipComment (fuel : nat) (st : State) : State :=
  match fuel with
  | O => st
  | S fuel' =>
      if negb (Ascii.eqb (peek st) NEWLINE) && negb (isAtEnd st)
      then skipComment fuel' (snd (advance st))
      else st
  end.

(** The loop of [scanString]; [value] is the text collected so far. *)
Fixpoint scanString_loop (fuel : nat) (value : string) (st : State) : string * State :=
  match fuel with
  | O => (value, st)
  | S fuel' =>
      if negb (Ascii.eqb (peek st) QUOTE) && negb (isAtEnd st) then
        let st :=
          if Ascii.eqb (peek st) NEWLINE
          then mkState (start st) (current st) (S (cur_line st)) 1 (tokens st) (errors st)
          else st in
        if Ascii.eqb (peek st) BACKSLASH then
          let st := snd (advance st) in
          let c := peek st in
          let value :=
            if Ascii.eqb c "n" then value +:+ String NEWLINE ""
            else if Ascii.eqb c "t" then value +:+ String TAB ""
            else if Ascii.eqb c "r" then value +:+ String CR ""
            else if Ascii.eqb c QUOTE then value +:+ String QUOTE ""
            else if Ascii.eqb c BACKSLASH then value +:+ String BACKSLASH ""
            else value +:+ String BACKSLASH (String c "") in
          scanString_loop fuel' value (snd (advance st))
        else
          let '(c, st) := advance st in
          scanString_loop fuel' (value +:+ String c "") st
      else (value, st)
  end.

Definition scanString (st : State) : State :=
  let '(value, st) := scanString_loop (String.length source) "" st in
  if isAtEnd st then error "Unterminated string" st
  else
    let st := snd (advance st) in
    addTokenText STRING value st.

Definition scanNumber (st : State) : State :=
  let st := advanceWhile (String.length source) isdigit st in
  let '(isFloat, st) :=
    if Ascii.eqb (peek st) "." && isdigit (peekNext st)
    then (true, advanceWhile (String.length source) isdigit (snd (advance st)))
    else (false, st) in
  addTokenText (if isFloat then FLOAT else NUMBER) (lexeme st) st.

Definition scanIdentifier (st : State) : State :=
  let st := advanceWhile (String.length source)
              (fun c => isalnum c || Ascii.eqb c "_") st in
  let txt := lexeme st in
  match keywords !! txt with
  | Some t => addToken t st
  | None => addTokenText IDENTIFIER txt st
  end.

Definition scanToken (st : State) : State :=
  let '(c, st) := advance st in
  match c with
  | "("%char => addToken LEFT_PAREN st
  | ")"%char => addToken RIGHT_PAREN st
  | "{"%char => addToken LEFT_BRACE st
  | "}"%char => addToken RIGHT_BRACE st
  | "["%char => addToken LEFT_BRACKET st
  | "]"%char => addToken RIGHT_BRACKET st
  | ","%char => addToken COMMA st
  | "."%char => addToken DOT st
  | ";"%char => addToken SEMICOLON st
  | ":"%char => addToken COLON st
  | "!"%char => addTokenEq BANG_EQUAL BANG st
  | "="%char => addTokenEq EQUAL_EQUAL EQUAL st
  | ">"%char => addTokenEq GREATER_EQUAL GREATER st
  | "<"%char => addTokenEq LESS_EQUAL LESS st
  | "+"%char => addTokenEq PLUS_EQUAL PLUS st
  | "-"%char => addTokenEq MINUS_EQUAL MINUS st
  | "*"%char => addTokenEq STAR_EQUAL STAR st
  | "/"%char =>
      let '(m, st) := match_ "/" st in
      if m then skipComment (String.length source) st
      else
        let '(m, st) := match_ "=" st in
        if m then addToken SLASH_EQUAL st else addToken SLASH st
  | "%"%char => addTokenEq MOD_EQUAL MOD st
  | " "%char => st
  | "013"%char => st
  | "009"%char => st
  | "010"%char =>
      mkState (start st) (current st) (S (cur_line st)) 1 (tokens st) (errors st)
  | "034"%char => scanString st
  | _ =>
      if isdigit c then scanNumber st
      else if isalpha c || Ascii.eqb c "_" then scanIdentifier st
      else error ("Unexpected character: " +:+ String c "") st
  end.

(** [while (!isAtEnd()) { start = current; scanToken(); }] Every round
    consumes a character. *)
Fixpoint tokenize_loop (fuel : nat) (st : State) : State :=
  match fuel with
  | O => st
  | S fuel' =>
      if isAtEnd st then st
      else
        let st := mkState (current st) (current st) (cur_line st) (cur_column st)
                    (tokens st) (errors st) in
        tokenize_loop fuel' (scanToken st)
  end.

(** A fresh [Lexer] and [tokenize()]: the tokens and the errors. *)
Definition tokenize : list Token * list string :=
  let st := tokenize_loop (String.length source) (mkState 0 0 1 1 [] []) in
  (tokens st ++ [mkToken EOF_TOKEN "" (cur_line st) (cur_column st)], errors st).

End WithSource.

(** ** Vocabulary of the properties *)

(** A token that [scanToken] may add: neither the end marker nor [ERROR]. *)
Definition ordinary (t : Token) : Prop := type t ≠ EOF_TOKEN ∧ type t ≠ ERROR.

(** [st'] is [st] after some scanning of [source]: the position has not
    moved back nor left the source, and the tokens added are ordinary. *)
Definition extends (source : string) (st st' : State) : Prop :=
  (current st <= current st')%nat
  ∧ ((current st <= String.length source)%nat → (current st' <= String.length source)%nat)
  ∧ ∃ new, tokens st' = tokens st ++ new ∧ Forall ordinary new.

End Lexer.

(** * value.h, ast.h: the syntax tree

    A [std::shared_ptr] that may be null has the constructor [ENull] or
    [SNull] for [nullptr]. *)

Module Ast.

Local Set Warnings "-register-all".

(** [class Value] of value.h, the literal of the syntax tree. *)
Inductive Value : Type :=
| NIL
| INT (v : Z)
| FLOAT (v : Z)
| BOOL (v : bool)
| STRING (v : string)
| INT_ARRAY (v : list Z)
| FLOAT_ARRAY (v : list Z)
| STRING_ARRAY (v : list string).

Inductive Expr : Type :=
| ENull
| LiteralExpr (value : Value)
| VariableExpr (name : string)
| BinaryExpr (left : Expr) (op : string) (right : Expr)
| CompareExpr (left : Expr) (op : string) (right : Expr)
| LogicalExpr (left : Expr) (op : string) (right : Expr)
| CallExpr (className methodName : string) (args : list Expr) (isNative : bool)
| GetExpr (object : Expr) (name : string)
| ArrayExpr (elements : list Expr)
| IndexExpr (array index : Expr).

Record FunctionParam : Type := mkFunctionParam {
  param_type : string;
  param_name : string
}.

Inductive Stmt : Type :=
| SNull
| ExprStmt (expression : Expr)
| VarDeclStmt (isMutable : bool) (type name : string) (initializer : Expr)
| AssignStmt (name : string) (value : Expr)
| BlockStmt (statements : list Stmt)
| FunctionStmt (name : string) (parameters : list FunctionParam) (body : list Stmt)
| ReturnStmt (value : Expr)
| IfStmt (condition : Expr) (thenBranch : Stmt) (elseBranch : Stmt)
| WhileStmt (condition : Expr) (body : Stmt)
| ForStmt (initializer : Stmt) (condition : Expr) (increment : Expr) (body : Stmt)
| BreakStmt
| ContinueStmt
| ArrayDeclStmt (type name : string) (size : Expr) (initializer : Expr).

Definition is_null_expr (e : Expr) : bool :=
  match e with ENull => true | _ => false end.

Definition is_null_stmt (s : Stmt) : bool :=
  match s with SNull => true | _ => false end.

End Ast.

(** * parser.h, parser.cpp *)

Module Parser.
Import Lexer Ast.

(** What a parsing function can throw: a [std::runtime_error], which
    [parse] and [parseDeclaration] catch, or another exception
    ([std::stoll] or [std::stod] out of range; the model's recursion bound), which they do
    not. *)
Inductive Exn : Type :=
| RuntimeError (what : string)
| OtherError (what : string).

Inductive outcome (A : Type) : Type :=
| Return (a : A)
| Throw (e : Exn).
Arguments Return {A} a.
Arguments Throw {A} e.

(** The fields of [class Parser] that change. *)
Record State : Type := mkState {
  pos : nat;
  errors : list string;
  includedFiles : gmap string string
}.

Definition P (A : Type) : Type := State → outcome A * State.

Definition ret {A} (a : A) : P A := fun st => (Return a, st).

Definition bind {A B} (m : P A) (k : A → P B) : P B :=
  fun st => match m st with
            | (Return a, st') => k a st'
            | (Throw e, st') => (Throw e, st')
            end.

Local Notation "x <- c1 ;; c2" := (bind c1 (fun x => c2))
  (at level 100, c1 at next level, right associativity).
Local Notation "c1 ;;; c2" := (bind c1 (fun _ => c2))
  (at level 100, right associativity).

Definition throw {A} (e : Exn) : P A := fun st => (Throw e, st).

(** [try { m } catch (const std::runtime_error &e) { handler(e.what()) }] *)
Definition try_catch {A} (m : P A) (handler : string → P A) : P A :=
  fun st => match m st with
            | (Throw (RuntimeError what), st') => handler what st'
            | r => r
            end.

Definition get : P State := fun st => (Return st, st).
Definition set_pos (p : nat) : P unit :=
  fun st => (Return tt, mkState p (errors st) (includedFiles st)).
Definition push_error (e : string) : P unit :=
  fun st => (Return tt, mkState (pos st) (errors st ++ [e]) (includedFiles st)).
Definition set_include (k v : string) : P unit :=
  fun st => (Return tt, mkState (pos st) (errors st) (<[k := v]> (includedFiles st))).

Definition out_of_fuel {A} : P A := throw (OtherError "recursion bound of the model reached").

(** [std::stoll] on the text of a [NUMBER] token, which holds digits only. *)
Definition digit_value (c : ascii) : Z := Z.of_nat (nat_of_ascii c) - 48.

Definition stoll (s : string) : option Z :=
  let v := fold_left (fun acc c => acc * 10 + digit_value c) (list_ascii_of_string s) 0 in
  if forallb isdigit (list_ascii_of_string s) && negb (String.eqb s "") && (v <? 2 ^ 63)
  then Some v else None.

Definition extractBaseName (path : string) : string :=
  let filename :=
    match find_last_of ["/"%char; BACKSLASH] path with
    | Some lastSlash => String.substring (S lastSlash) (String.length path) path
    | None => path
    end in
  match find_last_of ["."%char] filename with
  | Some dotPos => String.substring 0 dotPos filename
  | None => filename
  end.

Definition isTypeToken (t : TokenType) : bool :=
  match t with
  | Lexer.INT | FLOAT_TYPE | STR | Lexer.BOOL | BYTE => true
  | _ => false
  end.

Definition realNatives : list string :=
  ["Console"; "Math"; "String"; "Array"; "File"; "System"]%string.

Section WithTokens.

Variable tokens : list Token.
(** [std::stod] on the text of a [FLOAT] token, as a bit pattern; [None]
    when it throws [std::out_of_range] (a literal above [DBL_MAX], or too
    small to be represented). *)
Variable stod : string → option Z.

(** [tokens[i]]; outside the vector C++ leaves the read undefined, the
    model reads an end-of-file token. *)
Definition token_at (i : nat) : Token :=
  match tokens !! i with
  | Some t => t
  | None => mkToken EOF_TOKEN "" 0 0
  end.

Definition isAtEnd_ (st : State) : bool :=
  (length tokens <=? pos st)%nat
  || bool_decide (Lexer.type (token_at (pos st)) = EOF_TOKEN).

Definition isAtEnd : P bool := fun st => (Return (isAtEnd_ st), st).

Definition peek : P Token :=
  st <- get ;;
  if isAtEnd_ st then ret (token_at (length tokens - 1)) else ret (token_at (pos st)).

Definition advance : P Token :=
  st <- get ;;
  (if isAtEnd_ st then ret tt else set_pos (S (pos st))) ;;;
  st <- get ;;
  ret (token_at (pos st - 1)).

(** [tokens[pos - 1]] *)
Definition previous : P Token :=
  st <- get ;; ret (token_at (pos st - 1)).

Definition check (t : TokenType) : P bool :=
  st <- get ;;
  if isAtEnd_ st then ret false
  else ret (bool_decide (Lexer.type (token_at (pos st)) = t)).

Definition match_ (t : TokenType) : P bool :=
  c <- check t ;;
  if c then advance ;;; ret true else ret false.

(** [match(t1) || match(t2) || ...] *)
Fixpoint matchAny (ts : list TokenType) : P bool :=
  match ts with
  | [] => ret false
  | t :: ts' => m <- match_ t ;; if m then ret true else matchAny ts'
  end.

Definition error (token : Token) (message : string) : P unit :=
  push_error ("Parse error at line " +:+ pretty (Lexer.line token) +:+
              ", column " +:+ pretty (Lexer.column token) +:+ ": " +:+ message).

Definition consume (t : TokenType) (message : string) : P Token :=
  c <- check t ;;
  if c then advance
  else tk <- peek ;; error tk message ;;; throw (RuntimeError message).

Fixpoint synchronize_loop (fuel : nat) : P unit :=
  match fuel with
  | O => ret tt
  | S fuel' =>
      e <- isAtEnd ;;
      if e then ret tt else
      prev <- previous ;;
      if bool_decide (Lexer.type prev = SEMICOLON) then ret tt else
      tk <- peek ;;
      match Lexer.type tk with
      | FN | IF | FOR | WHILE | RETURN | INCLUDE => ret tt
      | _ => advance ;;; synchronize_loop fuel'
      end
  end.

Definition synchronize : P unit :=
  advance ;;; synchronize_loop (length tokens).

(** ** Expressions. [self] is [parseExpression] one recursion level down. *)

Definition parsePrimary (self : P Expr) : P Expr :=
  m <- match_ NUMBER ;;
  if m then
    tk <- previous ;;
    match stoll (Lexer.text tk) with
    | Some value => ret (LiteralExpr (Ast.INT value))
    | None => throw (OtherError "stoll")
    end
  else
  m <- match_ Lexer.FLOAT ;;
  if m then
    tk <- previous ;;
    match stod (Lexer.text tk) with
    | Some value => ret (LiteralExpr (Ast.FLOAT value))
    | None => throw (OtherError "stod")
    end
  else
  m <- match_ Lexer.STRING ;;
  if m then tk <- previous ;; ret (LiteralExpr (Ast.STRING (Lexer.text tk))) else
  m <- match_ TRUE ;;
  if m then ret (LiteralExpr (Ast.BOOL true)) else
  m <- match_ FALSE ;;
  if m then ret (LiteralExpr (Ast.BOOL false)) else
  m <- match_ Lexer.NIL ;;
  if m then ret (LiteralExpr Ast.NIL) else
  m <- match_ IDENTIFIER ;;
  if m then tk <- previous ;; ret (VariableExpr (Lexer.text tk)) else
  m <- match_ LEFT_PAREN ;;
  if m then
    expr <- self ;;
    consume RIGHT_PAREN "Expected ')' after expression" ;;;
    ret expr
  else
  tk <- peek ;; error tk "Expected expression" ;;; ret ENull.

(** [do { args.push_back(parseExpression()); } while (match(COMMA));] *)
Fixpoint finishCall_args (self : P Expr) (fuel : nat) (args : list Expr) : P (list Expr) :=
  match fuel with
  | O => out_of_fuel
  | S fuel' =>
      arg <- self ;;
      m <- match_ COMMA ;;
      if m then finishCall_args self fuel' (args ++ [arg]) else ret (args ++ [arg])
  end.

Definition finishCall (self : P Expr) (callee : Expr) : P Expr :=
  c <- check RIGHT_PAREN ;;
  args <- (if c then ret [] else finishCall_args self (length tokens) []) ;;
  consume RIGHT_PAREN "Expected ')' after arguments" ;;;
  match callee with
  | GetExpr (VariableExpr objName) name =>
      let isNative := bool_decide (objName ∈ realNatives) in
      ret (CallExpr objName name args isNative)
  | GetExpr _ name => ret (CallExpr "" name args true)
  | VariableExpr name => ret (CallExpr "" name args false)
  | _ => ret (CallExpr "" "" args false)
  end.

Fixpoint parseCall_loop (self : P Expr) (fuel : nat) (expr : Expr) : P Expr :=
  match fuel with
  | O => out_of_fuel
  | S fuel' =>
      m <- match_ LEFT_PAREN ;;
      if m then expr <- finishCall self expr ;; parseCall_loop self fuel' expr else
      m <- match_ DOT ;;
      if m then
        name <- consume IDENTIFIER "Expected property name after '.'" ;;
        parseCall_loop self fuel' (GetExpr expr (Lexer.text name))
      else ret expr
  end.

Definition parseCall (self : P Expr) : P Expr :=
  expr <- parsePrimary self ;;
  parseCall_loop self (S (length tokens)) expr.

Fixpoint parseUnary (self : P Expr) (fuel : nat) : P Expr :=
  match fuel with
  | O => out_of_fuel
  | S fuel' =>
      m <- matchAny [BANG; MINUS] ;;
      if m then
        op <- previous ;;
        right <- parseUnary self fuel' ;;
        ret (LogicalExpr ENull (Lexer.text op) right)
      else parseCall self
  end.

(** [while (match(...)) { op = tokens[pos - 1]; right = operand(); expr = node(expr, op.text, right); }] *)
Fixpoint binary_loop (ops : list TokenType) (operand : P Expr)
    (node : Expr → string → Expr → Expr) (fuel : nat) (expr : Expr) : P Expr :=
  match fuel with
  | O => out_of_fuel
  | S fuel' =>
      m <- matchAny ops ;;
      if m then
        op <- previous ;;
        right <- operand ;;
        binary_loop ops operand node fuel' (node expr (Lexer.text op) right)
      else ret expr
  end.

Definition parseFactor (self : P Expr) : P Expr :=
  let unary := parseUnary self (S (length tokens)) in
  expr <- unary ;;
  binary_loop [STAR; SLASH; MOD] unary BinaryExpr (S (length tokens)) expr.

Definition parseTerm (self : P Expr) : P Expr :=
  expr <- parseFactor self ;;
  binary_loop [PLUS; MINUS] (parseFactor self) BinaryExpr (S (length tokens)) expr.

Definition parseComparison (self : P Expr) : P Expr :=
  expr <- parseTerm self ;;
  binary_loop [GREATER; GREATER_EQUAL; LESS; LESS_EQUAL] (parseTerm self) CompareExpr
    (S (length tokens)) expr.

Definition parseEquality (self : P Expr) : P Expr :=
  expr <- parseComparison self ;;
  binary_loop [BANG_EQUAL; EQUAL_EQUAL] (parseComparison self) CompareExpr
    (S (length tokens)) expr.

Definition parseLogicalAnd (self : P Expr) : P Expr :=
  expr <- parseEquality self ;;
  binary_loop [AND] (parseEquality self) (fun l _ r => LogicalExpr l "&&" r)
    (S (length tokens)) expr.

Definition parseLogicalOr (self : P Expr) : P Expr :=
  expr <- parseLogicalAnd self ;;
  binary_loop [OR] (parseLogicalAnd self) (fun l _ r => LogicalExpr l "||" r)
    (S (length tokens)) expr.

(** [parseExpression] is [parseAssignment]; [fuel] bounds the nesting. *)
Fixpoint parseAssignment (fuel : nat) : P Expr :=
  match fuel with
  | O => out_of_fuel
  | S fuel' =>
      expr <- parseLogicalOr (parseAssignment fuel') ;;
      m <- match_ EQUAL ;;
      if m then
        value <- parseAssignment fuel' ;;
        match expr with
        | VariableExpr _ => ret (BinaryExpr expr "=" value)
        | _ => tk <- peek ;; error tk "Invalid assignment target" ;;; ret expr
        end
      else ret expr
  end.

Definition parseExpression : P Expr := parseAssignment (S (length tokens)).

(** ** Statements *)

Definition parseInclude : P Stmt :=
  nameToken <- consume IDENTIFIER "Expected library name after 'include'" ;;
  consume SEMICOLON "Expected ';' after include" ;;;
  let includePath := Lexer.text nameToken in
  set_include (extractBaseName includePath) includePath ;;;
  ret SNull.

Definition parseVarDeclaration : P Stmt :=
  m <- match_ UNMUT ;;
  isMutable <- (if m then ret false else match_ MUT ;;; ret true) ;;
  typeToken <- advance ;;
  if negb (isTypeToken (Lexer.type typeToken))
  then error typeToken "Expected type name" ;;; ret SNull
  else
    name <- consume IDENTIFIER "Expected variable name" ;;
    m <- match_ EQUAL ;;
    initializer <- (if m then parseExpression else ret ENull) ;;
    consume SEMICOLON "Expected ';' after variable declaration" ;;;
    ret (VarDeclStmt isMutable (Lexer.text typeToken) (Lexer.text name) initializer).

Definition parseArrayDeclaration : P Stmt :=
  typeToken <- advance ;;
  name <- consume IDENTIFIER "Expected array name" ;;
  consume LEFT_BRACKET "Expected '[' after array name" ;;;
  c <- check RIGHT_BRACKET ;;
  size <- (if c then ret ENull else parseExpression) ;;
  consume RIGHT_BRACKET "Expected ']' after array size" ;;;
  m <- match_ EQUAL ;;
  initializer <- (if m then parseExpression else ret ENull) ;;
  consume SEMICOLON "Expected ';' after array declaration" ;;;
  ret (ArrayDeclStmt (Lexer.text typeToken) (Lexer.text name) size initializer).

Definition parseReturnStatement : P Stmt :=
  c <- check SEMICOLON ;;
  value <- (if c then ret ENull else parseExpression) ;;
  consume SEMICOLON "Expected ';' after return" ;;;
  ret (ReturnStmt value).

Definition parseBreakStatement : P Stmt :=
  consume SEMICOLON "Expected ';' after break" ;;; ret BreakStmt.

Definition parseContinueStatement : P Stmt :=
  consume SEMICOLON "Expected ';' after continue" ;;; ret ContinueStmt.

(** The statement parsers that call each other; a field is the function one
    recursion level down. *)
Record Self : Type := mkSelf {
  self_declaration : P Stmt;
  self_statement : P Stmt;
  self_block : P Stmt;
  self_if : P Stmt
}.

(** [while (!check(RIGHT_BRACE) && !isAtEnd()) { stmt = parseDeclaration(); if (stmt) push_back }] *)
Fixpoint parseBlock_loop (self : Self) (fuel : nat) (statements : list Stmt) : P (list Stmt) :=
  match fuel with
  | O => out_of_fuel
  | S fuel' =>
      c <- check RIGHT_BRACE ;;
      e <- isAtEnd ;;
      if negb c && negb e then
        stmt <- self_declaration self ;;
        parseBlock_loop self fuel'
          (if is_null_stmt stmt then statements else statements ++ [stmt])
      else ret statements
  end.

Definition parseBlock (self : Self) : P Stmt :=
  statements <- parseBlock_loop self (S (length tokens)) [] ;;
  consume RIGHT_BRACE "Expected '}' after block" ;;;
  ret (BlockStmt statements).

Definition parseIfStatement (self : Self) : P Stmt :=
  consume LEFT_PAREN "Expected '(' after 'if'" ;;;
  condition <- parseExpression ;;
  consume RIGHT_PAREN "Expected ')' after condition" ;;;
  thenBranch <- parseBlock self ;;
  m <- match_ ELSE ;;
  elseBranch <- (if m then
                   m <- match_ IF ;;
                   if m then self_if self else self_block self
                 else ret SNull) ;;
  ret (IfStmt condition thenBranch elseBranch).

Definition parseWhileStatement (self : Self) : P Stmt :=
  consume LEFT_PAREN "Expected '(' after 'while'" ;;;
  condition <- parseExpression ;;
  consume RIGHT_PAREN "Expected ')' after condition" ;;;
  body <- self_statement self ;;
  ret (WhileStmt condition body).

Definition parseForStatement (self : Self) : P Stmt :=
  consume LEFT_PAREN "Expected '(' after 'for'" ;;;
  m <- match_ SEMICOLON ;;
  initializer <-
    (if m then ret SNull else
       st <- get ;;
       let savedPos := pos st in
       matchAny [UNMUT; MUT] ;;;
       tk <- peek ;;
       let isType := isTypeToken (Lexer.type tk) in
       set_pos savedPos ;;;
       if isType then parseVarDeclaration
       else
         expr <- parseExpression ;;
         consume SEMICOLON "Expected ';' after for initializer" ;;;
         ret (ExprStmt expr)) ;;
  c <- check SEMICOLON ;;
  condition <- (if c then ret ENull else parseExpression) ;;
  consume SEMICOLON "Expected ';' after for condition" ;;;
  c <- check RIGHT_PAREN ;;
  increment <- (if c then ret ENull else parseExpression) ;;
  consume RIGHT_PAREN "Expected ')' after for clauses" ;;;
  body <- self_statement self ;;
  ret (ForStmt initializer condition increment body).

Definition parseStatement (self : Self) : P Stmt :=
  m <- match_ IF ;; if m then parseIfStatement self else
  m <- match_ WHILE ;; if m then parseWhileStatement self else
  m <- match_ FOR ;; if m then parseForStatement self else
  m <- match_ RETURN ;; if m then parseReturnStatement else
  m <- match_ BREAK ;; if m then parseBreakStatement else
  m <- match_ CONTINUE ;; if m then parseContinueStatement else
  m <- match_ LEFT_BRACE ;; if m then parseBlock self else
  st <- get ;;
  let savedPos := pos st in
  matchAny [UNMUT; MUT] ;;;
  tk <- peek ;;
  if isTypeToken (Lexer.type tk) then set_pos savedPos ;;; parseVarDeclaration else
  c <- check IDENTIFIER ;;
  st <- get ;;
  if c && (pos st + 1 <? length tokens)%nat
     && bool_decide (Lexer.type (token_at (pos st + 1)) = LEFT_BRACKET)
  then parseArrayDeclaration
  else
    expr <- parseExpression ;;
    consume SEMICOLON "Expected ';' after expression" ;;;
    ret (ExprStmt expr).

(** [do { ... } while (match(COMMA));] over the parameters. *)
Fixpoint parseFunction_params (fuel : nat) (parameters : list FunctionParam)
    : P (list FunctionParam) :=
  match fuel with
  | O => out_of_fuel
  | S fuel' =>
      typeToken <- peek ;;
      if negb (isTypeToken (Lexer.type typeToken)) then
        error typeToken ("Expected parameter type (int, float, str, bool, byte), got: '"
                         +:+ Lexer.text typeToken +:+ "'") ;;;
        throw (RuntimeError "Expected parameter type")
      else
        advance ;;;
        paramName <- consume IDENTIFIER "Expected parameter name" ;;
        let parameters :=
          parameters ++ [mkFunctionParam (Lexer.text typeToken) (Lexer.text paramName)] in
        m <- match_ COMMA ;;
        if m then parseFunction_params fuel' parameters else ret parameters
  end.

Definition parseFunction (self : Self) : P Stmt :=
  name <- consume IDENTIFIER "Expected function name" ;;
  consume LEFT_PAREN "Expected '(' after function name" ;;;
  c <- check RIGHT_PAREN ;;
  parameters <- (if c then ret [] else parseFunction_params (length tokens) []) ;;
  consume RIGHT_PAREN "Expected ')' after parameters" ;;;
  consume LEFT_BRACE "Expected '{' before function body" ;;;
  body <- parseBlock self ;;
  match body with
  | BlockStmt statements => ret (FunctionStmt (Lexer.text name) parameters statements)
  | _ => ret (FunctionStmt (Lexer.text name) parameters [])
  end.

Definition parseDeclaration (self : Self) : P Stmt :=
  try_catch
    (m <- match_ INCLUDE ;; if m then parseInclude else
     m <- match_ FN ;; if m then parseFunction self else
     parseStatement self)
    (fun what => push_error what ;;; synchronize ;;; ret SNull).

Fixpoint parsers (fuel : nat) : Self :=
  match fuel with
  | O => mkSelf out_of_fuel out_of_fuel out_of_fuel out_of_fuel
  | S fuel' =>
      let self := parsers fuel' in
      mkSelf (parseDeclaration self) (parseStatement self) (parseBlock self)
        (parseIfStatement self)
  end.

(** [while (!isAtEnd()) { try { ... parseDeclaration() ... } catch ... }] *)
Fixpoint parse_loop (fuel : nat) (statements : list Stmt) : P (list Stmt) :=
  match fuel with
  | O => ret statements
  | S fuel' =>
      e <- isAtEnd ;;
      if e then ret statements else
      statements <-
        try_catch
          (stmt <- self_declaration (parsers (S (length tokens))) ;;
           ret (if is_null_stmt stmt then statements else statements ++ [stmt]))
          (fun what => push_error what ;;; synchronize ;;; ret statements) ;;
      parse_loop fuel' statements
  end.

(** A fresh [Parser] and [parse()]: the statements (unless an exception
    escapes) and the state, which holds the errors. *)
Definition parse : outcome (list Stmt) * State :=
  parse_loop (length tokens) [] (mkState 0 [] ∅).

End WithTokens.

(** ** Vocabulary of the properties *)

(** The statement holds an [AssignStmt] somewhere. *)
Fixpoint has_assign (s : Stmt) : bool :=
  match s with
  | AssignStmt _ _ => true
  | BlockStmt statements => existsb has_assign statements
  | FunctionStmt _ _ body => existsb has_assign body
  | IfStmt _ thenBranch elseBranch => has_assign thenBranch || has_assign elseBranch
  | WhileStmt _ body => has_assign body
  | ForStmt initializer _ _ body => has_assign initializer || has_assign body
  | _ => false
  end.

Definition assign_free (s : Stmt) : Prop := has_assign s = false.

Definition all_assign_free (l : list Stmt) : Prop := existsb has_assign l = false.

(** Every value the computation returns satisfies [Q]. *)
Definition yields {A} (Q : A → Prop) (m : P A) : Prop :=
  ∀ st, match fst (m st) with Return a => Q a | Throw _ => True end.

(** The parsers one recursion level down return no [AssignStmt]. *)
Definition self_assign_free (self : Self) : Prop :=
  yields assign_free (self_declaration self)
  ∧ yields assign_free (self_statement self)
  ∧ yields assign_free (self_block self)
  ∧ yields assign_free (self_if self).


End Parser.

(** * compiler.h, compiler.cpp *)

Module Compiler.
Import Ast TVM.

Record LocalVar : Type := mkLocalVar {
  lv_name : string;
  lv_index : Z;
  lv_isParam : bool
}.

Record FunctionContext : Type := mkFunctionContext {
  locals : list LocalVar;
  varMap : gmap string Z;
  nextLocal : Z;
  startAddr : Z;
  paramCount : Z
}.

(** [FunctionContext()] *)
Definition newFunctionContext : FunctionContext := mkFunctionContext [] ∅ 0 0 0.

(** [breakAddr] and [continueAddr] are never written or read. *)
Record LoopContext : Type := mkLoopContext {
  breakPatches : list Z;
  continuePatches : list Z
}.

(** The fields of [class Compiler]. *)
Record State : Type := mkState {
  bytecode : BytecodeFile;
  contextStack : list FunctionContext;  (* head = back() *)
  loopStack : list LoopContext;         (* head = back() *)
  globalMap : gmap string Z;
  functionAddrs : gmap string Z
}.

(** [Compiler::Compiler()] *)
Definition newCompiler : State :=
  mkState emptyBytecode [newFunctionContext] [] ∅ ∅.

(** A compilation step either throws [std::runtime_error(what)] or returns
    with a new state. *)
Definition C (A : Type) : Type := State → result string (A * State).

Definition ret {A} (a : A) : C A := fun st => Ok (a, st).

Definition bind {A B} (m : C A) (k : A → C B) : C B :=
  fun st => match m st with
            | Ok (a, st') => k a st'
            | Err e => Err e
            end.

Local Notation "x <- c1 ;; c2" := (bind c1 (fun x => c2))
  (at level 100, c1 at next level, right associativity).
Local Notation "c1 ;;; c2" := (bind c1 (fun _ => c2))
  (at level 100, right associativity).

Definition throw {A} (what : string) : C A := fun _ => Err what.
Definition get : C State := fun st => Ok (st, st).
Definition modify (f : State → State) : C unit := fun st => Ok (tt, f st).

Definition set_bytecode (b : BytecodeFile) (st : State) : State :=
  mkState b (contextStack st) (loopStack st) (globalMap st) (functionAddrs st).
Definition set_contextStack (c : list FunctionContext) (st : State) : State :=
  mkState (bytecode st) c (loopStack st) (globalMap st) (functionAddrs st).
Definition set_loopStack (l : list LoopContext) (st : State) : State :=
  mkState (bytecode st) (contextStack st) l (globalMap st) (functionAddrs st).
Definition set_functionAddrs (f : gmap string Z) (st : State) : State :=
  mkState (bytecode st) (contextStack st) (loopStack st) (globalMap st) f.

Definition set_code (c : list Instruction) (b : BytecodeFile) : BytecodeFile :=
  mkBytecodeFile (magic b) (version b) (flags b) c (constants b) (strings b)
    (intArrays b) (floatArrays b) (stringArrays b) (functions b) (nativeImports b).
Definition set_constants (c : list Constant) (b : BytecodeFile) : BytecodeFile :=
  mkBytecodeFile (magic b) (version b) (flags b) (code b) c (strings b)
    (intArrays b) (floatArrays b) (stringArrays b) (functions b) (nativeImports b).
Definition set_strings (s : list string) (b : BytecodeFile) : BytecodeFile :=
  mkBytecodeFile (magic b) (version b) (flags b) (code b) (constants b) s
    (intArrays b) (floatArrays b) (stringArrays b) (functions b) (nativeImports b).
Definition set_functions (f : list FunctionInfo) (b : BytecodeFile) : BytecodeFile :=
  mkBytecodeFile (magic b) (version b) (flags b) (code b) (constants b) (strings b)
    (intArrays b) (floatArrays b) (stringArrays b) f (nativeImports b).
Definition set_nativeImports (n : list string) (b : BytecodeFile) : BytecodeFile :=
  mkBytecodeFile (magic b) (version b) (flags b) (code b) (constants b) (strings b)
    (intArrays b) (floatArrays b) (stringArrays b) (functions b) n.

Definition modify_bytecode (f : BytecodeFile → BytecodeFile) : C unit :=
  modify (fun st => set_bytecode (f (bytecode st)) st).

(** [bytecode.code.size()] as a [uint32_t]. *)
Definition codeSize : C Z := st <- get ;; ret (u32 (len (code (bytecode st)))).

(** ** Code generation *)

Definition emit (op : OpCode) (operand : Z) : C unit :=
  modify_bytecode (fun b => set_code (code b ++ [mkInstruction op operand]) b).

Definition emitJump (op : OpCode) : C Z :=
  emit op 0xFFFFFFFF ;;;
  n <- codeSize ;; ret (u32 (n - 1)).

(** [bytecode.code[addr].operand = target] *)
Definition set_operand (addr target : Z) (cd : list Instruction) : list Instruction :=
  match at_ cd addr with
  | Some i => update_at cd addr (mkInstruction (opcode i) target)
  | None => cd
  end.

Definition patchJump (jumpAddr : Z) : C unit :=
  n <- codeSize ;;
  modify_bytecode (fun b => set_code (set_operand jumpAddr n (code b)) b).

Definition patchJumps (patches : list Z) (target : Z) : C unit :=
  modify_bytecode
    (fun b => set_code (fold_left (fun cd addr => set_operand addr target cd) patches (code b)) b).

(** ** Constants *)

(** [constants.push_back(cst)], returning the index it had. *)
Definition pushConstant (cst : Constant) : C Z :=
  st <- get ;;
  let idx := u32 (len (constants (bytecode st))) in
  modify_bytecode (fun b => set_constants (constants b ++ [cst]) b) ;;;
  ret idx.

(** The first index whose constant satisfies [p], as a [uint32_t]. *)
Definition findConstant (p : Constant → bool) (cs : list Constant) : option Z :=
  (fun r => u32 (Z.of_nat (fst r))) <$> list_find (fun c => p c = true) cs.

Definition addConstantWith (p : Constant → bool) (cst : Constant) : C Z :=
  st <- get ;;
  match findConstant p (constants (bytecode st)) with
  | Some i => ret i
  | None => pushConstant cst
  end.

Definition addConstantInt (value : Z) : C Z :=
  addConstantWith (fun c => match c with CInt v => v =? value | _ => false end) (CInt value).

Definition addConstantFloat (value : Z) : C Z :=
  addConstantWith (fun c => match c with CFloat v => float_eq v value | _ => false end)
    (CFloat value).

Definition addConstantBool (value : bool) : C Z :=
  addConstantWith (fun c => match c with CBool v => Bool.eqb v value | _ => false end)
    (CBool value).

(** The loop of [addConstantString]: for every [i] with [strings[i] == value],
    in order, the first constant of type string with that index. *)
Fixpoint findStringConstant (value : string) (cs : list Constant)
    (strs : list string) (i : Z) : option Z :=
  match strs with
  | [] => None
  | s :: strs' =>
      let here :=
        if String.eqb s value
        then findConstant (fun c => match c with CString k => k =? u32 i | _ => false end) cs
        else None in
      match here with
      | Some j => Some j
      | None => findStringConstant value cs strs' (i + 1)
      end
  end.

Definition addConstantString (value : string) : C Z :=
  st <- get ;;
  let b := bytecode st in
  match findStringConstant value (constants b) (strings b) 0 with
  | Some j => ret j
  | None =>
      let strIdx := u32 (len (strings b)) in
      modify_bytecode (fun b => set_strings (strings b ++ [value]) b) ;;;
      pushConstant (CString strIdx)
  end.

Definition emitPushInt (value : Z) : C unit :=
  idx <- addConstantInt value ;; emit OP_PUSH idx.
Definition emitPushFloat (value : Z) : C unit :=
  idx <- addConstantFloat value ;; emit OP_PUSH idx.
Definition emitPushBool (value : bool) : C unit :=
  idx <- addConstantBool value ;; emit OP_PUSH idx.
Definition emitPushString (value : string) : C unit :=
  idx <- addConstantString value ;; emit OP_PUSH idx.
Definition emitPushNil : C unit :=
  idx <- pushConstant CNil ;; emit OP_PUSH idx.

(** [elemType] is one of the three array tags; the constant carries [size]
    in [arrayIdx]. *)
Definition compileNewArray (elemType : ValueType) (size : Z) : C unit :=
  let cst :=
    match elemType with
    | TYPE_ARRAY_INT => CArrayInt size
    | TYPE_ARRAY_FLOAT => CArrayFloat size
    | _ => CArrayString size
    end in
  constIdx <- pushConstant cst ;; emit OP_NEW_ARRAY constIdx.

Definition addNativeImport (name : string) : C Z :=
  st <- get ;;
  match list_find (fun n => n = name) (nativeImports (bytecode st)) with
  | Some (i, _) => ret (u32 (Z.of_nat i))
  | None =>
      let idx := u32 (len (nativeImports (bytecode st))) in
      modify_bytecode (fun b => set_nativeImports (nativeImports b ++ [name]) b) ;;;
      ret idx
  end.

(** ** Variables *)

(** [FunctionContext::addLocal] *)
Definition addLocal (name : string) (isParam : bool) (ctx : FunctionContext)
    : Z * FunctionContext :=
  (nextLocal ctx,
   mkFunctionContext (locals ctx ++ [mkLocalVar name (nextLocal ctx) isParam])
     (<[name := nextLocal ctx]> (varMap ctx))
     (u32 (nextLocal ctx + 1)) (startAddr ctx) (paramCount ctx)).

(** [currentContext().addLocal(name)]; the context stack is never empty
    where the compiler declares a local. *)
Definition declareLocal (name : string) : C Z :=
  st <- get ;;
  match contextStack st with
  | ctx :: rest =>
      let '(idx, ctx') := addLocal name false ctx in
      modify (set_contextStack (ctx' :: rest)) ;;; ret idx
  | [] => throw "undefined behaviour: back() of an empty context stack"
  end.

(** The innermost context that knows [name] decides. *)
Fixpoint resolveLocal_in (stack : list FunctionContext) (name : string) : Z :=
  match stack with
  | [] => UINT32_MAX
  | ctx :: rest =>
      match varMap ctx !! name with
      | Some idx => idx
      | None => resolveLocal_in rest name
      end
  end.

Definition resolveLocal (name : string) : C Z :=
  st <- get ;; ret (resolveLocal_in (contextStack st) name).

Definition resolveGlobal (name : string) : C Z :=
  st <- get ;;
  match globalMap st !! name with
  | Some idx => ret idx
  | None => ret UINT32_MAX
  end.

(** ** Expressions *)

Definition compileLiteral (value : Ast.Value) : C unit :=
  match value with
  | Ast.INT v => emitPushInt v
  | Ast.FLOAT v => emitPushFloat v
  | Ast.BOOL v => emitPushBool v
  | Ast.STRING v => emitPushString v
  | Ast.NIL => emitPushNil
  | _ => throw "Unsupported literal type"
  end.

Definition compileVariable (name : string) : C unit :=
  idx <- resolveLocal name ;;
  if negb (idx =? UINT32_MAX) then emit OP_LOAD idx
  else
    idx <- resolveGlobal name ;;
    if negb (idx =? UINT32_MAX) then emit OP_LOAD_GLOBAL idx
    else throw ("Undefined variable: " +:+ name).

(** [for (const auto &e : exprs) compileExpr(e);] *)
Definition compileExprs (compileExpr : Expr → C unit) : list Expr → C unit :=
  fix go (exprs : list Expr) : C unit :=
    match exprs with
    | [] => ret tt
    | e :: exprs' => compileExpr e ;;; go exprs'
    end.

(** The part of [compileCall] after the arguments. *)
Definition emitCall (className methodName : string) (isNative : bool) : C unit :=
  if isNative then
    let fullName := className +:+ "." +:+ methodName in
    if String.eqb fullName "Console.println" then emit OP_PRINTLN 0
    else if String.eqb fullName "Console.print" then emit OP_PRINT 0
    else if String.eqb fullName "Console.read" then emit OP_READ 0
    else idx <- addNativeImport fullName ;; emit OP_CALL_NATIVE idx
  else
    let functionToCall :=
      if negb (String.eqb className "") then className +:+ "_" +:+ methodName
      else methodName in
    st <- get ;;
    match functionAddrs st !! functionToCall with
    | Some addr => emit OP_CALL addr
    | None =>
        match functionAddrs st !! methodName with
        | Some addr => emit OP_CALL addr
        | None => throw ("Function " +:+ className +:+ "." +:+ methodName +:+ " not found")
        end
    end.

Fixpoint compileExpr (expr : Expr) : C unit :=
  match expr with
  | LiteralExpr value => compileLiteral value
  | VariableExpr name => compileVariable name
  | BinaryExpr lhs op rhs =>
      compileExpr lhs ;;;
      compileExpr rhs ;;;
      if String.eqb op "+" then emit OP_ADD 0
      else if String.eqb op "-" then emit OP_SUB 0
      else if String.eqb op "*" then emit OP_MUL 0
      else if String.eqb op "/" then emit OP_DIV 0
      else if String.eqb op "%" then emit OP_MOD 0
      else throw ("Unknown binary operator: " +:+ op)
  | CompareExpr lhs op rhs =>
      compileExpr lhs ;;;
      compileExpr rhs ;;;
      if String.eqb op "==" then emit OP_EQ 0
      else if String.eqb op "!=" then emit OP_NEQ 0
      else if String.eqb op "<" then emit OP_LT 0
      else if String.eqb op "<=" then emit OP_LTE 0
      else if String.eqb op ">" then emit OP_GT 0
      else if String.eqb op ">=" then emit OP_GTE 0
      else throw ("Unknown comparison operator: " +:+ op)
  | LogicalExpr lhs op rhs =>
      if String.eqb op "!" then
        compileExpr rhs ;;; emit OP_NOT 0
      else if String.eqb op "&&" then
        compileExpr lhs ;;;
        jump <- emitJump OP_JMP_IFNOT ;;
        compileExpr rhs ;;;
        patchJump jump
      else if String.eqb op "||" then
        compileExpr lhs ;;;
        jump <- emitJump OP_JMP_IF ;;
        compileExpr rhs ;;;
        patchJump jump
      else throw ("Unknown logical operator: " +:+ op)
  | CallExpr className methodName args isNative =>
      compileExprs compileExpr args ;;;
      emitCall className methodName isNative
  | ArrayExpr elements =>
      match elements with
      | [] => throw "Empty array needs type specification"
      | _ :: _ =>
          compileExprs compileExpr elements ;;;
          emitPushInt (len elements) ;;;
          emit OP_NEW_ARRAY 0
      end
  | IndexExpr array index =>
      compileExpr array ;;;
      compileExpr index ;;;
      emit OP_LOAD_INDEX 0
  | ENull | GetExpr _ _ => throw "Unknown expression type"
  end.

(** ** Statements *)

Definition compileVarDecl (type name : string) (initializer : Expr) : C unit :=
  (if negb (is_null_expr initializer) then compileExpr initializer
   else if String.eqb type "int" then emitPushInt 0
   else if String.eqb type "float" then emitPushFloat 0
   else if String.eqb type "bool" then emitPushBool false
   else if String.eqb type "str" then emitPushString ""
   else emitPushNil) ;;;
  localIdx <- declareLocal name ;;
  emit OP_STORE localIdx.

Definition compileAssign (name : string) (value : Expr) : C unit :=
  compileExpr value ;;;
  idx <- resolveLocal name ;;
  if negb (idx =? UINT32_MAX) then emit OP_STORE idx
  else
    idx <- resolveGlobal name ;;
    if negb (idx =? UINT32_MAX) then emit OP_STORE_GLOBAL idx
    else throw ("Undefined variable: " +:+ name).

Definition compileExprStmt (expression : Expr) : C unit :=
  compileExpr expression ;;;
  match expression with
  | CallExpr className methodName _ true =>
      let fullName := className +:+ "." +:+ methodName in
      if String.eqb fullName "Console.println" || String.eqb fullName "Console.print"
      then ret tt
      else emit OP_POP 0
  | _ => emit OP_POP 0
  end.

Definition compileReturn (value : Expr) : C unit :=
  (if negb (is_null_expr value) then compileExpr value else emitPushNil) ;;;
  emit OP_RET 0.

(** [loopStack.back()]; both callers have pushed a loop before. *)
Definition currentLoop : C LoopContext :=
  st <- get ;;
  match loopStack st with
  | loop :: _ => ret loop
  | [] => throw "undefined behaviour: back() of an empty loop stack"
  end.

Definition pushLoop (loop : LoopContext) : C unit :=
  modify (fun st => set_loopStack (loop :: loopStack st) st).

Definition popLoop : C unit :=
  modify (fun st => set_loopStack (tail (loopStack st)) st).

Definition compileBreak : C unit :=
  st <- get ;;
  match loopStack st with
  | [] => throw "Break outside loop"
  | loop :: rest =>
      jump <- emitJump OP_JMP ;;
      modify (fun st =>
        set_loopStack
          (mkLoopContext (breakPatches loop ++ [jump]) (continuePatches loop) :: rest) st)
  end.

Definition compileContinue : C unit :=
  st <- get ;;
  match loopStack st with
  | [] => throw "Continue outside loop"
  | loop :: rest =>
      jump <- emitJump OP_JMP ;;
      modify (fun st =>
        set_loopStack
          (mkLoopContext (breakPatches loop) (continuePatches loop ++ [jump]) :: rest) st)
  end.

Definition compileArrayDecl (type name : string) (size initializer : Expr) : C unit :=
  elemType <-
    (if String.eqb type "int" then ret TYPE_ARRAY_INT
     else if String.eqb type "float" then ret TYPE_ARRAY_FLOAT
     else if String.eqb type "str" then ret TYPE_ARRAY_STRING
     else throw ("Unsupported array type: " +:+ type)) ;;
  (if negb (is_null_expr size) then compileExpr size ;;; compileNewArray elemType 0
   else if negb (is_null_expr initializer) then compileExpr initializer
   else compileNewArray elemType 0) ;;;
  localIdx <- declareLocal name ;;
  emit OP_STORE localIdx.

(** [countLocals]: the number the pre-pass adds to [ctx.nextLocal]. *)
Fixpoint countLocals_stmt (stmt : Stmt) : Z :=
  match stmt with
  | VarDeclStmt _ _ _ _ => 1
  | BlockStmt statements =>
      (fix go (l : list Stmt) : Z :=
         match l with
         | [] => 0
         | s :: l' => countLocals_stmt s + go l'
         end) statements
  | IfStmt _ thenBranch elseBranch =>
      countLocals_stmt thenBranch
      + (if is_null_stmt elseBranch then 0 else countLocals_stmt elseBranch)
  | WhileStmt _ body => countLocals_stmt body
  | ForStmt initializer _ _ body =>
      (match initializer with VarDeclStmt _ _ _ _ => 1 | _ => 0 end)
      + countLocals_stmt body
  | _ => 0
  end.

Definition countLocals (stmts : list Stmt) (nextLocal : Z) : Z :=
  u32 (nextLocal + foldr (fun s n => countLocals_stmt s + n) 0 stmts).

(** [for (const auto &s : stmts) compileStmt(s);] *)
Definition compileStmts (compileStmt : Stmt → C unit) : list Stmt → C unit :=
  fix go (stmts : list Stmt) : C unit :=
    match stmts with
    | [] => ret tt
    | s :: stmts' => compileStmt s ;;; go stmts'
    end.

(** [compileFunction], with the compilation of the body passed in. *)
Definition compileFunctionWith (compileBody : list Stmt → C unit)
    (name : string) (parameters : list FunctionParam) (body : list Stmt)
    (sourceFileName : string) : C unit :=
  funcAddr <- codeSize ;;
  let functionName :=
    if negb (String.eqb sourceFileName "") && negb (String.eqb name "Main")
    then path_stem sourceFileName +:+ "_" +:+ name
    else name in
  modify (fun st => set_functionAddrs (<[functionName := funcAddr]> (functionAddrs st)) st) ;;;
  (if negb (String.eqb name "Main")
   then modify (fun st => set_functionAddrs (<[name := funcAddr]> (functionAddrs st)) st)
   else ret tt) ;;;
  let counted := countLocals body (u32 (len parameters)) in
  let funcCtx :=
    fold_left (fun ctx p => snd (addLocal (param_name p) true ctx)) parameters
      (mkFunctionContext [] ∅ 0 funcAddr (u32 (len parameters))) in
  modify (fun st => set_contextStack (funcCtx :: contextStack st) st) ;;;
  compileBody body ;;;
  st <- get ;;
  (match last (code (bytecode st)) with
   | Some i =>
       if negb (opcode i =? OP_RET) && negb (opcode i =? OP_HALT)
       then emitPushNil ;;; emit OP_RET 0
       else ret tt
   | None => emitPushNil ;;; emit OP_RET 0
   end) ;;;
  modify (fun st => set_contextStack (tail (contextStack st)) st) ;;;
  modify_bytecode
    (fun b => set_functions
                (functions b ++ [mkFunctionInfo functionName funcAddr
                                   (u8 (len parameters)) (u8 counted)]) b).

Fixpoint compileStmt (stmt : Stmt) : C unit :=
  match stmt with
  | VarDeclStmt _ type name initializer => compileVarDecl type name initializer
  | AssignStmt name value => compileAssign name value
  | ExprStmt expression => compileExprStmt expression
  | BlockStmt statements =>
      modify (fun st => set_contextStack (newFunctionContext :: contextStack st) st) ;;;
      compileStmts compileStmt statements ;;;
      modify (fun st => set_contextStack (tail (contextStack st)) st)
  | IfStmt condition thenBranch elseBranch =>
      compileExpr condition ;;;
      thenJump <- emitJump OP_JMP_IFNOT ;;
      compileStmt thenBranch ;;;
      if negb (is_null_stmt elseBranch) then
        elseJump <- emitJump OP_JMP ;;
        patchJump thenJump ;;;
        compileStmt elseBranch ;;;
        patchJump elseJump
      else patchJump thenJump
  | WhileStmt condition body =>
      pushLoop (mkLoopContext [] []) ;;;
      loopStart <- codeSize ;;
      compileExpr condition ;;;
      exitJump <- emitJump OP_JMP_IFNOT ;;
      compileStmt body ;;;
      loop <- currentLoop ;;
      (match continuePatches loop with
       | [] => ret tt
       | _ :: _ => n <- codeSize ;; patchJumps (continuePatches loop) n
       end) ;;;
      emit OP_JMP loopStart ;;;
      patchJump exitJump ;;;
      loop <- currentLoop ;;
      (match breakPatches loop with
       | [] => ret tt
       | _ :: _ => n <- codeSize ;; patchJumps (breakPatches loop) n
       end) ;;;
      popLoop
  | ForStmt initializer condition increment body =>
      (if negb (is_null_stmt initializer) then compileStmt initializer else ret tt) ;;;
      (* [LoopContext loop; loopStack.push_back(loop);]: the stack holds a copy *)
      let loop := mkLoopContext [] [] in
      pushLoop loop ;;;
      loopStart <- codeSize ;;
      loop <-
        (if negb (is_null_expr condition) then
           compileExpr condition ;;;
           exitJump <- emitJump OP_JMP_IFNOT ;;
           (* [loop.breakPatches.push_back(exitJump);]: the local, not the copy *)
           ret (mkLoopContext (breakPatches loop ++ [exitJump]) (continuePatches loop))
         else ret loop) ;;
      compileStmt body ;;;
      back <- currentLoop ;;
      (match continuePatches back with
       | [] => ret tt
       | _ :: _ => n <- codeSize ;; patchJumps (continuePatches back) n
       end) ;;;
      (if negb (is_null_expr increment)
       then compileExpr increment ;;; emit OP_POP 0
       else ret tt) ;;;
      emit OP_JMP loopStart ;;;
      exitAddr <- codeSize ;;
      back <- currentLoop ;;
      (match breakPatches back with
       | [] => ret tt
       | _ :: _ => patchJumps (breakPatches back) exitAddr
       end) ;;;
      popLoop
  | ReturnStmt value => compileReturn value
  | BreakStmt => compileBreak
  | ContinueStmt => compileContinue
  | FunctionStmt name parameters body =>
      compileFunctionWith (compileStmts compileStmt) name parameters body ""
  | ArrayDeclStmt type name size initializer => compileArrayDecl type name size initializer
  | SNull => throw "Unknown statement type"
  end.

Definition compileFunction (name : string) (parameters : list FunctionParam)
    (body : list Stmt) (sourceFileName : string) : C unit :=
  compileFunctionWith (compileStmts compileStmt) name parameters body sourceFileName.

(** The first loop of [compile]: every top-level function but [Main]. *)
Fixpoint compile_others (ast : list Stmt) : C unit :=
  match ast with
  | [] => ret tt
  | FunctionStmt name parameters body :: ast' =>
      (if negb (String.eqb name "Main") then compileFunction name parameters body ""
       else ret tt) ;;;
      compile_others ast'
  | _ :: ast' => compile_others ast'
  end.

(** The second loop: the first [Main], if there is one. *)
Fixpoint compile_main (ast : list Stmt) : C bool :=
  match ast with
  | [] => ret false
  | FunctionStmt name parameters body :: ast' =>
      if String.eqb name "Main" then compileFunction name parameters body "" ;;; ret true
      else compile_main ast'
  | _ :: ast' => compile_main ast'
  end.

Definition compile_ (ast : list Stmt) : C unit :=
  compile_others ast ;;;
  hasMain <- compile_main ast ;;
  if negb hasMain then throw "Main function not found" else
  st <- get ;;
  match last (code (bytecode st)) with
  | Some i => if negb (opcode i =? OP_HALT) then emit OP_HALT 0 else ret tt
  | None => emit OP_HALT 0
  end.

(** A fresh [Compiler] and [compile(ast)]. *)
Definition compile (ast : list Stmt) : result string BytecodeFile :=
  match compile_ ast newCompiler with
  | Ok (_, st) => Ok (bytecode st)
  | Err what => Err what
  end.

(** ** Vocabulary of the properties *)

(** The address waits in a patch list of some loop on the loop stack. *)
Definition awaits_patch (a : Z) (ls : list LoopContext) : Prop :=
  ∃ loop, loop ∈ ls ∧ (a ∈ breakPatches loop ∨ a ∈ continuePatches loop).

(** The instruction at [a] is emitted and waits in no patch list. *)
Definition settled (a : Z) (st : State) : Prop :=
  0 <= a < len (code (bytecode st)) ∧ ¬ awaits_patch a (loopStack st).

(** Every address in a patch list is the address of an emitted
    instruction. *)
Definition patches_emitted (st : State) : Prop :=
  ∀ a, awaits_patch a (loopStack st) → 0 <= a < len (code (bytecode st)).

(** From [st] to [st'] the code did not shrink and, as long as its size
    fits 32 bits, the patch lists still hold emitted addresses only and a
    settled instruction outside [X] stayed as it was. *)
Definition keeps (X : list Z) (st st' : State) : Prop :=
  len (code (bytecode st)) <= len (code (bytecode st'))
  ∧ (len (code (bytecode st')) < 2 ^ 32 →
     (patches_emitted st → patches_emitted st')
     ∧ ∀ a, settled a st → a ∉ X →
            settled a st' ∧ at_ (code (bytecode st')) a = at_ (code (bytecode st)) a).

Definition good {A} (X : list Z) (m : C A) : Prop :=
  ∀ st r st', m st = Ok (r, st') → keeps X st st'.

(** The step only appends code and leaves the loop stack alone. *)
Definition quiet {A} (m : C A) : Prop :=
  ∀ st r st', m st = Ok (r, st') →
    loopStack st' = loopStack st
    ∧ ∃ extra, code (bytecode st') = code (bytecode st) ++ extra.
(** A [JMP_IFNOT] that still carries the placeholder operand and waits in
    no patch list. *)
Definition unpatched_jump (a : Z) (st : State) : Prop :=
  settled a st
  ∧ at_ (code (bytecode st)) a = Some (mkInstruction OP_JMP_IFNOT 0xFFFFFFFF).

(** The step emits such a jump: it is there when the step returns, unless
    the code outgrew 32 bits. The addresses in [X], which later steps may
    patch, are older than the step. *)
Definition leaves_unpatched {A} (X : list Z) (m : C A) : Prop :=
  good X m
  ∧ ∀ st r st', m st = Ok (r, st') →
      patches_emitted st →
      len (code (bytecode st')) < 2 ^ 32 →
      (∀ x, x ∈ X → x < len (code (bytecode st))) →
      ∃ a, len (code (bytecode st)) <= a ∧ unpatched_jump a st'.

(** The statement holds a [for] loop with a condition. *)
Fixpoint has_for (s : Stmt) : bool :=
  match s with
  | ForStmt initializer condition _ body =>
      negb (is_null_expr condition) || has_for initializer || has_for body
  | BlockStmt statements => existsb has_for statements
  | FunctionStmt _ _ body => existsb has_for body
  | IfStmt _ thenBranch elseBranch => has_for thenBranch || has_for elseBranch
  | WhileStmt _ body => has_for body
  | _ => false
  end.

(** The functions that [compile] compiles, in the order it does: every
    top-level function but [Main], then the first [Main]. *)
Definition compiled_functions (ast : list Stmt) : list Stmt :=
  List.filter (fun s => match s with
                        | FunctionStmt name _ _ => negb (String.eqb name "Main")
                        | _ => false
                        end) ast
  ++ match List.find (fun s => match s with
                                | FunctionStmt name _ _ => String.eqb name "Main"
                                | _ => false
                                end) ast with
     | Some main => [main]
     | None => []
     end.

(** The compiler inside a function that has declared [int a = 1;]: the
    local [a] holds slot 0. *)
Definition example_with_local : State :=
  mkState
    (set_constants [CInt 1]
       (set_code [mkInstruction OP_PUSH 0; mkInstruction OP_STORE 0] emptyBytecode))
    [mkFunctionContext [mkLocalVar "a" 0 false] {[ "a"%string := 0 ]} 1 0 0]
    [] ∅ ∅.

(** The step leaves the stack of contexts alone. *)
Definition keeps_contexts {A} (m : C A) : Prop :=
  ∀ st r st', m st = Ok (r, st') → contextStack st' = contextStack st.

(** Every successful step started in a state that satisfies [I] ends in
    one. *)
Definition preserves {A} (I : State → Prop) (m : C A) : Prop :=
  ∀ st a st', I st → m st = Ok (a, st') → I st'.

(** The opcodes that occur in an [emit] of compiler.cpp outside the two
    branches for global variables, and the other opcodes of bytecode.h. *)
Definition emitted_opcodes : list OpCode :=
  [ OP_PUSH; OP_POP; OP_ADD; OP_SUB; OP_MUL; OP_DIV; OP_MOD;
    OP_EQ; OP_NEQ; OP_LT; OP_LTE; OP_GT; OP_GTE; OP_NOT;
    OP_LOAD; OP_STORE; OP_JMP; OP_JMP_IF; OP_JMP_IFNOT; OP_CALL; OP_RET;
    OP_CALL_NATIVE; OP_NEW_ARRAY; OP_LOAD_INDEX; OP_PRINT; OP_READ; OP_PRINTLN;
    OP_HALT ].

Definition never_emitted : list OpCode :=
  [ OP_DUP; OP_SWAP; OP_NEG; OP_INC; OP_DEC; OP_AND; OP_OR;
    OP_LOAD_GLOBAL; OP_STORE_GLOBAL; OP_STORE_INDEX; OP_ARRAY_LEN ].

(** A string constant refers to an entry of the string table. *)
Definition string_in_range (strs : list string) (c : Constant) : Prop :=
  match c with
  | CString k => 0 <= k < len strs
  | _ => True
  end.

(** What the compiler keeps true of the image it builds. *)
Definition tidy_image (b : BytecodeFile) : Prop :=
  Forall (fun i => opcode i ∈ emitted_opcodes) (code b)
  ∧ magic b = TAIL_MAGIC ∧ version b = 1 ∧ flags b = 0
  ∧ intArrays b = [] ∧ floatArrays b = [] ∧ stringArrays b = []
  ∧ Forall (string_in_range (strings b)) (constants b).

(** The same of a compiler state, whose table of globals is empty. *)
Definition tidy (st : State) : Prop :=
  globalMap st = ∅ ∧ tidy_image (bytecode st).

(** The syntax tree of [fn Main(){ Console.println(text); }]. *)
Definition hello (text : string) : list Stmt :=
  [FunctionStmt "Main" []
     [ExprStmt (CallExpr "Console" "println" [LiteralExpr (Ast.STRING text)] true)]].

End Compiler.

(** * tailc.cpp: [main], from the command line to the written image

    The compiler driver, with what it reads from the host as a parameter:
    the file system (which paths exist, what a file holds, whether the output
    can be opened) is a [FileSystem] that does not change during the run.
    What [main] prints on [std::cout] is not modelled; what it prints on
    [std::cerr] before it returns 1 is the [Failure]. *)

Module Pipeline.
Import Ast.

(** ** Paths and lines *)

(** [s.find_last_not_of(c)]. *)
Definition find_last_not_of (c : ascii) (s : string) : option nat :=
  let cs := list_ascii_of_string s in
  let hits := List.filter (fun i => match cs !! i with
                                    | Some d => negb (Ascii.eqb d c)
                                    | None => false
                                    end) (seq 0 (length cs)) in
  last hits.

(** [std::filesystem::path(p).filename()] for a POSIX path: what follows the
    last separator. *)
Definition path_filename (p : string) : string :=
  match find_last_of ["/"%char] p with
  | Some slash => String.substring (S slash) (String.length p) p
  | None => p
  end.

(** [std::filesystem::path(p).parent_path()] for a POSIX path: the path up
    to the end of the component before the last one; the root directory when
    only separators come before the last component; the path itself when it
    holds nothing but separators. *)
Definition path_parent (p : string) : string :=
  match find_last_of ["/"%char] p with
  | None => ""
  | Some slash =>
      match find_last_not_of "/" (String.substring 0 (S slash) p) with
      | Some k => String.substring 0 (S k) p
      | None => if (S slash =? String.length p)%nat then p else "/"
      end
  end.

(** [endsWith]. *)
Definition endsWith (str suffix : string) : bool :=
  if (String.length str <? String.length suffix)%nat then false
  else String.eqb
         (String.substring (String.length str - String.length suffix)
            (String.length suffix) str)
         suffix.

(** The lines that a loop on [std::getline] sees: the text between
    newlines, and what follows the last newline when it is not empty. *)
Fixpoint getlines (cs line : list ascii) : list string :=
  match cs with
  | [] => match line with
          | [] => []
          | _ :: _ => [string_of_list_ascii line]
          end
  | c :: cs' =>
      if Ascii.eqb c "010" then string_of_list_ascii line :: getlines cs' []
      else getlines cs' (line ++ [c])
  end.

(** [::isspace] in the "C" locale, which [main] never changes: space, tab,
    newline, vertical tab, form feed and carriage return. A byte above 127
    is no space. *)
Definition isspace (c : ascii) : bool :=
  bool_decide (c ∈ [" "; "009"; "010"; "011"; "012"; "013"]%char).

(** The name that a line asks to include, when it asks for one: the text
    between the first ["include "] and the first [';'] of the line, without
    its white space. With the [';'] before the end of ["include "], the
    length [end - start] wraps around as a [size_t] and [substr] takes the
    rest of the line. *)
Definition includeNameOf (line : string) : option string :=
  match String.index 0 "include " line with
  | None => None
  | Some found =>
      let start := (found + 8)%nat in
      match String.index 0 ";" line with
      | None => None
      | Some end_ =>
          let count :=
            if (end_ <? start)%nat then (String.length line - start)%nat
            else (end_ - start)%nat in
          let includeName :=
            string_of_list_ascii
              (List.filter (fun c => negb (isspace c))
                 (list_ascii_of_string (String.substring start count line))) in
          if String.eqb includeName "" then None else Some includeName
      end
  end.

(** ** The host *)

Record FileSystem : Type := mkFileSystem {
  (** [std::filesystem::exists]; [Err what] when it throws a
      [filesystem_error] (a name that is too long, a directory that cannot
      be searched). *)
  exists_ : string → result string bool;
  (** [std::ifstream]: [None] when the stream does not open, else the bytes
      that are read from it. *)
  open_read : string → option string;
  (** Whether [std::ofstream] opens the path. *)
  open_write : string → bool
}.

(** The file system that holds [source] at [path] and is [fs] elsewhere. *)
Definition with_file (path source : string) (fs : FileSystem) : FileSystem :=
  mkFileSystem
    (fun p => if String.eqb p path then Ok true else exists_ fs p)
    (fun p => if String.eqb p path then Some source else open_read fs p)
    (open_write fs).

(** A file system without any file, where every output can be written. *)
Definition empty_disk : FileSystem :=
  mkFileSystem (fun _ => Ok false) (fun _ => None) (fun _ => true).

(** A disk with [src/main.tail], which includes [util], and
    [src/util.tail], which includes itself. *)
Definition example_disk : FileSystem :=
  with_file "src/main.tail" "include util;
fn Main() { Console.println(twice(2)); }"
    (with_file "src/util.tail" "include util; fn twice(int a) { return a + a; }"
       empty_disk).

(** What ends [main] with status 1, by the message on [std::cerr];
    [RecursionBound] is the model's own: the bound on the depth of nested
    includes was reached. *)
Inductive Failure : Type :=
| Usage
| MissingOutputName
| UnknownArgument (arg : string)
| NoInputFiles
| CannotOpen (sourceFile : string)
| LexerErrors (sourceFile : string) (errors : list string)
| ParserErrors (sourceFile : string) (errors : list string)
| NoMain
| CannotWrite (outputFile : string)
| CompilationFailed (what : string)
| RecursionBound.

(** What a successful run leaves: the bytes of [outputFile]. *)
Record Output : Type := mkOutput {
  outputFile : string;
  data : list Z
}.

Definition bind {A B} (m : result Failure A) (k : A → result Failure B)
    : result Failure B :=
  match m with
  | Ok a => k a
  | Err e => Err e
  end.

Local Notation "x <- c1 ;; c2" := (bind c1 (fun x => c2))
  (at level 100, c1 at next level, right associativity).

(** ** The command line *)

(** The loop over [argv[1..]]: [-o] takes the next argument as the output
    name, anything else has to end in [.tail]. *)
Fixpoint parseArguments (args inputFiles : list string) (output : string)
    : result Failure (list string * string) :=
  match args with
  | [] => Ok (inputFiles, output)
  | arg :: args' =>
      if String.eqb arg "-o" then
        match args' with
        | next :: args'' => parseArguments args'' inputFiles next
        | [] => Err MissingOutputName
        end
      else if endsWith arg ".tail" then parseArguments args' (inputFiles ++ [arg]) output
      else Err (UnknownArgument arg)
  end.

(** ** Includes *)

Section Includes.
Variable fs : FileSystem.

(** [findIncludeFile]: the first of five places that exists, or the empty
    string. *)
Definition findIncludeFile (includeName currentDir : string) : result Failure string :=
  let searchPaths :=
    [ includeName +:+ ".tail";
      currentDir +:+ "/" +:+ includeName +:+ ".tail";
      "../include/" +:+ includeName +:+ ".tail";
      "include/" +:+ includeName +:+ ".tail";
      "./include/" +:+ includeName +:+ ".tail" ] in
  (fix go (paths : list string) : result Failure string :=
     match paths with
     | [] => Ok ""
     | path :: paths' =>
         match exists_ fs path with
         | Err what => Err (CompilationFailed what)
         | Ok true => Ok path
         | Ok false => go paths'
         end
     end) searchPaths.

(** The lines of a file, none when it cannot be opened. *)
Definition lines_of (path : string) : list string :=
  match open_read fs path with
  | Some source => getlines (list_ascii_of_string source) []
  | None => []
  end.

(** [allFiles] and [loaded], which the loading functions update. *)
Definition Loading : Type := list string * gset string.

(** The [while (std::getline ...)] loop over the lines of a file, with the
    call that loads an include passed in. *)
Definition scanLines (load : string → Loading → result Failure Loading)
    : list string → Loading → result Failure Loading :=
  fix go (lines : list string) (st : Loading) : result Failure Loading :=
    match lines with
    | [] => Ok st
    | line :: lines' =>
        st' <- match includeNameOf line with
               | Some includeName => load includeName st
               | None => Ok st
               end ;;
        go lines' st'
    end.

(** [loadIncludeRecursive]; [fuel] bounds the depth of the recursion. *)
Fixpoint loadIncludeRecursive (fuel : nat) (includeName currentDir : string)
    (st : Loading) : result Failure Loading :=
  match fuel with
  | O => Err RecursionBound
  | S fuel' =>
      let '(allFiles, loaded) := st in
      if bool_decide (includeName ∈ loaded) then Ok st else
      let loaded := {[includeName]} ∪ loaded in
      foundPath <- findIncludeFile includeName currentDir ;;
      if negb (String.eqb foundPath "") then
        let newDir := path_parent foundPath in
        let newDir := if String.eqb newDir "" then "." else newDir in
        scanLines (fun subInclude => loadIncludeRecursive fuel' subInclude newDir)
          (lines_of foundPath) (allFiles ++ [foundPath], loaded)
      else Ok (allFiles, loaded)
  end.

(** The first loop of [main]: every input file, followed by what it
    includes. *)
Fixpoint collectSources (fuel : nat) (inputFiles : list string) (st : Loading)
    : result Failure Loading :=
  match inputFiles with
  | [] => Ok st
  | inputFile :: inputFiles' =>
      let currentDir := path_parent inputFile in
      let currentDir := if String.eqb currentDir "" then "." else currentDir in
      let '(allSourceFiles, loadedFiles) := st in
      st' <- scanLines (fun includeName => loadIncludeRecursive fuel includeName currentDir)
               (lines_of inputFile)
               (allSourceFiles ++ [inputFile], {[path_filename inputFile]} ∪ loadedFiles) ;;
      collectSources fuel inputFiles' st'
  end.

End Includes.

(** ** Lexing and parsing the files *)

Record FileData : Type := mkFileData {
  path : string;
  ast : list Stmt;
  isMainFile : bool;
  moduleName : string
}.

(** The top-level functions of a file, in order. *)
Definition functionsIn (statements : list Stmt) : list Stmt :=
  List.filter (fun stmt => match stmt with
                           | FunctionStmt _ _ _ => true
                           | _ => false
                           end) statements.

(** [functionsByModule[moduleName]]. *)
Definition functionsOf (functionsByModule : gmap string (list Stmt))
    (moduleName : string) : list Stmt :=
  default [] (functionsByModule !! moduleName).

Section Sources.
Variable stod : string → option Z.
Variable fs : FileSystem.
Variable inputFiles : list string.

(** The second loop of [main]: each file is read, lexed and parsed, and its
    functions are added to those of its module, which is the stem of its
    path. An exception that leaves the parser ends [main] in its [catch]. *)
Fixpoint parseSources (allSourceFiles : list string) (filesData : list FileData)
    (functionsByModule : gmap string (list Stmt))
    : result Failure (list FileData * gmap string (list Stmt)) :=
  match allSourceFiles with
  | [] => Ok (filesData, functionsByModule)
  | sourceFile :: allSourceFiles' =>
      match open_read fs sourceFile with
      | None => Err (CannotOpen sourceFile)
      | Some source =>
          let '(tokens, lexerErrors) := Lexer.tokenize source in
          match lexerErrors with
          | _ :: _ => Err (LexerErrors sourceFile lexerErrors)
          | [] =>
              match Parser.parse tokens stod with
              | (Parser.Throw (Parser.RuntimeError what), _)
              | (Parser.Throw (Parser.OtherError what), _) => Err (CompilationFailed what)
              | (Parser.Return statements, st) =>
                  match Parser.errors st with
                  | _ :: _ => Err (ParserErrors sourceFile (Parser.errors st))
                  | [] =>
                      let moduleName := path_stem sourceFile in
                      let isMainFile := bool_decide (sourceFile ∈ inputFiles) in
                      parseSources allSourceFiles'
                        (filesData ++ [mkFileData sourceFile statements isMainFile moduleName])
                        (<[moduleName :=
                             functionsOf functionsByModule moduleName
                             ++ functionsIn statements]> functionsByModule)
                  end
              end
          end
      end
  end.

End Sources.

(** ** The first pass *)

Import Compiler.

Local Notation "c1 ;;; c2" := (Compiler.bind c1 (fun _ => c2))
  (at level 100, right associativity).

(** The functions of a module other than [Main], compiled under the name
    of the module. *)
Fixpoint compileOthers (moduleName : string) (funcs : list Stmt) : C unit :=
  match funcs with
  | [] => ret tt
  | FunctionStmt name parameters body :: funcs' =>
      (if negb (String.eqb name "Main")
       then compileFunction name parameters body moduleName
       else ret tt) ;;;
      compileOthers moduleName funcs'
  | _ :: funcs' => compileOthers moduleName funcs'
  end.

(** Every function of a module that is called [Main]; the result is
    [hasMain]. *)
Fixpoint compileMains (funcs : list Stmt) (hasMain : bool) : C bool :=
  match funcs with
  | [] => ret hasMain
  | FunctionStmt name parameters body :: funcs' =>
      if String.eqb name "Main"
      then compileFunction name parameters body "" ;;; compileMains funcs' true
      else compileMains funcs' hasMain
  | _ :: funcs' => compileMains funcs' hasMain
  end.

Section FirstPass.
Variable functionsByModule : gmap string (list Stmt).

(** "Compiling include functions" when [mainFiles] is [false], "Compiling
    auxiliary functions" when it is [true]. *)
Fixpoint compileFunctionsOf (mainFiles : bool) (filesData : list FileData) : C unit :=
  match filesData with
  | [] => ret tt
  | file :: filesData' =>
      (if Bool.eqb (isMainFile file) mainFiles
       then compileOthers (moduleName file) (functionsOf functionsByModule (moduleName file))
       else ret tt) ;;;
      compileFunctionsOf mainFiles filesData'
  end.

(** "Compiling Main function". *)
Fixpoint compileMainsOf (filesData : list FileData) (hasMain : bool) : C bool :=
  match filesData with
  | [] => ret hasMain
  | file :: filesData' =>
      Compiler.bind (compileMains (functionsOf functionsByModule (moduleName file)) hasMain)
        (fun hasMain' => compileMainsOf filesData' hasMain')
  end.

(** The three loops that [main] runs on its first [Compiler], whose image
    it drops. *)
Definition firstPass (filesData : list FileData) : C bool :=
  compileFunctionsOf false filesData ;;;
  compileFunctionsOf true filesData ;;;
  compileMainsOf filesData false.

End FirstPass.

(** ** [main] *)

(** What follows the loading of the sources: the first pass, the check for
    a [Main], and the image that a second [Compiler] builds from the
    statements of all files. *)
Definition generate (filesData : list FileData)
    (functionsByModule : gmap string (list Stmt)) : result Failure TVM.BytecodeFile :=
  match firstPass functionsByModule filesData newCompiler with
  | Err what => Err (CompilationFailed what)
  | Ok (hasMain, _) =>
      if negb hasMain then Err NoMain else
      match Compiler.compile (concat (List.map ast filesData)) with
      | Ok bytecode => Ok bytecode
      | Err what => Err (CompilationFailed what)
      end
  end.

(** The image that [main] builds for the arguments [args] ([argv] without
    the name of the program), and the name of the file it is to be written
    to. [stod] is [std::stod]. *)
Definition tailc (stod : string → option Z) (fs : FileSystem) (fuel : nat)
    (args : list string) : result Failure (string * TVM.BytecodeFile) :=
  match args with
  | [] => Err Usage
  | _ :: _ =>
      parsed <- parseArguments args [] "" ;;
      let '(inputFiles, output) := parsed in
      match inputFiles with
      | [] => Err NoInputFiles
      | first :: _ =>
          let output :=
            if String.eqb output "" then path_stem first +:+ ".tailc" else output in
          collected <- collectSources fs fuel inputFiles ([], ∅) ;;
          let '(allSourceFiles, _) := collected in
          sources <- parseSources stod fs inputFiles allSourceFiles [] ∅ ;;
          let '(filesData, functionsByModule) := sources in
          bytecode <- generate filesData functionsByModule ;;
          Ok (output, bytecode)
      end
  end.

(** [main]: the image is serialized and written. *)
Definition main (stod : string → option Z) (fs : FileSystem) (fuel : nat)
    (args : list string) : result Failure Output :=
  built <- tailc stod fs fuel args ;;
  let '(output, bytecode) := built in
  if open_write fs output then Ok (mkOutput output (TVM.serialize bytecode))
  else Err (CannotWrite output).

End Pipeline.

(** * vm.cpp: the remaining opcodes, the native functions and the run loop

    The machine of [VM] together with what it talks to: the console (the
    text written to [std::cout], the lines still to be read from
    [std::cin]), the trace flag and the static seed of [Random.int]. What
    the host decides (the result of [system], the environment, the
    conversions of [<string>]) is a parameter. The state dump that
    [execute] prints before it rethrows an exception is not modelled: a
    thrown exception is the error result with its message. *)

Module VMExec.
Import TVM VM.

(** The operations of [double] that the opcodes of this part use, on bit
    patterns, left abstract as in [FloatOps]. *)
Record FloatCmp : Type := mkFloatCmp {
  fneg : Z → Z;
  flt : Z → Z → bool;
  fle : Z → Z → bool;
  fgt : Z → Z → bool;
  fge : Z → Z → bool
}.

(** The bits of [1.0]. *)
Definition float_one : Z := 0x3FF0000000000000.

Record Host : Type := mkHost {
  host_system : string → Z;             (* [system(cmd)] *)
  host_platform : string;               (* fixed when the machine is built *)
  host_getenv : string → option string; (* [std::getenv], [None] for a null pointer *)
  host_stoll : string → option Z;       (* [std::stoll], [None] when it throws *)
  host_stod : string → option Z         (* [std::stod], [None] when it throws *)
}.

Record Machine : Type := mkMachine {
  vm : State;
  trace : bool;
  cout : string;        (* everything written so far *)
  cin : list string;    (* the lines not yet read *)
  seed : Z              (* [static int seed] of [Random.int] *)
}.

Definition set_vm (s : State) (m : Machine) : Machine :=
  mkMachine s (trace m) (cout m) (cin m) (seed m).

Definition M (A : Type) : Type := Machine → result string (A * Machine).

Definition mret {A} (a : A) : M A := fun m => Ok (a, m).

Definition mbind {A B} (c : M A) (k : A → M B) : M B :=
  fun m => match c m with
           | Ok (a, m') => k a m'
           | Err e => Err e
           end.

Local Notation "x <- c1 ;; c2" := (mbind c1 (fun x => c2))
  (at level 100, c1 at next level, right associativity).
Local Notation "c1 ;;; c2" := (mbind c1 (fun _ => c2))
  (at level 100, right associativity).

(** An operation of the machine proper, run inside the larger state. *)
Definition lift {A} (op : Op A) : M A :=
  fun m => match op (vm m) with
           | Ok (a, s) => Ok (a, set_vm s m)
           | Err e => Err e
           end.

Definition mget : M Machine := fun m => Ok (m, m).

(** [std::cout << text] *)
Definition write (text : string) : M unit :=
  fun m => Ok (tt, mkMachine (vm m) (trace m) (cout m +:+ text) (cin m) (seed m)).

(** [std::endl] *)
Definition endl : string := String (ascii_of_nat 10) "".

(** [std::getline(std::cin, input)]: at the end of the input the string
    stays empty. *)
Definition getline : M string :=
  fun m => match cin m with
           | line :: rest => Ok (line, mkMachine (vm m) (trace m) (cout m) rest (seed m))
           | [] => Ok (""%string, m)
           end.

(** ** Values *)

(** [Value::isTruthy] *)
Definition isTruthy (v : Value) : bool :=
  match v with
  | VNil => false
  | VInt i => negb (i =? 0)
  | VFloat f => negb (float_is_zero f)
  | VBool b => b
  | _ => true
  end.

(** The value that [OP_PUSH] builds from a constant: the same tag and the
    member of the union the tag selects. *)
Definition value_of_constant (cst : Constant) : Value :=
  match cst with
  | CNil => VNil
  | CInt v => VInt v
  | CFloat v => VFloat v
  | CBool b => VBool b
  | CString i => VString i
  | CArrayInt i => VArrayInt i
  | CArrayFloat i => VArrayFloat i
  | CArrayString i => VArrayString i
  | COther t => VOther t
  end.

Definition getConstant (index : Z) : Op Constant :=
  bind get (fun st =>
  if len (constants (program st)) <=? index
  then runtimeError "Constant index out of bounds"
  else match at_ (constants (program st)) index with
       | Some cst => ret cst
       | None => undefined_access
       end).

(** ** Stack opcodes *)

Definition opPush (index : Z) : Op unit :=
  bind (getConstant index) (fun cst => push (value_of_constant cst)).

Definition opDup : Op unit := bind (peek 0) push.

Definition opSwap : Op unit :=
  bind pop (fun a => bind pop (fun b => bind (push a) (fun _ => push b))).

(** ** Arithmetic on one operand. [Value &a = peek()] is the top of the
    stack itself. *)

Definition opNeg (C : FloatCmp) : Op unit :=
  bind pop (fun a =>
  match a with
  | VInt x => push (VInt (s64 (- x)))
  | VFloat x => push (VFloat (fneg C x))
  | _ => runtimeError "Invalid type for negation"
  end).

Definition set_top (v : Value) : Op unit :=
  modify (fun st => set_stack (v :: tail (stack st)) st).

Definition opInc (F : FloatOps) : Op unit :=
  bind (peek 0) (fun a =>
  match a with
  | VInt x => set_top (VInt (s64 (x + 1)))
  | VFloat x => set_top (VFloat (fadd F x float_one))
  | _ => runtimeError "Invalid type for increment"
  end).

Definition opDec (F : FloatOps) : Op unit :=
  bind (peek 0) (fun a =>
  match a with
  | VInt x => set_top (VInt (s64 (x - 1)))
  | VFloat x => set_top (VFloat (fsub F x float_one))
  | _ => runtimeError "Invalid type for decrement"
  end).

(** ** Comparisons *)

(** [a.toString(program) == b.toString(program)] *)
Definition same_text (F : FloatOps) (prog : BytecodeFile) (a b : Value) : bool :=
  String.eqb (toString F prog a) (toString F prog b).

Definition opEq (F : FloatOps) : Op unit :=
  bind pop (fun b => bind pop (fun a => bind get (fun st =>
  push (VBool (same_text F (program st) a b))))).

Definition opNeq (F : FloatOps) : Op unit :=
  bind pop (fun b => bind pop (fun a => bind get (fun st =>
  push (VBool (negb (same_text F (program st) a b)))))).

(** The four ordering opcodes differ in the comparison only. *)
Definition opCompare (onInt onFloat : Z → Z → bool) : Op unit :=
  bind pop (fun b => bind pop (fun a =>
  match a, b with
  | VInt x, VInt y => push (VBool (onInt x y))
  | VFloat x, VFloat y => push (VBool (onFloat x y))
  | _, _ => runtimeError "Invalid types for comparison"
  end)).

Definition opLt (C : FloatCmp) : Op unit := opCompare Z.ltb (flt C).
Definition opLte (C : FloatCmp) : Op unit := opCompare Z.leb (fle C).
Definition opGt (C : FloatCmp) : Op unit := opCompare Z.gtb (fgt C).
Definition opGte (C : FloatCmp) : Op unit := opCompare Z.geb (fge C).

(** ** Logic. [&&] and [||] work on two values already popped. *)

Definition opAnd : Op unit :=
  bind pop (fun b => bind pop (fun a => push (VBool (isTruthy a && isTruthy b)))).

Definition opOr : Op unit :=
  bind pop (fun b => bind pop (fun a => push (VBool (isTruthy a || isTruthy b)))).

Definition opNot : Op unit :=
  bind pop (fun a => push (VBool (negb (isTruthy a)))).

(** ** Control flow *)

Definition opJmp (address : Z) : Op unit :=
  bind get (fun st =>
  if len (code (program st)) <=? address
  then runtimeError "Jump address out of bounds"
  else modify (set_pc address)).

Definition opJmpIf (address : Z) : Op unit :=
  bind pop (fun cond => if isTruthy cond then opJmp address else ret tt).

Definition opJmpIfNot (address : Z) : Op unit :=
  bind pop (fun cond => if negb (isTruthy cond) then opJmp address else ret tt).

Definition opHalt : Op unit := modify (set_running false).

(** ** Arrays, which the machine only pretends to have *)

Definition opNewArray (constIndex : Z) : Op unit := push VNil.

Definition is_int (v : Value) : bool :=
  match v with VInt _ => true | _ => false end.

Definition opLoadIndex : Op unit :=
  bind pop (fun index => bind pop (fun array =>
  if negb (is_int index) then runtimeError "Array index must be integer"
  else push VNil)).

Definition opStoreIndex : Op unit :=
  bind pop (fun value => bind pop (fun index => bind pop (fun array =>
  if negb (is_int index) then runtimeError "Array index must be integer"
  else push value))).

Definition opArrayLen : Op unit := bind pop (fun array => push (VInt 0)).

(** ** Console opcodes *)

Definition text_of (F : FloatOps) (v : Value) : M string :=
  m <- mget ;; mret (toString F (program (vm m)) v).

Definition opPrint (F : FloatOps) : M unit :=
  val <- lift pop ;; text <- text_of F val ;; write text.

Definition opPrintln (F : FloatOps) : M unit :=
  val <- lift pop ;; text <- text_of F val ;; write (text +:+ endl).

(** A string made at run time is appended to the string table of the
    program and referred to by its index. *)
Definition pushString (s : string) : M unit :=
  idx <- lift (appendString s) ;; lift (push (VString idx)).

Definition opRead : M unit :=
  input <- getline ;; pushString input.

(** ** Native functions *)

(** [seed = (seed * 1103515245 + 12345) & 0x7fffffff; push(seed % 100)]:
    the mask keeps the low 31 bits, which a wrapped product and the exact
    one share. *)
Definition nativeRandomInt : M unit :=
  fun m =>
    let next := Z.land (seed m * 1103515245 + 12345) 0x7fffffff in
    lift (push (VInt (next mod 100)))
      (mkMachine (vm m) (trace m) (cout m) (cin m) next).

(** [nativeFuncs], filled by [initNativeFunctions]. *)
Definition nativeFuncs (F : FloatOps) (H : Host) : gmap string (M unit) :=
  list_to_map
    [ ("Console.println"%string,
        val <- lift pop ;; text <- text_of F val ;; write (text +:+ endl) ;;;
        lift (push VNil));
      ("Console.print"%string,
        val <- lift pop ;; text <- text_of F val ;; write text ;;;
        lift (push VNil));
      ("System.command"%string,
        cmd <- lift pop ;; text <- text_of F cmd ;;
        lift (push (VInt (host_system H text))));
      (* [system("clear")] changes nothing the machine sees *)
      ("System.clear"%string, lift (push VNil));
      ("System.pause"%string,
        msg <- lift pop ;;
        (match msg with
         | VNil => write "Press Enter to continue..."
         | _ => text <- text_of F msg ;; write text
         end) ;;;
        getline ;;; lift (push VNil));
      ("System.platform"%string, pushString (host_platform H));
      ("System.env"%string,
        varName <- lift pop ;; text <- text_of F varName ;;
        match host_getenv H text with
        | Some value => pushString value
        | None => lift (push VNil)
        end);
      ("IO.input"%string,
        prompt <- lift pop ;;
        (match prompt with
         | VNil => mret tt
         | _ => text <- text_of F prompt ;; write text
         end) ;;;
        input <- getline ;; pushString input);
      ("IO.toInt"%string,
        strVal <- lift pop ;; text <- text_of F strVal ;;
        match host_stoll H text with
        | Some value => lift (push (VInt value))
        | None => lift (runtimeError "Failed to convert string to int")
        end);
      ("IO.toFloat"%string,
        strVal <- lift pop ;; text <- text_of F strVal ;;
        match host_stod H text with
        | Some value => lift (push (VFloat value))
        | None => lift (runtimeError "Failed to convert string to float")
        end);
      ("Str.array"%string, lift (push VNil));
      ("Str.length"%string, lift pop ;;; lift (push (VInt 0)));
      ("Random.int"%string, nativeRandomInt) ].

Definition callNative (F : FloatOps) (H : Host) (nativeIndex : Z) : M unit :=
  m <- mget ;;
  let imports := nativeImports (program (vm m)) in
  if len imports <=? nativeIndex
  then lift (runtimeError "Native import index out of bounds")
  else match at_ imports nativeIndex with
       | None => lift undefined_access
       | Some name =>
           match nativeFuncs F H !! name with
           | None => lift (runtimeError ("Native function not implemented: " +:+ name))
           | Some native => native
           end
       end.

(** ** One instruction *)

Definition executeInstruction (F : FloatOps) (C : FloatCmp) (H : Host)
    (instr : Instruction) : M unit :=
  let op := opcode instr in
  if op =? OP_PUSH then lift (opPush (operand instr))
  else if op =? OP_POP then lift (bind pop (fun _ => ret tt))
  else if op =? OP_DUP then lift opDup
  else if op =? OP_SWAP then lift opSwap
  else if op =? OP_ADD then lift (opAdd F)
  else if op =? OP_SUB then lift (opSub F)
  else if op =? OP_MUL then lift (opMul F)
  else if op =? OP_DIV then lift (opDiv F)
  else if op =? OP_MOD then lift opMod
  else if op =? OP_NEG then lift (opNeg C)
  else if op =? OP_INC then lift (opInc F)
  else if op =? OP_DEC then lift (opDec F)
  else if op =? OP_EQ then lift (opEq F)
  else if op =? OP_NEQ then lift (opNeq F)
  else if op =? OP_LT then lift (opLt C)
  else if op =? OP_LTE then lift (opLte C)
  else if op =? OP_GT then lift (opGt C)
  else if op =? OP_GTE then lift (opGte C)
  else if op =? OP_AND then lift opAnd
  else if op =? OP_OR then lift opOr
  else if op =? OP_NOT then lift opNot
  else if op =? OP_LOAD then lift (opLoad (operand instr))
  else if op =? OP_STORE then lift (opStore (operand instr))
  else if op =? OP_LOAD_GLOBAL then lift (opLoadGlobal (operand instr))
  else if op =? OP_STORE_GLOBAL then lift (opStoreGlobal (operand instr))
  else if op =? OP_JMP then lift (opJmp (operand instr))
  else if op =? OP_JMP_IF then lift (opJmpIf (operand instr))
  else if op =? OP_JMP_IFNOT then lift (opJmpIfNot (operand instr))
  else if op =? OP_CALL then lift (callFunction (operand instr))
  else if op =? OP_RET then lift returnFromFunction
  else if op =? OP_CALL_NATIVE then callNative F H (operand instr)
  else if op =? OP_NEW_ARRAY then lift (opNewArray (operand instr))
  else if op =? OP_LOAD_INDEX then lift opLoadIndex
  else if op =? OP_STORE_INDEX then lift opStoreIndex
  else if op =? OP_ARRAY_LEN then lift opArrayLen
  else if op =? OP_PRINT then opPrint F
  else if op =? OP_READ then opRead
  else if op =? OP_PRINTLN then opPrintln F
  else if op =? OP_HALT then lift opHalt
  else lift (runtimeError ("Unknown opcode: " +:+ pretty op)).

(** ** Tracing *)

(** [std::setw(4)] before a number: spaces on the left up to four
    characters. *)
Definition setw4 (s : string) : string :=
  string_of_list_ascii (replicate (4 - String.length s) " "%char) +:+ s.

Definition traceInstruction (instr : Instruction) : M unit :=
  m <- mget ;;
  write ("PC=" +:+ setw4 (pretty (pc (vm m))) +:+ ": ") ;;;
  let op := opcode instr in
  (if op =? OP_PUSH then lift (opPush (operand instr))
   else if op =? OP_POP then write "POP"
   else if op =? OP_ADD then write "ADD"
   else if op =? OP_SUB then write "SUB"
   else if op =? OP_MUL then write "MUL"
   else if op =? OP_DIV then write "DIV"
   else if op =? OP_MOD then write "MOD"
   else if op =? OP_LOAD then write ("LOAD " +:+ pretty (operand instr))
   else if op =? OP_STORE then write ("STORE " +:+ pretty (operand instr))
   else if op =? OP_JMP then write ("JMP " +:+ pretty (operand instr))
   else if op =? OP_JMP_IF then write ("JMP_IF " +:+ pretty (operand instr))
   else if op =? OP_JMP_IFNOT then write ("JMP_IFNOT " +:+ pretty (operand instr))
   else if op =? OP_CALL then write ("CALL " +:+ pretty (operand instr))
   else if op =? OP_RET then write "RET"
   else if op =? OP_CALL_NATIVE then write ("CALL_NATIVE " +:+ pretty (operand instr))
   else if op =? OP_PRINT then write "PRINT"
   else if op =? OP_PRINTLN then write "PRINTLN"
   else if op =? OP_HALT then write "HALT"
   else write ("UNKNOWN(" +:+ pretty op +:+ ")")) ;;;
  write endl.

(** The stack is printed from the bottom to the top. *)
Definition traceStack (F : FloatOps) : M unit :=
  m <- mget ;;
  let st := vm m in
  write ("  Stack [" +:+ pretty (len (stack st)) +:+ "]: "
         +:+ String.concat ""
               ((fun v => toString F (program st) v +:+ " ") <$> rev (stack st))
         +:+ endl).

(** ** The run loop *)

(** The opcodes after which the loop leaves [pc] alone. *)
Definition sets_pc (op : OpCode) : bool :=
  (op =? OP_JMP) || (op =? OP_JMP_IF) || (op =? OP_JMP_IFNOT)
  || (op =? OP_CALL) || (op =? OP_RET).

(** The loop condition [running && pc < program->code.size()]. *)
Definition continues (m : Machine) : bool :=
  running (vm m) && (pc (vm m) <? len (code (program (vm m)))).

(** The body of the loop, for a machine on which the condition holds. *)
Definition step (F : FloatOps) (C : FloatCmp) (H : Host) : M unit :=
  m <- mget ;;
  match at_ (code (program (vm m))) (pc (vm m)) with
  | None => lift undefined_access
  | Some instr =>
      (if trace m then traceInstruction instr ;;; traceStack F else mret tt) ;;;
      executeInstruction F C H instr ;;;
      if sets_pc (opcode instr) then mret tt
      else lift (modify (fun st => set_pc (u32 (pc st + 1)) st))
  end.

(** How a run can end within a bound on the number of rounds. *)
Inductive Outcome : Type :=
| Finished (m : Machine)       (* the loop condition became false *)
| Thrown (what : string)       (* an exception left [execute] *)
| StillRunning (m : Machine).  (* the bound was reached *)

Fixpoint run (F : FloatOps) (C : FloatCmp) (H : Host) (rounds : nat) (m : Machine)
    : Outcome :=
  if continues m then
    match rounds with
    | O => StillRunning m
    | S rounds' =>
        match step F C H m with
        | Ok (_, m') => run F C H rounds' m'
        | Err what => Thrown what
        end
    end
  else Finished m.

(** [execute] up to the loop: the machine is reset, [Main] is looked up,
    its frame is pushed and its locals are made. *)
Definition boot (bytecode : BytecodeFile) (m : Machine) : result string Machine :=
  match list_find (fun f => name f = "Main"%string) (functions bytecode) with
  | None => Err "Main function not found"%string
  | Some (_, mainFunc) =>
      Ok (set_vm
            (mkState bytecode true (address mainFunc) [] []
               (replicate (Z.to_nat (locals mainFunc)) VNil)
               [mkCallFrame UINT32_MAX 0 0 mainFunc])
            m)
  end.

Definition execute (F : FloatOps) (C : FloatCmp) (H : Host) (rounds : nat)
    (bytecode : BytecodeFile) (m : Machine) : Outcome :=
  match boot bytecode m with
  | Err what => Thrown what
  | Ok m' => run F C H rounds m'
  end.

(** ** Vocabulary of the properties *)

(** The opcodes that take two operands from the stack. *)
Definition binary_opcodes : list OpCode :=
  [ OP_SWAP; OP_ADD; OP_SUB; OP_MUL; OP_DIV; OP_MOD; OP_EQ; OP_NEQ;
    OP_LT; OP_LTE; OP_GT; OP_GTE; OP_AND; OP_OR; OP_LOAD_INDEX ].

(** Every opcode [executeInstruction] has a case for. *)
Definition known_opcodes : list OpCode :=
  [ OP_PUSH; OP_POP; OP_DUP; OP_SWAP; OP_ADD; OP_SUB; OP_MUL; OP_DIV; OP_MOD;
    OP_NEG; OP_INC; OP_DEC; OP_EQ; OP_NEQ; OP_LT; OP_LTE; OP_GT; OP_GTE;
    OP_AND; OP_OR; OP_NOT; OP_LOAD; OP_STORE; OP_LOAD_GLOBAL; OP_STORE_GLOBAL;
    OP_JMP; OP_JMP_IF; OP_JMP_IFNOT; OP_CALL; OP_RET; OP_CALL_NATIVE;
    OP_NEW_ARRAY; OP_LOAD_INDEX; OP_STORE_INDEX; OP_ARRAY_LEN;
    OP_PRINT; OP_READ; OP_PRINTLN; OP_HALT ].

(** The classes that the parser takes for native and the machine has no
    function of. *)
Definition unimplemented_classes : list string :=
  [ "Math"; "String"; "Array"; "File" ]%string.

(** An image that imports [Random.int]. *)
Definition example_random : BytecodeFile :=
  mkBytecodeFile TAIL_MAGIC 1 0
    [ mkInstruction OP_CALL_NATIVE 0; mkInstruction OP_HALT 0 ]
    [] [] [] [] [] [ mkFunctionInfo "Main" 0 0 0 ] [ "Random.int"%string ].

(** The image with another code section. *)
Definition set_code_of (img : BytecodeFile) (cd : list Instruction) : BytecodeFile :=
  mkBytecodeFile (magic img) (version img) (flags img) cd (constants img) (strings img)
    (intArrays img) (floatArrays img) (stringArrays img) (functions img)
    (nativeImports img).

(** The names [initNativeFunctions] registers. *)
Definition native_names : list string :=
  [ "Console.println"; "Console.print"; "System.command"; "System.clear";
    "System.pause"; "System.platform"; "System.env"; "IO.input"; "IO.toInt";
    "IO.toFloat"; "Str.array"; "Str.length"; "Random.int" ]%string.

(** The vector of globals after [globals.resize(index + 1)], when the
    slot is outside. *)
Definition grown (index : Z) (g : list Value) : list Value :=
  if len g <=? index then resize (Z.to_nat (u32 (index + 1))) VNil g else g.

(** A machine as [main] of tail.cpp builds it when [TAIL_TRACE] is not
    set, standing in state [st]: tracing off, nothing written, no input
    left, the seed as initialised. *)
Definition machine_of (st : State) : Machine := mkMachine st false "" [] 12345.

(** The image of [fn Main(){ int i = 0; while (i < 3) { Console.print(i); } }]
    and the machine in [Main] about to execute the [JMP_IFNOT 9] of the
    loop for the first time: the test [i < 3] has left [true] on top of
    the 0 that [STORE] did not pop. *)
Definition example_loop : BytecodeFile :=
  mkBytecodeFile TAIL_MAGIC 1 0
    [ mkInstruction OP_PUSH 0; mkInstruction OP_STORE 0;
      mkInstruction OP_LOAD 0; mkInstruction OP_PUSH 1; mkInstruction OP_LT 0;
      mkInstruction OP_JMP_IFNOT 9;
      mkInstruction OP_LOAD 0; mkInstruction OP_PRINT 0; mkInstruction OP_JMP 2;
      mkInstruction OP_PUSH 2; mkInstruction OP_RET 0; mkInstruction OP_HALT 0 ]
    [ CInt 0; CInt 3; CNil ] [] [] [] []
    [ mkFunctionInfo "Main" 0 0 1 ] [].

Definition example_at_test : Machine :=
  machine_of
    (mkState example_loop true 5 [VBool true; VInt 0] [] [VInt 0]
       [mkCallFrame UINT32_MAX 0 0 (mkFunctionInfo "Main" 0 0 1)]).

End VMExec.

(** * Facts about the shared vocabulary *)

Module BasicFacts.

Lemma len_app {A} (l1 l2 : list A) : len (l1 ++ l2) = len l1 + len l2.
Proof. unfold len. rewrite length_app. lia. Qed.

Lemma len_nonneg {A} (l : list A) : 0 <= len l.
Proof. unfold len. lia. Qed.

Lemma u32_small (z : Z) : 0 <= z < 2 ^ 32 → u32 z = z.
Proof. intros H. unfold u32. apply Z.mod_small. exact H. Qed.

Lemma at_lookup {A} (l : list A) (i : Z) :
  0 <= i → at_ l i = l !! Z.to_nat i.
Proof. intros H. unfold at_. destruct (Z.ltb_spec i 0); [lia | reflexivity]. Qed.

Lemma at_update {A} (l : list A) (i : Z) (x : A) :
  0 <= i < len l → at_ (<[Z.to_nat i := x]> l) i = Some x.
Proof.
  unfold len. intros H. rewrite at_lookup by lia.
  apply list_lookup_insert_eq. lia.
Qed.

End BasicFacts.
(** * Properties of the image codec *)

Module TVMFacts.
Import TVM BasicFacts.

Lemma land_byte (x : Z) : Z.land x 0xFF = x mod 2 ^ 8.
Proof. change 0xFF with (Z.ones 8). apply Z.land_ones. lia. Qed.

Lemma lor_shiftl_add (a b k : Z) :
  0 <= k → 0 <= a < 2 ^ k → Z.lor a (Z.shiftl b k) = a + b * 2 ^ k.
Proof.
  intros Hk Ha. rewrite Z.shiftl_mul_pow2 by lia.
  symmetry. apply Z.add_nocarry_lor.
  apply Z.bits_inj'. intros n Hn. rewrite Z.land_spec, Z.bits_0.
  destruct (Z.lt_ge_cases n k) as [Hlt | Hge].
  - rewrite (Z.mul_pow2_bits_low b k n) by lia. apply andb_false_r.
  - rewrite <- (Z.mod_small a (2 ^ k)) by lia.
    rewrite Z.mod_pow2_bits_high by lia. reflexivity.
Qed.

Lemma bind_ok {A B} (r : Reader A) (k : A → Reader B) d a d' :
  r d = Ok (a, d') → bind r k d = k a d'.
Proof. unfold bind. intros ->. reflexivity. Qed.

Lemma need_ok (n : Z) (d : list Z) : n <= len d → need n d = Ok (tt, d).
Proof. unfold need. intros H. destruct (Z.ltb_spec (len d) n); [lia | reflexivity]. Qed.

Lemma readUint32_write (v : Z) (rest : list Z) :
  0 <= v < 2 ^ 32 → readUint32 (writeUint32 v ++ rest) = Ok (v, rest).
Proof.
  intros Hv. unfold readUint32, writeUint32, bind, ret. simpl.
  do 2 f_equal. rewrite !land_byte, !Z.shiftr_div_pow2 by lia.
  change (2^8) with 256. change (2^16) with 65536. change (2^24) with 16777216.
  assert (H0 := Z.mod_pos_bound v 256 eq_refl).
  assert (H1 := Z.mod_pos_bound (v / 256) 256 eq_refl).
  assert (H2 := Z.mod_pos_bound (v / 65536) 256 eq_refl).
  assert (H3 := Z.mod_pos_bound (v / 16777216) 256 eq_refl).
  rewrite (lor_shiftl_add _ _ 8) by (change (2^8) with 256; lia).
  rewrite (lor_shiftl_add _ _ 16) by (change (2^8) with 256; change (2^16) with 65536; lia).
  rewrite (lor_shiftl_add _ _ 24) by (change (2^8) with 256; change (2^16) with 65536; change (2^24) with 16777216; lia).
  unfold u32. change (2^8) with 256. change (2^16) with 65536. change (2^24) with 16777216.
  change (2^32) with 4294967296 in *. 
  Z.to_euclidean_division_equations. lia.
Qed.

Lemma readUint16_write (v : Z) (rest : list Z) :
  0 <= v < 2 ^ 16 → readUint16 (writeUint16 v ++ rest) = Ok (v, rest).
Proof.
  intros Hv. unfold readUint16, writeUint16, bind, ret. simpl.
  do 2 f_equal. rewrite !land_byte, !Z.shiftr_div_pow2 by lia.
  change (2^8) with 256 in *. change (2^16) with 65536 in *.
  assert (H0 := Z.mod_pos_bound v 256 eq_refl).
  rewrite (lor_shiftl_add _ _ 8) by (change (2^8) with 256; lia).
  unfold u16. change (2^8) with 256. change (2^16) with 65536.
  Z.to_euclidean_division_equations. lia.
Qed.

Lemma le_byte_range v i : 0 <= i → 0 <= le_byte v i < 2 ^ 8.
Proof.
  intros Hi. unfold le_byte. rewrite land_byte. apply Z.mod_pos_bound. lia.
Qed.

Lemma readInt64_loop_spec (n : nat) : ∀ (i v : Z) (rest : list Z),
  0 <= i →
  readInt64_loop n i (v mod 2 ^ (8 * i)) ((le_byte v <$> seqZ i (Z.of_nat n)) ++ rest)
  = Ok (v mod 2 ^ (8 * (i + Z.of_nat n)), rest).
Proof.
  induction n as [| n IH]; intros i v rest Hi.
  - replace (i + Z.of_nat 0) with i by lia. reflexivity.
  - rewrite seqZ_cons by lia. rewrite fmap_cons. simpl app.
    cbn [readInt64_loop]. unfold bind at 1. cbn [readByte].
    replace (Z.pred (Z.of_nat (S n))) with (Z.of_nat n) by lia.
    replace (Z.lor (v mod 2 ^ (8 * i)) (Z.shiftl (le_byte v i) (i * 8)))
      with (v mod 2 ^ (8 * (i + 1))).
    + replace (Z.succ i) with (i + 1) by lia. rewrite IH by lia.
      replace (i + 1 + Z.of_nat n) with (i + Z.of_nat (S n)) by lia. reflexivity.
    + rewrite lor_shiftl_add.
      * unfold le_byte. rewrite land_byte, Z.shiftr_div_pow2 by lia.
        replace (8 * (i + 1)) with (8 * i + 8) by lia.
        rewrite Z.pow_add_r by lia.
        replace (i * 8) with (8 * i) by lia.
        rewrite Z.rem_mul_r by lia. lia.
      * lia.
      * replace (i * 8) with (8 * i) by lia. apply Z.mod_pos_bound. lia.
Qed.

Lemma readInt64_loop_bytes (v : Z) (rest : list Z) :
  readInt64_loop 8 0 0 (((fun i => Z.land (Z.shiftr v (i * 8)) 0xFF) <$> seqZ 0 8) ++ rest)
  = Ok (u64 v, rest).
Proof.
  pose proof (readInt64_loop_spec 8 0 v rest) as H.
  change (8 * 0) with 0 in H. rewrite Z.pow_0_r, Z.mod_1_r in H.
  apply H. lia.
Qed.

Lemma readInt64_write (v : Z) (rest : list Z) :
  - 2 ^ 63 <= v < 2 ^ 63 → readInt64 (writeInt64 v ++ rest) = Ok (v, rest).
Proof.
  intros Hv. unfold readInt64, writeInt64.
  rewrite (bind_ok _ _ _ _ _ (readInt64_loop_bytes v rest)).
  unfold ret. do 2 f_equal. unfold s64, u64.
  rewrite Z.mod_mod by lia.
  change (2^63) with 9223372036854775808 in *.
  change (2^64) with 18446744073709551616 in *.
  destruct (Z.ltb_spec (v mod 18446744073709551616) 9223372036854775808);
    Z.to_euclidean_division_equations; lia.
Qed.

Lemma readDouble_write (v : Z) (rest : list Z) :
  0 <= v < 2 ^ 64 → readDouble (writeDouble v ++ rest) = Ok (v, rest).
Proof.
  intros Hv. unfold readDouble, writeDouble.
  rewrite (bind_ok _ _ _ _ _ (readInt64_loop_bytes v rest)).
  unfold ret. do 2 f_equal. unfold u64.
  rewrite Z.mod_mod by lia. apply Z.mod_small. lia.
Qed.

Lemma readN_concat {A} (r : Reader A) (w : A → list Z) (P : A → Prop) :
  (∀ x rest, P x → r (w x ++ rest) = Ok (x, rest)) →
  ∀ (v : list A) (rest : list Z), Forall P v →
    readN (length v) r (concat (w <$> v) ++ rest) = Ok (v, rest).
Proof.
  intros Hr v. induction v as [| x v IH]; intros rest Hv.
  - reflexivity.
  - apply Forall_cons in Hv as [Hx Hv]. cbn [length readN fmap list_fmap concat].
    rewrite <- app_assoc.
    rewrite (bind_ok _ _ _ _ _ (Hr x _ Hx)).
    rewrite (bind_ok _ _ _ _ _ (IH rest Hv)). reflexivity.
Qed.

Lemma Forall_True {A} (v : list A) : Forall (fun _ => True) v.
Proof. induction v; constructor; auto. Qed.

Lemma string_bytes_range (s : string) : Forall (fun b => 0 <= b < 2 ^ 8) (string_bytes s).
Proof.
  unfold string_bytes. apply Forall_fmap, Forall_forall. intros c _. simpl.
  pose proof (N_ascii_bounded c). change (2 ^ 8) with 256. lia.
Qed.

Lemma bytes_string_bytes (s : string) : bytes_string (string_bytes s) = s.
Proof.
  unfold bytes_string, string_bytes. rewrite <- list_fmap_compose.
  rewrite <- (string_of_list_ascii_of_string s) at 2. f_equal.
  rewrite <- (list_fmap_id (list_ascii_of_string s)) at 2.
  apply list_fmap_ext. intros _ c _. simpl.
  pose proof (N_ascii_bounded c). unfold u8.
  rewrite Z.mod_small by (change (2 ^ 8) with 256; lia).
  rewrite N2Z.id. apply ascii_N_embedding.
Qed.

Lemma readN_bytes (bs rest : list Z) :
  readN (length bs) readByte (bs ++ rest) = Ok (bs, rest).
Proof.
  pose proof (readN_concat readByte (fun b => [b]) (fun _ => True)) as H.
  specialize (H (fun x rest _ => eq_refl) bs rest (Forall_True bs)).
  replace (concat ((fun b => [b]) <$> bs)) with bs in H; [exact H |].
  clear. induction bs as [| b bs IH]; [reflexivity |].
  cbn [fmap list_fmap concat app]. rewrite <- IH at 1. reflexivity.
Qed.

Lemma len_writeUint32 v : len (writeUint32 v) = 4.
Proof. reflexivity. Qed.

Lemma readString_write (s : string) (rest : list Z) :
  wf_string s → readString (writeString s ++ rest) = Ok (s, rest).
Proof.
  unfold wf_string, readString, writeString. intros Hs.
  pose proof (len_nonneg (string_bytes s)) as Hn.
  rewrite <- app_assoc.
  rewrite (bind_ok _ _ _ tt _) by (apply need_ok; rewrite len_app, len_writeUint32; pose proof (len_nonneg (string_bytes s ++ rest)); lia).
  unfold u32. rewrite Z.mod_small by lia.
  rewrite (bind_ok _ _ _ _ _ (readUint32_write _ _ (conj Hn Hs))).
  rewrite (bind_ok _ _ _ tt _) by (apply need_ok; rewrite len_app; pose proof (len_nonneg rest); lia).
  unfold readChars, len. rewrite Nat2Z.id.
  rewrite (bind_ok _ _ _ _ _ (readN_bytes _ _)).
  unfold ret. rewrite bytes_string_bytes. reflexivity.
Qed.

Lemma readInstruction_write (i : Instruction) (rest : list Z) :
  wf_instruction i → readInstruction (writeInstruction i ++ rest) = Ok (i, rest).
Proof.
  destruct i as [op opnd]. unfold wf_instruction, readInstruction, writeInstruction.
  cbn [opcode operand]. intros [Hop Hopnd].
  rewrite (bind_ok _ _ _ tt _) by (apply need_ok; unfold len; simpl; lia).
  unfold bind at 1. cbn [app readByte].
  rewrite (bind_ok _ _ _ _ _ (readUint32_write _ _ Hopnd)).
  unfold ret, u8. rewrite Z.mod_small by lia. reflexivity.
Qed.

Lemma len_writeInt64 v : len (writeInt64 v) = 8.
Proof. reflexivity. Qed.

Lemma len_writeDouble v : len (writeDouble v) = 8.
Proof. reflexivity. Qed.

Ltac pass_need :=
  rewrite (bind_ok _ _ _ tt _)
    by (apply need_ok; rewrite ?len_app, ?len_writeUint32, ?len_writeInt64, ?len_writeDouble;
        repeat match goal with |- context [len ?l] =>
                 lazymatch goal with
                 | _ : 0 <= len l |- _ => fail
                 | _ => pose proof (len_nonneg l)
                 end end;
        try (unfold len in *; simpl in *; lia)).

Lemma readConstant_write (c : Constant) (rest : list Z) :
  wf_constant c → readConstant (writeConstant c ++ rest) = Ok (c, rest).
Proof.
  unfold readConstant, writeConstant. intros Hc.
  pass_need. unfold bind at 1. cbn [app readByte].
  destruct c as [| v | v | b | i | i | i | i | t]; cbn [constant_type type_tag wf_constant] in *.
  - change (type_of_tag (u8 0)) with TYPE_NIL. cbv beta iota. pass_need. reflexivity.
  - change (type_of_tag (u8 1)) with TYPE_INT. cbv beta iota. pass_need.
    rewrite (bind_ok _ _ _ _ _ (readInt64_write _ _ Hc)). reflexivity.
  - change (type_of_tag (u8 2)) with TYPE_FLOAT. cbv beta iota. pass_need.
    rewrite (bind_ok _ _ _ _ _ (readDouble_write _ _ Hc)). reflexivity.
  - change (type_of_tag (u8 3)) with TYPE_BOOL. cbv beta iota. pass_need.
    destruct b; reflexivity.
  - change (type_of_tag (u8 4)) with TYPE_STRING. cbv beta iota. pass_need.
    rewrite (bind_ok _ _ _ _ _ (readUint32_write _ _ Hc)). reflexivity.
  - change (type_of_tag (u8 5)) with TYPE_ARRAY_INT. cbv beta iota. pass_need.
    rewrite (bind_ok _ _ _ _ _ (readUint32_write _ _ Hc)). reflexivity.
  - change (type_of_tag (u8 6)) with TYPE_ARRAY_FLOAT. cbv beta iota. pass_need.
    rewrite (bind_ok _ _ _ _ _ (readUint32_write _ _ Hc)). reflexivity.
  - change (type_of_tag (u8 7)) with TYPE_ARRAY_STRING. cbv beta iota. pass_need.
    rewrite (bind_ok _ _ _ _ _ (readUint32_write _ _ Hc)). reflexivity.
  - unfold u8. rewrite Z.mod_small by lia.
    assert (type_of_tag t = TYPE_OTHER t) as ->.
    { unfold type_of_tag. destruct t as [| p | p]; try lia.
      do 4 (destruct p as [p | p |]; try reflexivity; try lia). }
    cbv beta iota. pass_need. reflexivity.
Qed.

Lemma readVector_write {A} (r : Reader A) (w : A → list Z) (P : A → Prop) :
  (∀ x rest, P x → r (w x ++ rest) = Ok (x, rest)) →
  ∀ (v : list A) (rest : list Z), wf_vector P v →
    readVector r (writeVector w v ++ rest) = Ok (v, rest).
Proof.
  intros Hr v rest [Hlen Hv]. unfold readVector, writeVector. rewrite <- app_assoc.
  pose proof (len_nonneg v) as Hn.
  pass_need. unfold u32. rewrite Z.mod_small by lia.
  rewrite (bind_ok _ _ _ _ _ (readUint32_write _ _ (conj Hn Hlen))).
  unfold len. rewrite Nat2Z.id. apply (readN_concat r w P Hr v rest Hv).
Qed.

Lemma readIntArray_write (v : list Z) (rest : list Z) :
  wf_vector (fun x => - 2 ^ 63 <= x < 2 ^ 63) v →
  readIntArray (writeVector writeInt64 v ++ rest) = Ok (v, rest).
Proof.
  apply readVector_write. intros x r Hx. pass_need. apply readInt64_write, Hx.
Qed.

Lemma readFloatArray_write (v : list Z) (rest : list Z) :
  wf_vector (fun x => 0 <= x < 2 ^ 64) v →
  readFloatArray (writeVector writeDouble v ++ rest) = Ok (v, rest).
Proof.
  apply readVector_write. intros x r Hx. pass_need. apply readDouble_write, Hx.
Qed.

Lemma readStringArray_write (v : list string) (rest : list Z) :
  wf_vector wf_string v →
  readStringArray (writeVector writeString v ++ rest) = Ok (v, rest).
Proof. apply readVector_write. intros x r Hx. apply readString_write, Hx. Qed.

Lemma readFunction_write (f : FunctionInfo) (rest : list Z) :
  wf_function f → readFunction (writeFunction f ++ rest) = Ok (f, rest).
Proof.
  destruct f as [nm addr ar lc]. unfold wf_function, readFunction, writeFunction.
  cbn [name address arity locals]. intros (Hnm & Haddr & Har & Hlc).
  rewrite <- !app_assoc.
  rewrite (bind_ok _ _ _ _ _ (readString_write _ _ Hnm)).
  pass_need.
  rewrite (bind_ok _ _ _ _ _ (readUint32_write _ _ Haddr)).
  pass_need. unfold bind at 1. cbn [app readByte].
  pass_need. reflexivity.
Qed.

Lemma len_code_bytes (cd : list Instruction) :
  len (concat (writeInstruction <$> cd)) = 5 * len cd.
Proof.
  induction cd as [| i cd IH]; [reflexivity |].
  cbn [fmap list_fmap concat]. rewrite len_app, IH. unfold len. simpl. lia.
Qed.

Lemma readCode_write (cd : list Instruction) (rest : list Z) :
  wf_vector wf_instruction cd →
  readCode (writeVector writeInstruction cd ++ rest) = Ok (cd, rest).
Proof.
  intros [Hlen Hcd]. pose proof (len_nonneg cd) as Hn.
  unfold readCode, writeVector. rewrite <- app_assoc.
  pass_need.
  replace (u32 (len cd)) with (len cd) by (unfold u32; rewrite Z.mod_small; lia).
  rewrite (bind_ok _ _ _ _ _ (readUint32_write _ _ (conj Hn Hlen))).
  erewrite (bind_ok (need _)).
  2:{ apply need_ok. rewrite len_app, len_code_bytes.
      pose proof (len_nonneg rest).
      unfold u32. pose proof (Z.mod_le (len cd * 5) (2 ^ 32)). lia. }
  unfold len. rewrite Nat2Z.id.
  apply (readN_concat _ _ _ readInstruction_write cd rest Hcd).
Qed.

Lemma len_header (ver flg : Z) (body : list Z) :
  8 <= len (writeUint32 TAIL_MAGIC ++ writeUint16 ver ++ writeUint16 flg ++ body).
Proof.
  do 3 rewrite len_app. pose proof (len_nonneg body). unfold len at 1 2 3. simpl. lia.
Qed.

(** C5. For every in-memory image that carries the TAIL magic, and whose
    fields, counts and string lengths are values of their C++ types and of
    the 32-bit length prefixes of the format, [deserialize (serialize I)]
    succeeds and yields [I] itself, so every field (header, code, constants,
    strings, the three array pools, functions, native imports) is equal. *)
Theorem deserialize_serialize (img : BytecodeFile) :
  magic img = TAIL_MAGIC → wf_image img →
  deserialize (serialize img) = Ok img.
Proof.
  destruct img as [mg ver flg cd cs ss ia fa sa fs ns].
  unfold wf_image. cbn [magic version flags code constants strings intArrays
    floatArrays stringArrays functions nativeImports].
  intros -> (Hver & Hflg & Hcd & Hcs & Hss & Hia & Hfa & Hsa & Hfs & Hns).
  unfold deserialize, serialize.
  cbn [magic version flags code constants strings intArrays
    floatArrays stringArrays functions nativeImports].
  rewrite <- (app_nil_r (writeVector writeString ns)).
  match goal with |- context [writeUint16 flg ++ ?r] => set (body := r) end.
  pose proof (len_header ver flg body) as Hlen.
  destruct (Z.ltb_spec (len (writeUint32 TAIL_MAGIC ++ writeUint16 ver ++ writeUint16 flg ++ body)) 8)
    as [Hlt | _]; [lia |].
  subst body. unfold readImage.
  rewrite (bind_ok _ _ _ tt _ (need_ok _ _ Hlen)). clear Hlen.
  rewrite (bind_ok _ _ _ TAIL_MAGIC _) by (apply readUint32_write; unfold TAIL_MAGIC; lia).
  change (negb (TAIL_MAGIC =? 1413564748)) with false. cbv beta iota.
  rewrite (bind_ok _ _ _ _ _ (readUint16_write _ _ Hver)).
  rewrite (bind_ok _ _ _ _ _ (readUint16_write _ _ Hflg)).
  rewrite (bind_ok _ _ _ _ _ (readCode_write cd _ Hcd)).
  rewrite (bind_ok _ _ _ _ _ (readVector_write _ _ _ readConstant_write cs _ Hcs)).
  rewrite (bind_ok _ _ _ _ _ (readVector_write _ _ _ readString_write ss _ Hss)).
  rewrite (bind_ok _ _ _ _ _ (readVector_write _ _ _ readIntArray_write ia _ Hia)).
  rewrite (bind_ok _ _ _ _ _ (readVector_write _ _ _ readFloatArray_write fa _ Hfa)).
  rewrite (bind_ok _ _ _ _ _ (readVector_write _ _ _ readStringArray_write sa _ Hsa)).
  rewrite (bind_ok _ _ _ _ _ (readVector_write _ _ _ readFunction_write fs _ Hfs)).
  rewrite (bind_ok _ _ _ _ _ (readVector_write _ _ _ readString_write ns _ Hns)).
  reflexivity.
Qed.

(** The image of the example program is well formed. *)
Lemma example_program_wf : wf_image VM.example_program.
Proof.
  unfold wf_image, wf_vector, VM.example_program;
    cbn [version flags code constants strings intArrays floatArrays stringArrays
         functions nativeImports].
  repeat split;
    repeat (apply Forall_cons; split); try apply Forall_nil;
    unfold wf_instruction, wf_constant, wf_function, wf_string;
    cbn [opcode operand name address arity locals];
    repeat split;
    first [ vm_compute; reflexivity | vm_compute; discriminate ].
Defined.

Lemma deserialize_serialize_witness :
  deserialize (serialize VM.example_program) = Ok VM.example_program.
Proof.
  apply (deserialize_serialize VM.example_program).
  - reflexivity.
  - exact example_program_wf.
Defined.

(** C7, as the code has it. [serialize] writes a constant as its one-byte
    type tag followed by a payload whose size depends on the type: the eight
    bytes of the int64 for an int, the eight bytes of the double for a float,
    one byte (0 or 1) and no padding for a bool, the four bytes of the u32
    index and no padding for the string and array kinds, eight zero bytes
    for nil (and for an unknown tag). A record is 9, 9, 2, 5 or 9 bytes
    long. *)
Theorem constant_record_layout (c : Constant) :
  match c with
  | CNil => writeConstant c = 0 :: replicate 8 0 /\ len (writeConstant c) = 9
  | CInt v => writeConstant c = 1 :: writeInt64 v /\ len (writeConstant c) = 9
  | CFloat v => writeConstant c = 2 :: writeDouble v /\ len (writeConstant c) = 9
  | CBool b => writeConstant c = [3; if b then 1 else 0] /\ len (writeConstant c) = 2
  | CString i => writeConstant c = 4 :: writeUint32 i /\ len (writeConstant c) = 5
  | CArrayInt i => writeConstant c = 5 :: writeUint32 i /\ len (writeConstant c) = 5
  | CArrayFloat i => writeConstant c = 6 :: writeUint32 i /\ len (writeConstant c) = 5
  | CArrayString i => writeConstant c = 7 :: writeUint32 i /\ len (writeConstant c) = 5
  | COther t => writeConstant c = u8 t :: replicate 8 0 /\ len (writeConstant c) = 9
  end.
Proof. destruct c; split; reflexivity. Qed.

(** C7 as stated fails: the record of a bool constant is two bytes long and
    the record of a string constant five, not nine. *)
Lemma bool_constant_record_is_two_bytes :
  writeConstant (CBool true) = [3; 1]
  /\ len (writeConstant (CBool true)) ≠ 9
  /\ writeConstant (CString 0) = [4; 0; 0; 0; 0]
  /\ len (writeConstant (CString 0)) ≠ 9.
Proof. repeat split; discriminate. Qed.

End TVMFacts.

(** * The image codec: trailing bytes, unique decoding, the magic, bounds *)

Module CodecFacts.
Import TVM BasicFacts TVMFacts.

Lemma len_any_header (mg ver flg : Z) (body : list Z) :
  8 <= len (writeUint32 mg ++ writeUint16 ver ++ writeUint16 flg ++ body).
Proof.
  do 3 rewrite len_app. pose proof (len_nonneg body). unfold len at 1 2 3. simpl. lia.
Qed.

(** Reading the image back leaves exactly what followed it. *)
Lemma readImage_serialize (img : BytecodeFile) (rest : list Z) :
  magic img = TAIL_MAGIC → wf_image img →
  readImage (serialize img ++ rest) = Ok (img, rest).
Proof.
  destruct img as [mg ver flg cd cs ss ia fa sa fs ns].
  unfold wf_image. cbn [magic version flags code constants strings intArrays
    floatArrays stringArrays functions nativeImports].
  intros -> (Hver & Hflg & Hcd & Hcs & Hss & Hia & Hfa & Hsa & Hfs & Hns).
  unfold serialize.
  cbn [magic version flags code constants strings intArrays
    floatArrays stringArrays functions nativeImports].
  rewrite <- !app_assoc.
  match goal with |- context [writeUint16 flg ++ ?r] => set (body := r) end.
  pose proof (len_any_header TAIL_MAGIC ver flg body) as Hlen.
  subst body. unfold readImage.
  rewrite (bind_ok _ _ _ tt _ (need_ok _ _ Hlen)). clear Hlen.
  rewrite (bind_ok _ _ _ TAIL_MAGIC _) by (apply readUint32_write; unfold TAIL_MAGIC; lia).
  change (negb (TAIL_MAGIC =? 1413564748)) with false. cbv beta iota.
  rewrite (bind_ok _ _ _ _ _ (readUint16_write _ _ Hver)).
  rewrite (bind_ok _ _ _ _ _ (readUint16_write _ _ Hflg)).
  rewrite (bind_ok _ _ _ _ _ (readCode_write cd _ Hcd)).
  rewrite (bind_ok _ _ _ _ _ (readVector_write _ _ _ readConstant_write cs _ Hcs)).
  rewrite (bind_ok _ _ _ _ _ (readVector_write _ _ _ readString_write ss _ Hss)).
  rewrite (bind_ok _ _ _ _ _ (readVector_write _ _ _ readIntArray_write ia _ Hia)).
  rewrite (bind_ok _ _ _ _ _ (readVector_write _ _ _ readFloatArray_write fa _ Hfa)).
  rewrite (bind_ok _ _ _ _ _ (readVector_write _ _ _ readStringArray_write sa _ Hsa)).
  rewrite (bind_ok _ _ _ _ _ (readVector_write _ _ _ readFunction_write fs _ Hfs)).
  rewrite (bind_ok _ _ _ _ _ (readVector_write _ _ _ readString_write ns _ Hns)).
  reflexivity.
Qed.

(** Bytes that follow a serialized image do not change what [deserialize]
    returns: it loads the image and accepts the input (the code only prints
    a warning about the bytes left). *)
Theorem trailing_bytes_are_accepted (img : BytecodeFile) (extra : list Z) :
  magic img = TAIL_MAGIC → wf_image img →
  deserialize (serialize img ++ extra) = Ok img.
Proof.
  intros Hmg Hwf. unfold deserialize.
  rewrite (readImage_serialize img extra Hmg Hwf).
  destruct (Z.ltb_spec (len (serialize img ++ extra)) 8) as [Hlt | _]; [| reflexivity].
  exfalso. revert Hlt. unfold serialize. rewrite <- !app_assoc.
  match goal with |- context [writeUint16 (flags img) ++ ?r] =>
    pose proof (len_any_header (magic img) (version img) (flags img) r) end.
  lia.
Qed.

Lemma trailing_bytes_are_accepted_witness :
  deserialize (serialize VM.example_program ++ [0xDE; 0xAD]) = Ok VM.example_program.
Proof.
  apply (trailing_bytes_are_accepted VM.example_program [0xDE; 0xAD]).
  - reflexivity.
  - exact example_program_wf.
Defined.

(** The format is uniquely decodable: if the bytes of one image followed by
    some bytes equal the bytes of another image followed by some bytes, the
    images are equal and so are the bytes that follow. No image is a proper
    prefix of another, and [serialize] is injective. *)
Theorem serialize_is_uniquely_decodable (img1 img2 : BytecodeFile) (rest1 rest2 : list Z) :
  magic img1 = TAIL_MAGIC → wf_image img1 →
  magic img2 = TAIL_MAGIC → wf_image img2 →
  serialize img1 ++ rest1 = serialize img2 ++ rest2 →
  img1 = img2 ∧ rest1 = rest2.
Proof.
  intros Hm1 Hw1 Hm2 Hw2 Heq.
  pose proof (readImage_serialize img1 rest1 Hm1 Hw1) as H1.
  pose proof (readImage_serialize img2 rest2 Hm2 Hw2) as H2.
  rewrite Heq in H1. rewrite H1 in H2. injection H2 as -> ->. split; reflexivity.
Qed.

Lemma serialize_is_uniquely_decodable_witness :
  VM.example_program = VM.example_program ∧ [7] = [7].
Proof.
  apply (serialize_is_uniquely_decodable VM.example_program VM.example_program [7] [7]).
  - reflexivity.
  - exact example_program_wf.
  - reflexivity.
  - exact example_program_wf.
  - reflexivity.
Defined.

(** [serialize] writes whatever magic the image holds, and [deserialize]
    refuses every image whose magic is not "TAIL": the round trip of such an
    image fails, whatever the rest of the image is. *)
Theorem image_with_other_magic_is_rejected (img : BytecodeFile) :
  0 <= magic img < 2 ^ 32 → magic img ≠ TAIL_MAGIC →
  deserialize (serialize img) = Err Rejected.
Proof.
  intros Hrange Hne. unfold deserialize, serialize.
  match goal with |- context [writeUint16 (flags img) ++ ?r] => set (body := r) end.
  pose proof (len_any_header (magic img) (version img) (flags img) body) as Hlen.
  destruct (Z.ltb_spec (len (writeUint32 (magic img) ++ writeUint16 (version img)
                               ++ writeUint16 (flags img) ++ body)) 8) as [Hlt | _]; [lia |].
  unfold readImage.
  rewrite (bind_ok _ _ _ tt _ (need_ok _ _ Hlen)).
  rewrite (bind_ok _ _ _ _ _ (readUint32_write _ _ Hrange)).
  destruct (Z.eqb_spec (magic img) 1413564748) as [He | _]; [| reflexivity].
  exfalso. apply Hne. exact He.
Qed.

Lemma image_with_other_magic_is_rejected_witness :
  deserialize (serialize (mkBytecodeFile 0x4C494154 1 0 [] [] [] [] [] [] [] [])) = Err Rejected.
Proof.
  apply (image_with_other_magic_is_rejected (mkBytecodeFile 0x4C494154 1 0 [] [] [] [] [] [] [] [])).
  - simpl. lia.
  - simpl. unfold TAIL_MAGIC. lia.
Defined.

(** ** The reader stays inside its input *)

Lemma consumes_ret {A} (a : A) : consumes 0 (ret a).
Proof. intros d _. exists a. reflexivity. Qed.

Lemma consumes_readByte : consumes 1 readByte.
Proof.
  intros [| b d] H; [unfold len in H; simpl in H; lia |].
  exists b. reflexivity.
Qed.

Lemma len_drop {A} (n : Z) (d : list A) :
  0 <= n <= len d → len (drop (Z.to_nat n) d) = len d - n.
Proof. unfold len. intros H. rewrite length_drop. lia. Qed.

Lemma consumes_bind {A B} (n m : Z) (r : Reader A) (k : A → Reader B) :
  0 <= n → 0 <= m → consumes n r → (∀ a, consumes m (k a)) →
  consumes (n + m) (bind r k).
Proof.
  intros Hn Hm Hr Hk d Hd.
  destruct (Hr d ltac:(lia)) as [a Ha].
  destruct (Hk a (drop (Z.to_nat n) d)) as [b Hb].
  { rewrite len_drop by lia. lia. }
  exists b. unfold bind. rewrite Ha, Hb, drop_drop.
  replace (Z.to_nat n + Z.to_nat m)%nat with (Z.to_nat (n + m)) by lia. reflexivity.
Qed.

Lemma consumes_need {A} (n m : Z) (r : Reader A) :
  m <= n → consumes n r → consumes n (bind (need m) (fun _ => r)).
Proof.
  intros Hm Hr d Hd. unfold bind. rewrite need_ok by lia. apply Hr, Hd.
Qed.

Lemma consumes_readUint32 : consumes 4 readUint32.
Proof.
  unfold readUint32. change 4 with (1 + (1 + (1 + (1 + 0)))).
  repeat (apply consumes_bind; [lia | lia | apply consumes_readByte | intros ?]).
  apply consumes_ret.
Qed.

Lemma consumes_readUint16 : consumes 2 readUint16.
Proof.
  unfold readUint16. change 2 with (1 + (1 + 0)).
  repeat (apply consumes_bind; [lia | lia | apply consumes_readByte | intros ?]).
  apply consumes_ret.
Qed.

Lemma consumes_readInt64_loop (n : nat) (i acc : Z) :
  consumes (Z.of_nat n) (readInt64_loop n i acc).
Proof.
  revert i acc. induction n as [| n IH]; intros i acc.
  - apply consumes_ret.
  - replace (Z.of_nat (S n)) with (1 + Z.of_nat n) by lia. cbn [readInt64_loop].
    apply consumes_bind; [lia | lia | apply consumes_readByte | intros b; apply IH].
Qed.

Lemma consumes_readInt64 : consumes 8 readInt64.
Proof.
  unfold readInt64. change 8 with (8 + 0) at 1.
  apply consumes_bind; [lia | lia | | intros; apply consumes_ret].
  apply (consumes_readInt64_loop 8).
Qed.

Lemma consumes_readDouble : consumes 8 readDouble.
Proof.
  unfold readDouble. change 8 with (8 + 0) at 1.
  apply consumes_bind; [lia | lia | | intros; apply consumes_ret].
  apply (consumes_readInt64_loop 8).
Qed.

Lemma consumes_readN {A} (size : Z) (r : Reader A) (n : nat) :
  0 <= size → consumes size r → consumes (size * Z.of_nat n) (readN n r).
Proof.
  intros Hs Hr. induction n as [| n IH].
  - replace (size * Z.of_nat 0) with 0 by lia. apply consumes_ret.
  - replace (size * Z.of_nat (S n)) with (size + (size * Z.of_nat n + 0)) by lia.
    cbn [readN]. apply consumes_bind; [lia | nia | exact Hr | intros x].
    apply consumes_bind; [nia | lia | exact IH | intros xs; apply consumes_ret].
Qed.

Lemma consumes_readInstruction : consumes 5 readInstruction.
Proof.
  unfold readInstruction. apply consumes_need; [lia |].
  change 5 with (1 + (4 + 0)).
  apply consumes_bind; [lia | lia | apply consumes_readByte | intros op].
  apply consumes_bind; [lia | lia | apply consumes_readUint32 | intros; apply consumes_ret].
Qed.

Lemma in_bounds_ret {A} (a : A) : in_bounds (ret a).
Proof. intros d. discriminate. Qed.

Lemma in_bounds_reject {A} : in_bounds (@reject A).
Proof. intros d. discriminate. Qed.

Lemma in_bounds_bind {A B} (r : Reader A) (k : A → Reader B) :
  in_bounds r → (∀ a, in_bounds (k a)) → in_bounds (bind r k).
Proof.
  intros Hr Hk d. unfold bind. destruct (r d) as [[a d'] | e] eqn:E.
  - apply Hk.
  - intros [= ->]. exact (Hr d E).
Qed.

(** A read that is preceded by the check of its size stays in bounds. *)
Lemma in_bounds_guard {A} (n size : Z) (r : Reader A) :
  consumes size r → size <= Z.max 0 n → in_bounds (bind (need n) (fun _ => r)).
Proof.
  intros Hr Hn d. unfold bind, need.
  destruct (Z.ltb_spec (len d) n) as [_ | Hd]; [discriminate |].
  pose proof (len_nonneg d).
  destruct (Hr d ltac:(lia)) as [a ->]. discriminate.
Qed.

Lemma in_bounds_guard_bind {A B} (n size : Z) (r : Reader A) (k : A → Reader B) :
  consumes size r → size <= Z.max 0 n → (∀ a, in_bounds (k a)) →
  in_bounds (bind (need n) (fun _ => bind r k)).
Proof.
  intros Hr Hn Hk d. unfold bind, need.
  destruct (Z.ltb_spec (len d) n) as [_ | Hd]; [discriminate |].
  pose proof (len_nonneg d).
  destruct (Hr d ltac:(lia)) as [a ->]. apply Hk.
Qed.

Lemma in_bounds_readN {A} (r : Reader A) (n : nat) : in_bounds r → in_bounds (readN n r).
Proof.
  intros Hr. induction n as [| n IH]; [apply in_bounds_ret |].
  cbn [readN]. apply in_bounds_bind; [exact Hr | intros x].
  apply in_bounds_bind; [exact IH | intros xs; apply in_bounds_ret].
Qed.

Lemma in_bounds_readVector {A} (r : Reader A) : in_bounds r → in_bounds (readVector r).
Proof.
  intros Hr. unfold readVector.
  apply (in_bounds_guard_bind 4 4); [apply consumes_readUint32 | lia |].
  intros n. apply in_bounds_readN, Hr.
Qed.

Lemma consumes_readChars (n : Z) : consumes (Z.max 0 n) (readChars n).
Proof.
  unfold readChars.
  replace (Z.max 0 n) with (1 * Z.of_nat (Z.to_nat n) + 0) by lia.
  apply consumes_bind; [lia | lia | | intros; apply consumes_ret].
  apply consumes_readN; [lia | apply consumes_readByte].
Qed.

Lemma in_bounds_readString : in_bounds readString.
Proof.
  unfold readString.
  apply (in_bounds_guard_bind 4 4); [apply consumes_readUint32 | lia |].
  intros n. apply (in_bounds_guard n (Z.max 0 n)); [apply consumes_readChars | lia].
Qed.

Lemma in_bounds_readConstant : in_bounds readConstant.
Proof.
  unfold readConstant.
  apply (in_bounds_guard_bind 1 1); [apply consumes_readByte | lia |].
  intros t. destruct (type_of_tag t).
  - apply (in_bounds_guard_bind 8 8); [| lia | intros; apply in_bounds_ret].
    apply (consumes_readN 1 readByte 8); [lia | apply consumes_readByte].
  - apply (in_bounds_guard_bind 8 8); [apply consumes_readInt64 | lia | intros; apply in_bounds_ret].
  - apply (in_bounds_guard_bind 8 8); [apply consumes_readDouble | lia | intros; apply in_bounds_ret].
  - apply (in_bounds_guard_bind 1 1); [apply consumes_readByte | lia | intros; apply in_bounds_ret].
  - apply (in_bounds_guard_bind 4 4); [apply consumes_readUint32 | lia | intros; apply in_bounds_ret].
  - apply (in_bounds_guard_bind 4 4); [apply consumes_readUint32 | lia | intros; apply in_bounds_ret].
  - apply (in_bounds_guard_bind 4 4); [apply consumes_readUint32 | lia | intros; apply in_bounds_ret].
  - apply (in_bounds_guard_bind 4 4); [apply consumes_readUint32 | lia | intros; apply in_bounds_ret].
  - apply (in_bounds_guard_bind 8 8); [| lia | intros; apply in_bounds_ret].
    apply (consumes_readN 1 readByte 8); [lia | apply consumes_readByte].
Qed.

Lemma in_bounds_readFunction : in_bounds readFunction.
Proof.
  unfold readFunction.
  apply in_bounds_bind; [apply in_bounds_readString | intros nm].
  apply (in_bounds_guard_bind 4 4); [apply consumes_readUint32 | lia | intros addr].
  apply (in_bounds_guard_bind 1 1); [apply consumes_readByte | lia | intros ar].
  apply (in_bounds_guard_bind 1 1); [apply consumes_readByte | lia | intros lc].
  apply in_bounds_ret.
Qed.

(** The code section: the check of the section size covers the reads of
    the loop as long as the product is the true one. *)
Lemma readCode_in_bounds (d : list Z) :
  (∀ c d', readUint32 d = Ok (c, d') → c * 5 < 2 ^ 32) →
  ∀ {B} (k : list Instruction → Reader B), (∀ cd, in_bounds (k cd)) →
  bind readCode k d ≠ Err ReadPastEnd.
Proof.
  intros Hc B k Hk. unfold readCode, bind at 1 2, need at 1.
  destruct (Z.ltb_spec (len d) 4) as [_ | Hd]; [discriminate |].
  destruct (consumes_readUint32 d Hd) as [c Hread].
  specialize (Hc _ _ Hread).
  assert (0 <= c) as Hc0.
  { revert Hread. unfold readUint32, bind, ret.
    repeat (destruct (readByte _) as [[? ?] |]; [| discriminate]).
    intros [= <- _]. unfold u32. apply Z.mod_pos_bound. lia. }
  unfold bind at 1. rewrite Hread. unfold bind at 1, need.
  rewrite (u32_small (c * 5)) by lia.
  destruct (Z.ltb_spec (len (drop (Z.to_nat 4) d)) (c * 5)) as [_ | Hlen]; [discriminate |].
  destruct (consumes_readN 5 readInstruction (Z.to_nat c) ltac:(lia) consumes_readInstruction
              (drop (Z.to_nat 4) d) ltac:(lia)) as [cd Hcd].
  unfold bind. rewrite Hcd. apply Hk.
Qed.

(** [deserialize] never reads a byte beyond the end of its input when five
    times the instruction count of the input fits 32 bits, whatever the
    input is otherwise (truncated, of any content). When the product does
    not fit, the 32-bit check of the code section passes for too short an
    input and the loop reads past the end: the 16 bytes
    [example_wrapping_count] are such an input. *)
Theorem deserialize_stays_in_bounds_unless_the_count_wraps :
  (∀ data, code_count data * 5 < 2 ^ 32 → deserialize data ≠ Err ReadPastEnd)
  ∧ 2 ^ 32 <= code_count example_wrapping_count * 5
  ∧ deserialize example_wrapping_count = Err ReadPastEnd.
Proof.
  split; [| split].
  - intros data Hcount. unfold deserialize.
    destruct (Z.ltb_spec (len data) 8) as [_ | Hlen]; [discriminate |].
    assert (readImage data ≠ Err ReadPastEnd) as Hread;
      [| destruct (readImage data) as [[img rest] | e]; congruence].
    unfold readImage. unfold bind at 1. rewrite need_ok by lia.
    destruct (consumes_readUint32 data ltac:(lia)) as [mg Hmg].
    unfold bind at 1. rewrite Hmg.
    destruct (negb (mg =? 1413564748)); [discriminate |].
    destruct (consumes_readUint16 (drop (Z.to_nat 4) data)) as [ver Hver].
    { rewrite len_drop by lia. lia. }
    unfold bind at 1. rewrite Hver.
    destruct (consumes_readUint16 (drop (Z.to_nat 2) (drop (Z.to_nat 4) data))) as [flg Hflg].
    { rewrite !len_drop; rewrite ?len_drop; lia. }
    unfold bind at 1. rewrite Hflg.
    rewrite !drop_drop. change (Z.to_nat 4 + (Z.to_nat 2 + Z.to_nat 2))%nat with 8%nat.
    apply readCode_in_bounds.
    + intros c d' Hc. unfold code_count in Hcount. rewrite Hc in Hcount. exact Hcount.
    + intros cd.
      apply in_bounds_bind; [apply in_bounds_readVector, in_bounds_readConstant | intros cs].
      apply in_bounds_bind; [apply in_bounds_readVector, in_bounds_readString | intros ss].
      apply in_bounds_bind; [apply in_bounds_readVector, in_bounds_readVector | intros ia].
      { apply (in_bounds_guard 8 8); [apply consumes_readInt64 | lia]. }
      apply in_bounds_bind; [apply in_bounds_readVector, in_bounds_readVector | intros fa].
      { apply (in_bounds_guard 8 8); [apply consumes_readDouble | lia]. }
      apply in_bounds_bind;
        [apply in_bounds_readVector, in_bounds_readVector, in_bounds_readString | intros sa].
      apply in_bounds_bind; [apply in_bounds_readVector, in_bounds_readFunction | intros fs].
      apply in_bounds_bind; [apply in_bounds_readVector, in_bounds_readString | intros ns].
      apply in_bounds_ret.
  - unfold code_count, example_wrapping_count.
    change (drop 8 _) with (writeUint32 0x33333334 ++ [OP_HALT; 0; 0; 0]).
    rewrite readUint32_write by lia. lia.
  - unfold deserialize, example_wrapping_count.
    change (len _ <? 8) with false. cbv beta iota.
    unfold readImage.
    rewrite (bind_ok _ _ _ tt _) by (apply need_ok; unfold len; simpl; lia).
    rewrite (bind_ok _ _ _ TAIL_MAGIC _) by (apply readUint32_write; unfold TAIL_MAGIC; lia).
    change (negb (TAIL_MAGIC =? 1413564748)) with false. cbv beta iota.
    rewrite (bind_ok _ _ _ _ _ (readUint16_write 1 _ ltac:(lia))).
    rewrite (bind_ok _ _ _ _ _ (readUint16_write 0 _ ltac:(lia))).
    unfold bind at 1. unfold readCode.
    rewrite (bind_ok _ _ _ tt _) by (apply need_ok; unfold len; simpl; lia).
    rewrite (bind_ok _ _ _ _ _ (readUint32_write 0x33333334 _ ltac:(lia))).
    change (u32 (858993460 * 5)) with 4.
    rewrite (bind_ok _ _ _ tt _) by (apply need_ok; unfold len; simpl; lia).
    destruct (Z.to_nat 858993460) as [| n] eqn:En; [lia |].
    reflexivity.
Qed.

(** Inputs cut short: the empty input, and the first 100 of the 161 bytes
    of the example image. *)
Lemma deserialize_stays_in_bounds_unless_the_count_wraps_witness :
  code_count (take 100 (serialize VM.example_program)) * 5 < 2 ^ 32
  ∧ deserialize (take 100 (serialize VM.example_program)) ≠ Err ReadPastEnd
  ∧ deserialize [] ≠ Err ReadPastEnd.
Proof.
  destruct deserialize_stays_in_bounds_unless_the_count_wraps as (Hin & _).
  assert (code_count (take 100 (serialize VM.example_program)) * 5 < 2 ^ 32) as Hc
    by (vm_compute; reflexivity).
  split; [exact Hc |]. split; [apply Hin, Hc |].
  apply Hin. vm_compute. reflexivity.
Defined.

End CodecFacts.

(** * Properties of the lexer *)

Module LexerFacts.
Import Lexer.

(** C9, what the code does instead. A newline consumed by
    [scanToken] advances the line counter twice: once in [advance], once
    more in the newline case of the switch. *)
Theorem newline_advances_line_twice (source : string) (st : State) :
  isAtEnd source st = false →
  char_at source (current st) = NEWLINE →
  cur_line (scanToken source st) = S (S (cur_line st))
  /\ cur_column (scanToken source st) = 1%nat.
Proof.
  intros Hend Hc. unfold scanToken, advance. rewrite Hend, Hc. split; reflexivity.
Qed.

(** A newline and then [x]: the identifier begins on physical line 2 and
    is emitted with line 3. *)
Lemma token_on_second_line_reports_line_three :
  tokenize (String NEWLINE "x")
  = ([mkToken IDENTIFIER "x" 3 2; mkToken EOF_TOKEN "" 3 2], []).
Proof. vm_compute. reflexivity. Qed.

(** The first character of that source, scanned from the initial state. *)
Lemma newline_advances_line_twice_witness :
  cur_line (scanToken (String NEWLINE "x") (mkState 0 0 1 1 [] [])) = 3%nat
  /\ cur_column (scanToken (String NEWLINE "x") (mkState 0 0 1 1 [] [])) = 1%nat.
Proof.
  apply (newline_advances_line_twice (String NEWLINE "x") (mkState 0 0 1 1 [] []));
    reflexivity.
Defined.

End LexerFacts.

(** * The lexer: its loops, the shape of its output, literals *)

Module LexerMoreFacts.
Import Lexer.

Local Open Scope nat_scope.

Section WithSource.

Variable source : string.

Local Abbreviation extends := (Lexer.extends source).

Lemma extends_refl st : extends st st.
Proof.
  split; [lia | split; [auto |]]. exists []. rewrite app_nil_r. split; [reflexivity | constructor].
Qed.

Lemma extends_trans st1 st2 st3 : extends st1 st2 → extends st2 st3 → extends st1 st3.
Proof.
  intros (H1 & H2 & new1 & E1 & F1) (H3 & H4 & new2 & E2 & F2).
  split; [lia | split; [auto |]].
  exists (new1 ++ new2). rewrite E2, E1, app_assoc. split; [reflexivity |].
  apply Forall_app; split; assumption.
Qed.

Lemma extends_same st st' :
  current st' = current st → tokens st' = tokens st → extends st st'.
Proof.
  intros Hc Ht. split; [lia | split; [lia |]].
  exists []. rewrite app_nil_r. split; [exact Ht | constructor].
Qed.

Lemma isAtEnd_false st : isAtEnd source st = false ↔ current st < String.length source.
Proof. unfold isAtEnd. rewrite Nat.leb_gt. reflexivity. Qed.

Lemma isAtEnd_true st : isAtEnd source st = true ↔ String.length source <= current st.
Proof. unfold isAtEnd. rewrite Nat.leb_le. reflexivity. Qed.

Lemma advance_at_end st : isAtEnd source st = true → advance source st = (NUL, st).
Proof. unfold advance. intros ->. reflexivity. Qed.

Lemma advance_inside st :
  isAtEnd source st = false →
  fst (advance source st) = char_at source (current st)
  ∧ current (snd (advance source st)) = S (current st)
  ∧ tokens (snd (advance source st)) = tokens st
  ∧ errors (snd (advance source st)) = errors st.
Proof.
  unfold advance. intros ->. destruct (Ascii.eqb _ _); repeat split; reflexivity.
Qed.

Lemma extends_advance st : extends st (snd (advance source st)).
Proof.
  destruct (isAtEnd source st) eqn:E.
  - rewrite advance_at_end by exact E. apply extends_refl.
  - destruct (advance_inside st E) as (_ & Hc & Ht & _).
    apply isAtEnd_false in E.
    split; [lia | split; [lia |]].
    exists []. rewrite app_nil_r. split; [exact Ht | constructor].
Qed.

Lemma extends_match_ c st : extends st (snd (match_ source c st)).
Proof.
  unfold match_. destruct (isAtEnd source st); [apply extends_refl |].
  destruct (negb _); [apply extends_refl | apply extends_advance].
Qed.

Lemma extends_addTokenText t txt st :
  t ≠ EOF_TOKEN → t ≠ ERROR → extends st (addTokenText t txt st).
Proof.
  intros H1 H2. split; [simpl; lia | split; [simpl; auto |]].
  eexists. split; [reflexivity |]. repeat constructor; assumption.
Qed.

Lemma extends_addToken t st :
  t ≠ EOF_TOKEN → t ≠ ERROR → extends st (addToken source t st).
Proof. apply extends_addTokenText. Qed.

Lemma extends_error msg st : extends st (error msg st).
Proof. apply extends_same; reflexivity. Qed.

Lemma extends_addTokenEq t1 t2 st :
  t1 ≠ EOF_TOKEN → t1 ≠ ERROR → t2 ≠ EOF_TOKEN → t2 ≠ ERROR →
  extends st (addTokenEq source t1 t2 st).
Proof.
  intros. unfold addTokenEq.
  pose proof (extends_match_ "="%char st) as Hm.
  destruct (match_ source "=" st) as [m st']. cbn [snd] in Hm.
  apply (extends_trans _ _ _ Hm). destruct m; apply extends_addToken; assumption.
Qed.

Lemma extends_advanceWhile fuel cond st : extends st (advanceWhile source fuel cond st).
Proof.
  revert st. induction fuel as [| fuel IH]; intros st; [apply extends_refl |].
  cbn [advanceWhile]. destruct (cond _); [| apply extends_refl].
  exact (extends_trans _ _ _ (extends_advance st) (IH _)).
Qed.

Lemma extends_skipComment fuel st : extends st (skipComment source fuel st).
Proof.
  revert st. induction fuel as [| fuel IH]; intros st; [apply extends_refl |].
  cbn [skipComment]. destruct (_ && _); [| apply extends_refl].
  exact (extends_trans _ _ _ (extends_advance st) (IH _)).
Qed.

Lemma extends_scanString_loop fuel value st :
  extends st (snd (scanString_loop source fuel value st)).
Proof.
  revert value st. induction fuel as [| fuel IH]; intros value st; [apply extends_refl |].
  cbn [scanString_loop]. destruct (_ && _); [| apply extends_refl].
  match goal with |- context [Ascii.eqb (peek source ?s) BACKSLASH] => set (st1 := s) end.
  assert (extends st st1) as H1.
  { subst st1. destruct (Ascii.eqb _ NEWLINE); [apply extends_same; reflexivity | apply extends_refl]. }
  apply (extends_trans _ _ _ H1).
  destruct (Ascii.eqb (peek source st1) BACKSLASH).
  - apply (extends_trans _ _ _ (extends_advance st1)).
    match goal with |- extends ?s (snd (scanString_loop _ _ _ (snd (advance _ ?s)))) =>
      apply (extends_trans _ _ _ (extends_advance s)) end.
    apply IH.
  - pose proof (extends_advance st1) as Ha.
    destruct (advance source st1) as [c st2]. cbn [snd] in Ha.
    apply (extends_trans _ _ _ Ha). apply IH.
Qed.

Lemma extends_scanString st : extends st (scanString source st).
Proof.
  unfold scanString.
  pose proof (extends_scanString_loop (String.length source) "" st) as H.
  destruct (scanString_loop _ _ _ st) as [value st1]. cbn [snd] in H.
  apply (extends_trans _ _ _ H).
  destruct (isAtEnd source st1); [apply extends_error |].
  apply (extends_trans _ _ _ (extends_advance st1)).
  apply extends_addTokenText; discriminate.
Qed.

Lemma extends_scanNumber st : extends st (scanNumber source st).
Proof.
  unfold scanNumber.
  match goal with |- context [Ascii.eqb (peek source ?s) "."] => set (st1 := s) end.
  assert (extends st st1) as H1 by apply extends_advanceWhile.
  apply (extends_trans _ _ _ H1).
  destruct (_ && _).
  - apply (extends_trans _ _ _ (extends_advance st1)).
    eapply extends_trans; [apply extends_advanceWhile |].
    apply extends_addTokenText; discriminate.
  - apply extends_addTokenText; discriminate.
Qed.

Lemma keywords_ordinary txt t : keywords !! txt = Some t → t ≠ EOF_TOKEN ∧ t ≠ ERROR.
Proof.
  unfold keywords. intros H. apply elem_of_list_to_map_2 in H.
  repeat (apply elem_of_cons in H as [[= _ ->] | H]; [split; discriminate |]).
  apply elem_of_nil in H. destruct H.
Qed.

Lemma extends_scanIdentifier st : extends st (scanIdentifier source st).
Proof.
  unfold scanIdentifier.
  match goal with |- context [keywords !! lexeme source ?s] => set (st1 := s) end.
  assert (extends st st1) as H1 by apply extends_advanceWhile.
  apply (extends_trans _ _ _ H1).
  destruct (keywords !! lexeme source st1) as [t |] eqn:E.
  - destruct (keywords_ordinary _ _ E). apply extends_addToken; assumption.
  - apply extends_addTokenText; discriminate.
Qed.

Lemma extends_slash st :
  extends st
    (let '(m, st) := match_ source "/" st in
     if m then skipComment source (String.length source) st
     else let '(m, st) := match_ source "=" st in
          if m then addToken source SLASH_EQUAL st else addToken source SLASH st).
Proof.
  pose proof (extends_match_ "/"%char st) as Hm.
  destruct (match_ source "/" st) as [m st1]. cbn [snd] in Hm.
  apply (extends_trans _ _ _ Hm). destruct m; [apply extends_skipComment |].
  pose proof (extends_match_ "="%char st1) as Hm1.
  destruct (match_ source "=" st1) as [m st2]. cbn [snd] in Hm1.
  apply (extends_trans _ _ _ Hm1). destruct m; apply extends_addToken; discriminate.
Qed.

Ltac extends_token :=
  first
    [ apply extends_refl
    | apply extends_addToken; discriminate
    | apply extends_addTokenEq; discriminate
    | apply extends_slash
    | apply extends_scanString
    | apply extends_scanNumber
    | apply extends_scanIdentifier
    | apply extends_error
    | apply extends_same; reflexivity ].

(** What [scanToken] does after its [advance]. *)
Lemma extends_scanToken st : extends (snd (advance source st)) (scanToken source st).
Proof.
  unfold scanToken. destruct (advance source st) as [c st1]. cbn [snd].
  destruct c as [[] [] [] [] [] [] [] []]; cbv beta iota;
    try extends_token;
    repeat match goal with |- context [if ?b then _ else _] => destruct b end;
    extends_token.
Qed.

(** A round of the scanning loop consumes at least one character and stays
    inside the source. *)
Lemma scanToken_progress st :
  isAtEnd source st = false →
  current st < current (scanToken source st)
  ∧ current (scanToken source st) <= String.length source
  ∧ ∃ new, tokens (scanToken source st) = tokens st ++ new ∧ Forall ordinary new.
Proof.
  intros E. destruct (advance_inside st E) as (_ & Hc & Ht & _).
  destruct (extends_scanToken st) as (H1 & H2 & new & H3 & H4).
  apply isAtEnd_false in E. rewrite Ht in H3.
  split; [lia | split; [lia |]]. exists new. split; assumption.
Qed.

Lemma tokenize_loop_spec fuel st :
  current st <= String.length source →
  String.length source - current st <= fuel →
  let st' := tokenize_loop source fuel st in
  current st' = String.length source
  ∧ ∃ new, tokens st' = tokens st ++ new ∧ Forall ordinary new.
Proof.
  revert st. induction fuel as [| fuel IH]; intros st Hle Hfuel; cbn [tokenize_loop].
  - split; [lia |]. exists []. rewrite app_nil_r. split; [reflexivity | constructor].
  - destruct (isAtEnd source st) eqn:E.
    + apply isAtEnd_true in E. split; [lia |].
      exists []. rewrite app_nil_r. split; [reflexivity | constructor].
    + set (st0 := mkState (current st) (current st) (cur_line st) (cur_column st)
                    (tokens st) (errors st)).
      destruct (scanToken_progress st0 E) as (H1 & H2 & new1 & H3 & H4).
      cbn [current tokens st0] in H1, H3.
      destruct (IH (scanToken source st0) H2 ltac:(lia)) as (H5 & new2 & H6 & H7).
      split; [exact H5 |]. exists (new1 ++ new2).
      rewrite H6, H3, app_assoc. split; [reflexivity |].
      apply Forall_app; split; assumption.
Qed.

Lemma peek_at_end st : isAtEnd source st = true → peek source st = NUL.
Proof. unfold peek. intros ->. reflexivity. Qed.

Lemma peek_inside st :
  isAtEnd source st = false → peek source st = char_at source (current st).
Proof. unfold peek. intros ->. reflexivity. Qed.

Lemma advanceWhile_exit fuel cond st :
  cond NUL = false →
  String.length source - current st < fuel ∨ isAtEnd source st = true →
  cond (peek source (advanceWhile source fuel cond st)) = false.
Proof.
  intros Hnul. revert st. induction fuel as [| fuel IH]; intros st Hfuel.
  - destruct Hfuel as [Hfuel | Hend]; [lia |]. cbn [advanceWhile].
    rewrite peek_at_end by exact Hend. exact Hnul.
  - cbn [advanceWhile]. destruct (cond (peek source st)) eqn:Ec; [| exact Ec].
    destruct (isAtEnd source st) eqn:E.
    { rewrite peek_at_end in Ec by exact E. congruence. }
    apply IH. left. destruct (advance_inside st E) as (_ & Hc & _).
    apply isAtEnd_false in E. destruct Hfuel as [Hfuel | Hend]; [lia | discriminate].
Qed.

Lemma skipComment_exit fuel st :
  String.length source - current st < fuel ∨ isAtEnd source st = true →
  peek source (skipComment source fuel st) = NEWLINE
  ∨ isAtEnd source (skipComment source fuel st) = true.
Proof.
  revert st. induction fuel as [| fuel IH]; intros st Hfuel.
  - destruct Hfuel as [Hfuel | Hend]; [lia |]. right. exact Hend.
  - cbn [skipComment].
    destruct (Ascii.eqb_spec (peek source st) NEWLINE) as [En | En]; [left; exact En |].
    destruct (isAtEnd source st) eqn:E; [right; exact E |].
    cbn [negb andb]. apply IH. left. destruct (advance_inside st E) as (_ & Hc & _).
    apply isAtEnd_false in E. destruct Hfuel as [Hfuel | Hend]; [lia | discriminate].
Qed.

Lemma scanString_loop_exit fuel value st :
  String.length source - current st < fuel ∨ isAtEnd source st = true →
  peek source (snd (scanString_loop source fuel value st)) = QUOTE
  ∨ isAtEnd source (snd (scanString_loop source fuel value st)) = true.
Proof.
  revert value st. induction fuel as [| fuel IH]; intros value st Hfuel.
  - destruct Hfuel as [Hfuel | Hend]; [lia |]. right. exact Hend.
  - cbn [scanString_loop].
    destruct (Ascii.eqb_spec (peek source st) QUOTE) as [En | En]; [left; exact En |].
    destruct (isAtEnd source st) eqn:E; [right; exact E |].
    cbn [negb andb].
    match goal with |- context [Ascii.eqb (peek source ?s) BACKSLASH] => set (st1 := s) end.
    assert (current st1 = current st) as Hc1
      by (subst st1; destruct (Ascii.eqb _ NEWLINE); reflexivity).
    assert (isAtEnd source st1 = false) as E1
      by (apply isAtEnd_false; rewrite Hc1; apply isAtEnd_false, E).
    destruct (advance_inside st1 E1) as (_ & Hc & _).
    apply isAtEnd_false in E.
    assert (String.length source - current (snd (advance source st1)) < fuel) as Hnext
      by (destruct Hfuel as [Hfuel | Hend]; [lia | discriminate]).
    destruct (Ascii.eqb (peek source st1) BACKSLASH).
    + apply IH. left.
      destruct (extends_advance (snd (advance source st1))) as (Hle & _). lia.
    + destruct (advance source st1) as [c st2]. cbn [snd] in *. apply IH. left. exact Hnext.
Qed.

Lemma advance_keeps st :
  tokens (snd (advance source st)) = tokens st
  ∧ errors (snd (advance source st)) = errors st.
Proof.
  unfold advance. destruct (isAtEnd source st); [split; reflexivity |].
  destruct (Ascii.eqb _ _); split; reflexivity.
Qed.

Lemma scanString_loop_keeps fuel value st :
  tokens (snd (scanString_loop source fuel value st)) = tokens st
  ∧ errors (snd (scanString_loop source fuel value st)) = errors st.
Proof.
  revert value st. induction fuel as [| fuel IH]; intros value st; [split; reflexivity |].
  cbn [scanString_loop]. destruct (_ && _); [| split; reflexivity].
  match goal with |- context [Ascii.eqb (peek source ?s) BACKSLASH] => set (st1 := s) end.
  assert (tokens st1 = tokens st ∧ errors st1 = errors st) as [Ht He]
    by (subst st1; destruct (Ascii.eqb _ NEWLINE); split; reflexivity).
  destruct (Ascii.eqb (peek source st1) BACKSLASH).
  - match goal with |- context [scanString_loop source fuel ?v ?s] =>
      destruct (IH v s) as [-> ->] end.
    destruct (advance_keeps (snd (advance source st1))) as [-> ->].
    destruct (advance_keeps st1) as [-> ->]. split; assumption.
  - pose proof (advance_keeps st1) as Ha.
    destruct (advance source st1) as [c st2]. cbn [snd] in Ha.
    destruct (IH (value +:+ String c "")%string st2) as [-> ->].
    destruct Ha as [-> ->]. split; assumption.
Qed.

End WithSource.

(** Every loop of the lexer ends by its own exit condition within as many
    rounds as the source has characters: the scanning loop of [tokenize]
    reaches the end of the source, and the loops over digits and identifier
    characters, over a comment and over a string literal stop at a
    character that ends them or at the end of the source. *)
Theorem lexer_loops_end_by_their_own_condition (source : string) :
  isAtEnd source (tokenize_loop source (String.length source) (mkState 0 0 1 1 [] [])) = true
  ∧ (∀ cond st, cond NUL = false → 0 < current st →
       cond (peek source (advanceWhile source (String.length source) cond st)) = false)
  ∧ (∀ st, 0 < current st →
       peek source (skipComment source (String.length source) st) = NEWLINE
       ∨ isAtEnd source (skipComment source (String.length source) st) = true)
  ∧ (∀ value st, 0 < current st →
       peek source (snd (scanString_loop source (String.length source) value st)) = QUOTE
       ∨ isAtEnd source (snd (scanString_loop source (String.length source) value st)) = true).
Proof.
  assert (∀ st, 0 < current st →
            String.length source - current st < String.length source
            ∨ isAtEnd source st = true) as Hfuel.
  { intros st Hst. destruct (isAtEnd source st) eqn:E; [right; reflexivity | left].
    apply isAtEnd_false in E. lia. }
  split; [| split; [| split]].
  - apply isAtEnd_true.
    destruct (tokenize_loop_spec source (String.length source) (mkState 0 0 1 1 [] []))
      as [H _]; cbn [current]; lia.
  - intros cond st Hnul Hst. apply advanceWhile_exit; [exact Hnul | exact (Hfuel st Hst)].
  - intros st Hst. apply skipComment_exit, Hfuel, Hst.
  - intros value st Hst. apply scanString_loop_exit, Hfuel, Hst.
Qed.

(** The loops over the digits of [12+3], over the comment of [//a] and
    over the string of a source that never closes it. *)
Lemma lexer_loops_end_by_their_own_condition_witness :
  isdigit NUL = false
  ∧ isdigit (peek "12+3" (advanceWhile "12+3" 4 isdigit (mkState 0 1 1 2 [] []))) = false
  ∧ (peek "//a" (skipComment "//a" 3 (mkState 0 2 1 3 [] [])) = NEWLINE
     ∨ isAtEnd "//a" (skipComment "//a" 3 (mkState 0 2 1 3 [] [])) = true)
  ∧ isAtEnd "1 2" (tokenize_loop "1 2" 3 (mkState 0 0 1 1 [] [])) = true.
Proof.
  split; [reflexivity |].
  destruct (lexer_loops_end_by_their_own_condition "12+3") as (_ & Hwhile & _).
  destruct (lexer_loops_end_by_their_own_condition "//a") as (_ & _ & Hcomment & _).
  destruct (lexer_loops_end_by_their_own_condition "1 2") as (Hloop & _).
  split; [apply (Hwhile isdigit (mkState 0 1 1 2 [] [])); [reflexivity | cbn; lia] |].
  split; [apply (Hcomment (mkState 0 2 1 3 [] [])); cbn; lia |].
  exact Hloop.
Defined.

(** The token list that [tokenize] returns ends with the end marker, whose
    text is empty, and holds no other end marker and no [ERROR] token:
    lexical errors are only reported in the error list. *)
Theorem tokens_end_with_the_only_end_marker (source : string) :
  ∃ body eof,
    fst (tokenize source) = body ++ [eof]
    ∧ type eof = EOF_TOKEN ∧ text eof = ""%string
    ∧ Forall ordinary body.
Proof.
  destruct (tokenize_loop_spec source (String.length source) (mkState 0 0 1 1 [] []))
    as (_ & new & Hnew & Hord); cbn [current]; [lia | lia |].
  unfold tokenize. cbn [fst]. rewrite Hnew. cbn [tokens app].
  eexists new, _. split; [reflexivity |]. split; [reflexivity |]. split; [reflexivity | exact Hord].
Qed.

Lemma get_in (s : string) (i : nat) (c : ascii) :
  String.get i s = Some c → c ∈ list_ascii_of_string s.
Proof.
  revert i. induction s as [| a s IH]; intros i H; [discriminate |].
  destruct i as [| i]; cbn in H |- *.
  - injection H as ->. apply elem_of_cons. left. reflexivity.
  - apply elem_of_cons. right. exact (IH i H).
Qed.

Lemma get_inside (s : string) (i : nat) :
  i < String.length s → ∃ c, String.get i s = Some c.
Proof.
  revert i. induction s as [| a s IH]; intros i H; [cbn in H; lia |].
  destruct i as [| i]; cbn in H |- *; [eexists; reflexivity |].
  apply IH. lia.
Qed.

Lemma char_at_in (s : string) (i : nat) :
  i < String.length s → char_at s i ∈ list_ascii_of_string s.
Proof.
  intros H. unfold char_at. destruct (get_inside s i H) as [c E]. rewrite E.
  exact (get_in s i c E).
Qed.

Lemma substring_all (s : string) : String.substring 0 (String.length s) s = s.
Proof. induction s as [| a s IH]; [reflexivity |]. cbn. rewrite IH. reflexivity. Qed.

(** A string literal that is never closed swallows the rest of the source:
    when no quote follows the opening one, the lexer returns no token but
    the end marker and exactly one error, "Unterminated string", reported
    at the position of the end of the source. *)
Theorem unterminated_string_swallows_the_source (s : string) :
  QUOTE ∉ list_ascii_of_string s →
  ∃ l c,
    tokenize (String QUOTE s)
    = ([mkToken EOF_TOKEN "" l c],
       [("Lexer error at line " +:+ pretty l +:+ ", column " +:+ pretty c
         +:+ ": Unterminated string")%string]).
Proof.
  intros Hq. set (source := String QUOTE s).
  set (st1 := mkState 0 1 1 2 [] []).
  assert (scanToken source (mkState 0 0 1 1 [] []) = scanString source st1) as Hscan
    by reflexivity.
  pose proof (scanString_loop_exit source (String.length source) "" st1) as Hexit.
  pose proof (scanString_loop_keeps source (String.length source) "" st1) as [Htok Herr].
  pose proof (extends_scanString_loop source (String.length source) "" st1) as (Hle & Hin & _).
  assert (isAtEnd source (snd (scanString_loop source (String.length source) "" st1)) = true)
    as Hend.
  { destruct Hexit as [Hpeek | Hend]; [left; cbn; lia | | exact Hend].
    destruct (isAtEnd source (snd (scanString_loop source (String.length source) "" st1)))
      eqn:E; [reflexivity | exfalso].
    rewrite peek_inside in Hpeek by exact E. apply isAtEnd_false in E.
    cbn [current st1] in Hle.
    destruct (current (snd (scanString_loop source (String.length source) "" st1)))
      as [| i] eqn:Ei; [lia |].
    apply Hq. rewrite <- Hpeek. subst source. unfold char_at. cbn [String.get].
    apply (char_at_in s i). cbn [String.length] in E. lia. }
  assert (∃ st2, scanString source st1 = error "Unterminated string" st2
                 ∧ isAtEnd source st2 = true ∧ tokens st2 = [] ∧ errors st2 = []) as Hst2.
  { unfold scanString.
    destruct (scanString_loop source (String.length source) "" st1) as [v st2].
    cbn [snd] in *. rewrite Hend. exists st2. repeat split; assumption. }
  destruct Hst2 as (st2 & Hs & Hend2 & Htok2 & Herr2).
  exists (cur_line st2), (cur_column st2).
  unfold tokenize. change (String.length source) with (S (String.length s)).
  cbn [tokenize_loop]. change (isAtEnd source (mkState 0 0 1 1 [] [])) with false.
  cbv beta iota. cbn [current cur_line cur_column tokens errors].
  rewrite Hscan, Hs.
  assert (tokenize_loop source (String.length s) (error "Unterminated string" st2)
          = error "Unterminated string" st2) as ->.
  { destruct (String.length s); [reflexivity |]. cbn [tokenize_loop].
    change (isAtEnd source (error "Unterminated string" st2)) with (isAtEnd source st2).
    rewrite Hend2. reflexivity. }
  unfold error. cbn [tokens errors cur_line cur_column]. rewrite Htok2, Herr2. reflexivity.
Qed.

Lemma unterminated_string_swallows_the_source_witness :
  ∃ l c,
    tokenize (String QUOTE "int x = 1;")
    = ([mkToken EOF_TOKEN "" l c],
       [("Lexer error at line " +:+ pretty l +:+ ", column " +:+ pretty c
         +:+ ": Unterminated string")%string]).
Proof.
  apply (unterminated_string_swallows_the_source "int x = 1;").
  cbn [list_ascii_of_string].
  repeat (apply not_elem_of_cons; split; [discriminate |]). apply not_elem_of_nil.
Defined.

Lemma advanceWhile_all (source : string) (cond : ascii → bool) (fuel : nat) (st : State) :
  (∀ c, cond c = true → c ≠ NEWLINE) →
  (∀ i, current st <= i < String.length source → cond (char_at source i) = true) →
  current st <= String.length source →
  String.length source - current st <= fuel →
  advanceWhile source fuel cond st
  = mkState (start st) (String.length source) (cur_line st)
      (cur_column st + (String.length source - current st)) (tokens st) (errors st).
Proof.
  intros Hnl. revert st.
  assert (∀ st, current st = String.length source →
            st = mkState (start st) (String.length source) (cur_line st)
                   (cur_column st + (String.length source - current st))
                   (tokens st) (errors st)) as Hsame.
  { intros [a b c d e f] H. cbn in *. subst b. f_equal. lia. }
  induction fuel as [| fuel IH]; intros st Hall Hle Hfuel.
  - cbn [advanceWhile]. apply Hsame. lia.
  - cbn [advanceWhile]. destruct (isAtEnd source st) eqn:E.
    + pose proof E as E'. apply isAtEnd_true in E'.
      destruct (cond (peek source st)); [| apply Hsame; lia].
      rewrite advance_at_end by exact E. cbn [snd]. apply IH; [exact Hall | lia | lia].
    + pose proof E as E'. apply isAtEnd_false in E'.
      rewrite peek_inside by exact E. rewrite Hall by lia.
      unfold advance. rewrite E.
      destruct (Ascii.eqb_spec (char_at source (current st)) NEWLINE) as [En | _].
      { exfalso. apply (Hnl _ (Hall (current st) ltac:(lia))). exact En. }
      cbn [snd]. rewrite IH; cbn [current start cur_line cur_column tokens errors].
      * f_equal. lia.
      * intros i Hi. apply Hall. lia.
      * lia.
      * lia.
Qed.

(** A source that consists of decimal digits only is one [NUMBER] token
    whose text is the whole source. The token carries the position the
    lexer has reached after it, column [length + 1], not the column where
    the literal begins. *)
Theorem digits_lex_as_one_number (s : string) :
  s ≠ ""%string →
  Forall (λ c, isdigit c = true) (list_ascii_of_string s) →
  tokenize s
  = ([mkToken NUMBER s 1 (S (String.length s));
      mkToken EOF_TOKEN "" 1 (S (String.length s))], []).
Proof.
  destruct s as [| c s']; [congruence | intros _ Hall].
  set (source := String c s').
  set (st1 := mkState 0 1 1 2 [] []).
  assert (Hc : isdigit c = true) by (apply Forall_cons in Hall as [Hc _]; exact Hc).
  assert (scanToken source (mkState 0 0 1 1 [] []) = scanNumber source st1) as Hscan.
  { subst source st1. clear Hall.
    destruct c as [[] [] [] [] [] [] [] []]; first [discriminate Hc | reflexivity]. }
  assert (advanceWhile source (String.length source) isdigit st1
          = mkState 0 (String.length source) 1 (S (String.length source)) [] []) as Hdigits.
  { rewrite advanceWhile_all.
    - cbn [start cur_line cur_column tokens errors current st1]. f_equal.
      subst source. cbn [String.length]. lia.
    - intros a Ha ->. discriminate Ha.
    - intros i Hi.
      pose proof (char_at_in source i ltac:(lia)) as Hin.
      rewrite Forall_forall in Hall. apply Hall. exact Hin.
    - subst source. cbn. lia.
    - cbn. lia. }
  assert (scanNumber source st1
          = mkState 0 (String.length source) 1 (S (String.length source))
              [mkToken NUMBER source 1 (S (String.length source))] []) as Hnum.
  { unfold scanNumber. rewrite Hdigits.
    rewrite (peek_at_end source) by (apply isAtEnd_true; cbn [current]; lia).
    cbn [Ascii.eqb andb]. unfold addTokenText, lexeme.
    cbn [NUL Ascii.zero Ascii.eqb Bool.eqb andb start current cur_line cur_column tokens errors app].
    rewrite Nat.sub_0_r, substring_all. reflexivity. }
  assert (tokenize_loop source (String.length source) (mkState 0 0 1 1 [] [])
          = mkState 0 (String.length source) 1 (S (String.length source))
              [mkToken NUMBER source 1 (S (String.length source))] []) as Hloop.
  { change (String.length source) with (S (String.length s')) at 1.
    cbn [tokenize_loop]. change (isAtEnd source (mkState 0 0 1 1 [] [])) with false.
    cbv beta iota. cbn [current cur_line cur_column tokens errors].
    rewrite Hscan, Hnum.
    destruct (String.length s'); [reflexivity |]. cbn [tokenize_loop].
    match goal with |- context [isAtEnd source ?st] =>
      replace (isAtEnd source st) with true
        by (symmetry; apply isAtEnd_true; cbn [current]; lia) end.
    reflexivity. }
  unfold tokenize. rewrite Hloop. reflexivity.
Qed.

Lemma digits_lex_as_one_number_witness :
  tokenize "2024" = ([mkToken NUMBER "2024" 1 5; mkToken EOF_TOKEN "" 1 5], []).
Proof.
  apply (digits_lex_as_one_number "2024").
  - discriminate.
  - repeat constructor.
Defined.

End LexerMoreFacts.

(** * Properties of the virtual machine *)

Module VMFacts.
Import TVM VM BasicFacts.

Lemma op_bind_ok {A B} (m : Op A) (k : A → Op B) st a st' :
  m st = Ok (a, st') → VM.bind m k st = k a st'.
Proof. unfold VM.bind. intros ->. reflexivity. Qed.

Lemma peek_top (st : State) (v : Value) (rest : list Value) :
  stack st = v :: rest → peek 0 st = Ok (v, st).
Proof.
  intros Hst. unfold peek, VM.bind, get. rewrite Hst.
  replace (len (v :: rest) <=? 0) with false; [reflexivity |].
  symmetry. apply Z.leb_gt. unfold len. simpl. lia.
Qed.

Lemma growGlobals_eq (index : Z) (st : State) :
  growGlobals index st
  = Ok (tt, if len (globals st) <=? index
            then set_globals (resize (Z.to_nat (u32 (index + 1))) VNil (globals st)) st
            else st).
Proof.
  unfold growGlobals, VM.bind, get, modify, VM.ret.
  destruct (len (globals st) <=? index); reflexivity.
Qed.






(** C8, as the code has it. With [a] below [b] on top of the stack:
    [SUB] and [MUL] throw exactly when the operands are not two ints or two
    floats; [DIV] throws exactly then or when the divisor is an int or float
    zero; [MOD] throws exactly when the operands are not two ints or the
    divisor is zero; each of them throws a runtime error with the message
    of its case. At [INT64_MIN] below [-1], [DIV] and [MOD] throw nothing
    and return nothing: the division overflows, which C++ leaves undefined
    and which ends the process with SIGFPE. [ADD] never throws, and for
    operands that are neither both numeric nor include a string it pushes
    nil. *)
Theorem arithmetic_type_errors (F : FloatOps) (st : State) (a b : Value) (rest : list Value) :
  let st' := set_stack (b :: a :: rest) st in
  failed (opSub F st') = negb (same_numeric a b)
  /\ failed (opMul F st') = negb (same_numeric a b)
  /\ (if div_overflow a b then opDiv F st' = division_overflow st'
      else failed (opDiv F st') = (negb (same_numeric a b) || zero_divisor b))
  /\ (if div_overflow a b then opMod st' = division_overflow st'
      else failed (opMod st') = (negb (both_int a b) || zero_divisor b))
  /\ failed (opAdd F st') = false
  /\ (if add_accepts a b then True
      else opAdd F st' = Ok (tt, set_stack (VNil :: rest) st))
  /\ (same_numeric a b = false →
      opSub F st' = runtimeError "Invalid types for subtraction" st'
      /\ opMul F st' = runtimeError "Invalid types for multiplication" st')
  /\ (zero_divisor b = true → opDiv F st' = runtimeError "Division by zero" st')
  /\ (zero_divisor b = false → same_numeric a b = false →
      opDiv F st' = runtimeError "Invalid types for division" st')
  /\ (both_int a b = false → opMod st' = runtimeError "Invalid types for modulo" st')
  /\ (both_int a b = true → zero_divisor b = true →
      opMod st' = runtimeError "Modulo by zero" st').
Proof.
  intros st'. subst st'.
  assert (∀ x y, overflows x y = true → (y =? 0) = false) as Hov.
  { intros x y H. unfold overflows in H. apply andb_true_iff in H as [_ H].
    apply Z.eqb_eq in H. subst y. reflexivity. }
  split; [| split; [| split; [| split; [| split; [| split; [| split; [| split;
    [| split; [| split]]]]]]]]].
  - destruct a, b; reflexivity.
  - destruct a, b; reflexivity.
  - destruct a as [| x | x | x | x | x | x | x | x], b as [| y | y | y | y | y | y | y | y];
      cbn [div_overflow]; try reflexivity;
      try (cbn; destruct (float_is_zero y); reflexivity);
      try (cbn; destruct y; reflexivity).
    destruct (overflows x y) eqn:E; unfold opDiv; cbn -[overflows].
    + destruct y as [| p | p]; [discriminate (Hov x 0 E) | |];
        cbn -[overflows]; rewrite E; reflexivity.
    + destruct y as [| p | p]; cbn -[overflows]; try rewrite E; reflexivity.
  - destruct a as [| x | x | x | x | x | x | x | x], b as [| y | y | y | y | y | y | y | y];
      cbn [div_overflow]; try reflexivity;
      try (cbn; destruct (float_is_zero y); reflexivity).
    destruct (overflows x y) eqn:E; unfold opMod; cbn -[overflows Z.eqb].
    + rewrite (Hov x y E). cbn -[overflows]. rewrite E. reflexivity.
    + destruct (y =? 0); cbn -[overflows]; try rewrite E; reflexivity.
  - destruct a, b; reflexivity.
  - destruct a, b; reflexivity.
  - intros H. destruct a, b; try discriminate H; split; reflexivity.
  - intros H. destruct b as [| y | y | y | y | y | y | y | y]; try discriminate H; cbn in H.
    + apply Z.eqb_eq in H. subst y. destruct a; reflexivity.
    + unfold opDiv. cbn. rewrite H. destruct a; reflexivity.
  - intros Hz H. destruct a as [| x | x | x | x | x | x | x | x],
      b as [| y | y | y | y | y | y | y | y]; try discriminate H; cbn in Hz;
      try reflexivity;
      try (unfold opDiv; cbn; rewrite Hz; reflexivity);
      try (unfold opDiv; cbn; destruct y; [discriminate Hz | reflexivity | reflexivity]).
  - intros H. destruct a, b; try discriminate H; reflexivity.
  - intros H Hz. destruct a as [| x | x | x | x | x | x | x | x],
      b as [| y | y | y | y | y | y | y | y]; try discriminate H.
    cbn in Hz. unfold opMod. cbn. rewrite Hz. reflexivity.
Qed.

(** C8 as stated fails: two nils are outside the types the claim gives for
    [ADD], and [ADD] returns normally with nil pushed. *)
Lemma add_of_two_nils_is_no_error :
  add_accepts VNil VNil = false
  /\ ∀ F : FloatOps,
      opAdd F (set_stack [VNil; VNil] example_before_call)
      = Ok (tt, set_stack [VNil] example_before_call)
      /\ stack (set_stack [VNil; VNil] example_before_call) = [VNil; VNil]
      /\ stack (set_stack [VNil] example_before_call) = [VNil].
Proof. split; [reflexivity | intros F; repeat split; reflexivity]. Qed.

(** [LOAD index] pushes [locals[index]], whatever the call stack holds. *)
Lemma opLoad_absolute (st : State) (index : Z) (v : Value) :
  0 <= index → locals_ st !! Z.to_nat index = Some v →
  opLoad index st = Ok (tt, set_stack (v :: stack st) st).
Proof.
  intros Hi Hv. unfold opLoad. rewrite (op_bind_ok get _ st st st eq_refl).
  pose proof (lookup_lt_Some _ _ _ Hv) as Hlt.
  destruct (Z.leb_spec (len (locals_ st)) index) as [Hle | _]; [unfold len in Hle; lia |].
  rewrite at_lookup, Hv by lia. reflexivity.
Qed.

Lemma storeLocal_in_range (index : Z) (v : Value) (st : State) :
  0 <= index < len (locals_ st) →
  storeLocal index v st = Ok (tt, set_locals (<[Z.to_nat index := v]> (locals_ st)) st).
Proof.
  intros H. unfold storeLocal. rewrite (op_bind_ok get _ _ _ _ eq_refl).
  destruct (Z.leb_spec (len (locals_ st)) index); [lia | reflexivity].
Qed.

Lemma callFunction_args_spec (n : nat) :
  ∀ prog run pc_ (s : list Value) g (L : list Value) cs (ls : nat),
    (n <= length s)%nat → (ls + n <= length L)%nat → len L < 2 ^ 32 →
    callFunction_args (Z.of_nat ls) n (mkState prog run pc_ s g L cs)
    = Ok (tt, mkState prog run pc_ (drop n s) g
                (take ls L ++ rev (take n s) ++ drop (ls + n) L) cs).
Proof.
  induction n as [| i IH]; intros prog run pc_ s g L cs ls Hs HL Hlen.
  - rewrite Nat.add_0_r, take_0, drop_0. cbn [rev app callFunction_args]. rewrite take_drop. reflexivity.
  - destruct s as [| v s']; [simpl in Hs; lia |].
    cbn [callFunction_args].
    rewrite (op_bind_ok get _ _ _ _ eq_refl). cbn [stack].
    erewrite (op_bind_ok pop); [| reflexivity].
    assert (u32 (Z.of_nat ls + Z.of_nat i) = Z.of_nat (ls + i)) as ->.
    { unfold u32. rewrite Z.mod_small; unfold len in *; lia. }
    erewrite (op_bind_ok (storeLocal _ _));
      [| apply storeLocal_in_range; cbn [pop]; unfold len in *; cbn; lia].
    cbn [set_locals set_stack program running pc stack globals locals_ callStack].
    rewrite Nat2Z.id.
    simpl in Hs. unfold set_locals, set_stack.
    cbn [program running pc stack globals locals_ callStack].
    rewrite IH; [| lia | rewrite length_insert; lia | unfold len in *; rewrite length_insert; lia].
    do 3 f_equal.
    rewrite take_insert_ge by lia. f_equal.
    rewrite firstn_cons. cbn [rev]. rewrite <- app_assoc. f_equal.
    rewrite drop_insert_ge by lia. rewrite Nat.sub_diag.
    assert (ls + i < length L)%nat as Hin by lia.
    destruct (drop (ls + i)%nat L) as [| x rest] eqn:Hd.
    { apply (f_equal length) in Hd. rewrite length_drop in Hd. simpl in Hd. lia. }
    cbn. f_equal.
    replace (ls + S i)%nat with ((ls + i) + 1)%nat by lia.
    rewrite <- drop_drop, Hd. reflexivity.
Qed.

Lemma callFunction_drop_spec (n : nat) :
  ∀ prog run pc_ (s : list Value) g L cs,
    callFunction_drop n (mkState prog run pc_ s g L cs)
    = Ok (tt, mkState prog run pc_ (drop n s) g L cs).
Proof.
  induction n as [| i IH]; intros; [reflexivity |].
  cbn [callFunction_drop]. erewrite (op_bind_ok (modify _)); [| reflexivity].
  unfold set_stack. cbn [program running pc stack globals locals_ callStack].
  rewrite IH. destruct s as [| v s]; [| reflexivity].
  cbn [tail]. rewrite !drop_nil. reflexivity.
Qed.

(** What [CALL] does when the function exists, its parameters are among its
    locals, and the stack holds at least [arity] values: a frame is pushed,
    the locals vector grows by [f.locals] slots whose first [arity] hold the
    arguments (the deepest of them first), and [arity] values more than the
    arguments leave the operand stack. *)
Lemma callFunction_spec (st : State) (funcIndex : Z) (f : FunctionInfo) :
  findFunction (program st) funcIndex = Some f →
  0 <= arity f <= locals f →
  len (locals_ st) + locals f < 2 ^ 32 →
  arity f <= len (stack st) →
  let n := Z.to_nat (arity f) in
  callFunction funcIndex st
  = Ok (tt, mkState (program st) (running st) (address f)
              (drop (n + n) (stack st)) (globals st)
              (locals_ st ++ rev (take n (stack st))
                 ++ replicate (Z.to_nat (locals f) - n) VNil)
              (mkCallFrame (u32 (pc st + 1)) (len (locals_ st)) (arity f) f :: callStack st)).
Proof.
  intros Hf Har Hloc Hst n. destruct st as [prog run pc_ s g L cs].
  cbn [program running pc stack globals locals_ callStack] in *.
  unfold callFunction. rewrite (op_bind_ok get _ _ _ _ eq_refl).
  cbn [program stack]. rewrite Hf.
  destruct (Z.ltb_spec (len s) (arity f)) as [Hbad | _]; [lia |].
  pose proof (len_nonneg L) as HL0.
  assert (u32 (len L) = len L) as HuL by (unfold u32; apply Z.mod_small; lia).
  cbn [locals_ pc localStart]. rewrite HuL.
  assert (u32 (len L + locals f) = len L + locals f) as Hu
    by (unfold u32; apply Z.mod_small; lia).
  rewrite Hu.
  erewrite (op_bind_ok (modify _)); [| reflexivity].
  erewrite (op_bind_ok (modify _)); [| reflexivity].
  unfold set_callStack, set_locals.
  cbn [program running pc stack globals locals_ callStack].
  set (L' := resize (Z.to_nat (len L + locals f)) VNil L).
  assert (length L' = (length L + Z.to_nat (locals f))%nat) as HL'
    by (unfold L', len; rewrite length_resize; lia).
  unfold len at 1. 
  rewrite (op_bind_ok _ _ _ _ _
             (callFunction_args_spec (Z.to_nat (arity f)) prog run pc_ s g L' _ (length L)
                ltac:(unfold len in Hst; lia) ltac:(lia)
                ltac:(unfold len in *; lia))).
  rewrite (op_bind_ok _ _ _ _ _ (callFunction_drop_spec _ _ _ _ _ _ _ _)).
  unfold modify, set_pc. cbn [program running pc stack globals locals_ callStack].
  do 3 f_equal.
  - rewrite drop_drop. reflexivity.
  - unfold L'. rewrite resize_ge by (unfold len; lia).
    rewrite take_app_length. fold n. do 2 f_equal.
    rewrite drop_app_add' by reflexivity.
    rewrite drop_replicate. f_equal. unfold len, n. lia.
Qed.

(** C2, what the code does instead. Let [CALL] enter [f] from a frame
    that owns the slot [k] (so [local_start] of the new frame is not 0).
    [CALL] stores the [k]-th argument of [f] at [locals[local_start + k]],
    but [LOAD k], executed next in the body of [f], pushes [locals[k]], the
    caller's value [v]. *)
Theorem load_parameter_reads_caller_slot
    (st : State) (funcIndex : Z) (f : FunctionInfo) (k : Z) (v : Value) :
  findFunction (program st) funcIndex = Some f →
  0 <= arity f <= locals f →
  len (locals_ st) + locals f < 2 ^ 32 →
  arity f <= len (stack st) →
  0 <= k < arity f →
  locals_ st !! Z.to_nat k = Some v →
  ∃ st', callFunction funcIndex st = Ok (tt, st')
         /\ localStart <$> head (callStack st') = Some (len (locals_ st))
         /\ locals_ st' !! Z.to_nat (len (locals_ st) + k)
            = stack st !! Z.to_nat (arity f - 1 - k)
         /\ opLoad k st' = Ok (tt, set_stack (v :: stack st') st').
Proof.
  intros Hf Har Hloc Hst Hk Hv.
  eexists. split; [apply (callFunction_spec st funcIndex f Hf Har Hloc Hst) |].
  cbn [callStack head fmap option_fmap option_map localStart locals_ stack].
  split; [reflexivity |].
  pose proof (lookup_lt_Some _ _ _ Hv) as Hlt.
  split.
  - unfold len in *.
    replace (Z.to_nat (Z.of_nat (length (locals_ st)) + k))
      with (length (locals_ st) + Z.to_nat k)%nat by lia.
    rewrite lookup_app_r by lia.
    replace (length (locals_ st) + Z.to_nat k - length (locals_ st))%nat
      with (Z.to_nat k) by lia.
    assert (length (take (Z.to_nat (arity f)) (stack st)) = Z.to_nat (arity f)) as Hlen
      by (rewrite length_take; lia).
    rewrite lookup_app_l by (rewrite length_rev; lia).
    rewrite rev_alt. change (rev_append ?l []) with (reverse l).
    rewrite reverse_lookup by lia.
    rewrite Hlen, lookup_take_lt by lia.
    f_equal. lia.
  - apply opLoad_absolute; [lia |].
    cbn [locals_]. rewrite lookup_app_l by lia. exact Hv.
Qed.

Lemma load_parameter_reads_caller_slot_witness :
  ∃ st', callFunction 0 example_before_call = Ok (tt, st')
         /\ localStart <$> head (callStack st') = Some 1
         /\ locals_ st' !! 1%nat = Some (VInt 9)
         /\ opLoad 0 st' = Ok (tt, set_stack (VInt 7 :: stack st') st').
Proof.
  apply (load_parameter_reads_caller_slot example_before_call 0
           (mkFunctionInfo "f" 0 1 1) 0 (VInt 7));
    first [ reflexivity | vm_compute; intuition discriminate ].
Defined.

(** C3, what the code does instead. Under the same conditions [CALL]
    removes twice [f.arity] values from the operand stack (all of them when
    fewer are there): the arguments, which go to the callee's slots, and as
    many values from below them. *)
Theorem call_removes_twice_the_arity (st : State) (funcIndex : Z) (f : FunctionInfo) :
  findFunction (program st) funcIndex = Some f →
  0 <= arity f <= locals f →
  len (locals_ st) + locals f < 2 ^ 32 →
  arity f <= len (stack st) →
  ∃ st', callFunction funcIndex st = Ok (tt, st')
         /\ stack st' = drop (Z.to_nat (2 * arity f)) (stack st)
         /\ drop (length (locals_ st)) (take (length (locals_ st) + Z.to_nat (arity f)) (locals_ st'))
            = rev (take (Z.to_nat (arity f)) (stack st)).
Proof.
  intros Hf Har Hloc Hst.
  eexists. split; [apply (callFunction_spec st funcIndex f Hf Har Hloc Hst) |].
  cbn [stack locals_]. split.
  - f_equal. lia.
  - assert (length (rev (take (Z.to_nat (arity f)) (stack st))) = Z.to_nat (arity f)) as Hlen
      by (rewrite length_rev, length_take; unfold len in Hst; lia).
    rewrite take_app_add, drop_app_length.
    rewrite take_app_length' by (symmetry; exact Hlen). reflexivity.
Qed.

(** The example: three values before [CALL 0], one after it, and two after
    the body [LOAD 0; RET] of [f] has returned. *)
Lemma call_removes_twice_the_arity_witness :
  (∃ st', callFunction 0 example_before_call = Ok (tt, st')
          /\ stack st' = [VInt 7]
          /\ drop 1 (take 2 (locals_ st')) = [VInt 9])
  /\ callFunction 0 example_before_call = Ok (tt, example_after_call)
  /\ ∃ st, VM.bind (opLoad 0) (fun _ => returnFromFunction) example_after_call = Ok (tt, st)
           /\ stack st = [VInt 7; VInt 7] /\ pc st = 7.
Proof.
  split.
  - apply (call_removes_twice_the_arity example_before_call 0 (mkFunctionInfo "f" 0 1 1));
      first [ reflexivity | vm_compute; intuition discriminate ].
  - split; [reflexivity |]. eexists. repeat split.
Defined.

End VMFacts.

(** * Properties of the opcodes and of the run loop *)

Module VMExecFacts.
Import TVM VM VMExec BasicFacts VMFacts.

Lemma lift_ok {A} (op : Op A) (m : Machine) (a : A) (s : State) :
  op (vm m) = Ok (a, s) → lift op m = Ok (a, set_vm s m).
Proof. unfold lift. intros ->. reflexivity. Qed.

Lemma lift_err {A} (op : Op A) (m : Machine) (what : string) :
  op (vm m) = Err what → lift op m = Err what.
Proof. unfold lift. intros ->. reflexivity. Qed.

Lemma mbind_ok {A B} (c : M A) (k : A → M B) m a m' :
  c m = Ok (a, m') → mbind c k m = k a m'.
Proof. unfold mbind. intros ->. reflexivity. Qed.

Lemma pop_cons (st : State) (v : Value) (rest : list Value) :
  stack st = v :: rest → pop st = Ok (v, set_stack rest st).
Proof. intros Hst. unfold pop, VM.bind, get. rewrite Hst. reflexivity. Qed.

Lemma pop_nil (st : State) :
  stack st = [] →
  pop st = Err ("Runtime error at PC=" +:+ pretty (pc st) +:+ ": Stack underflow")%string.
Proof. intros Hst. unfold pop, VM.bind, get. rewrite Hst. reflexivity. Qed.

(** One round of the loop with tracing off. *)
Lemma step_untraced F C H (m : Machine) (instr : Instruction) :
  trace m = false →
  at_ (code (program (vm m))) (pc (vm m)) = Some instr →
  step F C H m
  = mbind (executeInstruction F C H instr)
      (fun _ => if sets_pc (opcode instr) then mret tt
                else lift (modify (fun st => set_pc (u32 (pc st + 1)) st))) m.
Proof.
  intros Ht Hi. unfold step. rewrite (mbind_ok mget _ m m m eq_refl), Hi, Ht.
  reflexivity.
Qed.

Lemma conditional_jump_result F C H (m : Machine) (instr : Instruction)
    (cond : Value) (rest : list Value) :
  trace m = false →
  at_ (code (program (vm m))) (pc (vm m)) = Some instr →
  opcode instr = OP_JMP_IF ∨ opcode instr = OP_JMP_IFNOT →
  stack (vm m) = cond :: rest →
  let taken := if opcode instr =? OP_JMP_IF then isTruthy cond else negb (isTruthy cond) in
  step F C H m
  = if taken && (len (code (program (vm m))) <=? operand instr)
    then Err ("Runtime error at PC=" +:+ pretty (pc (vm m))
              +:+ ": Jump address out of bounds")%string
    else Ok (tt, mkMachine
                   (mkState (program (vm m)) (running (vm m))
                      (if taken then operand instr else pc (vm m)) rest
                      (globals (vm m)) (locals_ (vm m)) (callStack (vm m)))
                   (trace m) (cout m) (cin m) (seed m)).
Proof.
  intros Ht Hi Hop Hst taken. rewrite (step_untraced F C H m instr Ht Hi).
  destruct instr as [op address]. cbn [opcode operand] in *.
  assert (∀ b : bool,
            (if b then opJmp address else VM.ret tt) (set_stack rest (vm m))
            = if b && (len (code (program (vm m))) <=? address)
              then Err ("Runtime error at PC=" +:+ pretty (pc (vm m))
                        +:+ ": Jump address out of bounds")%string
              else Ok (tt, mkState (program (vm m)) (running (vm m))
                             (if b then address else pc (vm m)) rest
                             (globals (vm m)) (locals_ (vm m)) (callStack (vm m))))
    as Hjump.
  { intros []; [| reflexivity].
    unfold opJmp. rewrite (op_bind_ok get _ _ _ _ eq_refl). cbn [program set_stack andb].
    destruct (len (code (program (vm m))) <=? address); reflexivity. }
  assert (∀ o : Op unit,
            o (vm m)
            = (if taken && (len (code (program (vm m))) <=? address)
               then Err ("Runtime error at PC=" +:+ pretty (pc (vm m))
                         +:+ ": Jump address out of bounds")%string
               else Ok (tt, mkState (program (vm m)) (running (vm m))
                              (if taken then address else pc (vm m)) rest
                              (globals (vm m)) (locals_ (vm m)) (callStack (vm m)))) →
            sets_pc op = true →
            mbind (lift o)
              (fun _ => if sets_pc op then mret tt
                        else lift (modify (fun st => set_pc (u32 (pc st + 1)) st))) m
            = if taken && (len (code (program (vm m))) <=? address)
              then Err ("Runtime error at PC=" +:+ pretty (pc (vm m))
                        +:+ ": Jump address out of bounds")%string
              else Ok (tt, mkMachine
                             (mkState (program (vm m)) (running (vm m))
                                (if taken then address else pc (vm m)) rest
                                (globals (vm m)) (locals_ (vm m)) (callStack (vm m)))
                             (trace m) (cout m) (cin m) (seed m))) as Hlift.
  { intros o Hop' Hs. unfold mbind, lift. rewrite Hop', Hs.
    destruct (taken && _); reflexivity. }
  destruct Hop as [-> | ->]; subst taken; cbn [Z.eqb OP_JMP_IF OP_JMP_IFNOT Pos.eqb] in *.
  - change (executeInstruction F C H (mkInstruction OP_JMP_IF address))
      with (lift (opJmpIf address)).
    apply Hlift; [| reflexivity]. unfold opJmpIf.
    rewrite (op_bind_ok _ _ _ _ _ (pop_cons _ _ _ Hst)). apply Hjump.
  - change (executeInstruction F C H (mkInstruction OP_JMP_IFNOT address))
      with (lift (opJmpIfNot address)).
    apply Hlift; [| reflexivity]. unfold opJmpIfNot.
    rewrite (op_bind_ok _ _ _ _ _ (pop_cons _ _ _ Hst)). apply Hjump.
Qed.

(** A conditional jump pops its condition; the jump is taken when the
    condition is truthy ([JMP_IF]) or not truthy ([JMP_IFNOT]). After the
    round the operand stack of the machine is the rest of the stack, and
    its [pc] is the operand when the jump is taken and the old [pc] when
    it is not: the loop skips its [pc++] after every jump opcode, so the
    same instruction is executed again, on the rest of the stack. Nothing
    else of the machine changes. A jump that is taken to an address
    outside the code throws "Jump address out of bounds". *)
Theorem conditional_jump_step F C H (m : Machine) (instr : Instruction)
    (cond : Value) (rest : list Value) :
  trace m = false →
  at_ (code (program (vm m))) (pc (vm m)) = Some instr →
  opcode instr = OP_JMP_IF ∨ opcode instr = OP_JMP_IFNOT →
  stack (vm m) = cond :: rest →
  let taken := if opcode instr =? OP_JMP_IF then isTruthy cond else negb (isTruthy cond) in
  (taken = true → len (code (program (vm m))) <= operand instr →
   step F C H m
   = Err ("Runtime error at PC=" +:+ pretty (pc (vm m))
          +:+ ": Jump address out of bounds")%string)
  ∧ (taken = false ∨ operand instr < len (code (program (vm m))) →
     ∃ m', step F C H m = Ok (tt, m')
       ∧ pc (vm m') = (if taken then operand instr else pc (vm m))
       ∧ stack (vm m') = rest
       ∧ globals (vm m') = globals (vm m) ∧ locals_ (vm m') = locals_ (vm m)
       ∧ callStack (vm m') = callStack (vm m) ∧ running (vm m') = running (vm m)
       ∧ program (vm m') = program (vm m)
       ∧ trace m' = trace m ∧ cout m' = cout m ∧ cin m' = cin m ∧ seed m' = seed m).
Proof.
  intros Ht Hi Hop Hst taken.
  pose proof (conditional_jump_result F C H m instr cond rest Ht Hi Hop Hst) as Hres.
  cbv zeta in Hres. fold taken in Hres. split.
  - intros Htaken Hout. rewrite Hres, Htaken.
    destruct (Z.leb_spec (len (code (program (vm m)))) (operand instr)); [reflexivity | lia].
  - intros Hin. eexists. split.
    + rewrite Hres.
      assert (taken && (len (code (program (vm m))) <=? operand instr) = false) as ->;
        [| reflexivity].
      destruct Hin as [-> | Hin]; [reflexivity |].
      destruct (Z.leb_spec (len (code (program (vm m)))) (operand instr)); [lia |].
      apply andb_false_r.
    + cbn [vm pc stack globals locals_ callStack running program trace cout cin seed].
      repeat split.
Qed.

(** The first test of the loop of the example: [true] is popped and the
    machine stays at the [JMP_IFNOT], at address 5. *)
Lemma conditional_jump_step_witness :
  isTruthy (VBool true) = true
  ∧ ∀ F C H,
      ∃ m', step F C H example_at_test = Ok (tt, m')
        ∧ pc (vm m') = 5
        ∧ stack (vm m') = [VInt 0].
Proof.
  split; [reflexivity |]. intros F C H.
  destruct (conditional_jump_step F C H example_at_test (mkInstruction OP_JMP_IFNOT 9)
              (VBool true) [VInt 0] eq_refl eq_refl (or_intror eq_refl) eq_refl)
    as [_ Hstep].
  destruct (Hstep (or_introl eq_refl)) as (m' & E & Hpc & Hstack & _).
  exists m'. split; [exact E |]. split; [exact Hpc | exact Hstack].
Defined.

(** What follows for that loop as a whole: the second execution of the
    [JMP_IFNOT] pops the 0 and leaves the loop, whose body never runs. *)
Lemma example_loop_prints_nothing F C H :
  match execute F C H 20 example_loop (machine_of (vm example_at_test)) with
  | Finished m => cout m = ""%string ∧ running (vm m) = false
  | _ => False
  end.
Proof. vm_compute. split; reflexivity. Qed.

(** ** Comparisons *)

(** With [a] below [b] on top of the stack, the four ordering opcodes
    throw exactly when the operands are not two ints or two floats; on two
    ints they push the boolean of the comparison. *)
Theorem ordering_opcodes (C : FloatCmp) (st : State) (rest : list Value) :
  (∀ a b,
     let st' := set_stack (b :: a :: rest) st in
     failed (opLt C st') = negb (same_numeric a b)
     ∧ failed (opLte C st') = negb (same_numeric a b)
     ∧ failed (opGt C st') = negb (same_numeric a b)
     ∧ failed (opGte C st') = negb (same_numeric a b))
  ∧ (∀ x y,
       let st' := set_stack (VInt y :: VInt x :: rest) st in
       opLt C st' = Ok (tt, set_stack (VBool (x <? y) :: rest) st)
       ∧ opLte C st' = Ok (tt, set_stack (VBool (x <=? y) :: rest) st)
       ∧ opGt C st' = Ok (tt, set_stack (VBool (y <? x) :: rest) st)
       ∧ opGte C st' = Ok (tt, set_stack (VBool (y <=? x) :: rest) st)).
Proof.
  split.
  - intros a b st'. subst st'.
    split; [| split; [| split]]; destruct a, b; reflexivity.
  - intros x y st'. subst st'. unfold opLt, opLte, opGt, opGte, opCompare.
    split; [| split; [| split]]; cbn; try rewrite Z.gtb_ltb; try rewrite Z.geb_leb;
      destruct st; reflexivity.
Qed.

Lemma text_of_int_eqb (x y : Z) : String.eqb (pretty x) (pretty y) = (x =? y).
Proof.
  destruct (Z.eqb_spec x y) as [-> | Hne]; [apply String.eqb_refl |].
  apply String.eqb_neq. intros Heq. apply Hne. exact (inj pretty x y Heq).
Qed.

(** [EQ] and [NEQ] compare what the two operands print as. On two ints
    that decides equality of the numbers; an int and a string that holds
    its decimal text are equal as well. Neither opcode throws when two
    operands are there. *)
Theorem equality_opcodes (F : FloatOps) (st : State) (rest : list Value) :
  (∀ x y,
     let st' := set_stack (VInt y :: VInt x :: rest) st in
     opEq F st' = Ok (tt, set_stack (VBool (x =? y) :: rest) st)
     ∧ opNeq F st' = Ok (tt, set_stack (VBool (negb (x =? y)) :: rest) st))
  ∧ (∀ x k,
       at_ (strings (program st)) k = Some (pretty x) →
       opEq F (set_stack (VString k :: VInt x :: rest) st)
       = Ok (tt, set_stack (VBool true :: rest) st))
  ∧ (∀ a b,
       failed (opEq F (set_stack (b :: a :: rest) st)) = false
       ∧ failed (opNeq F (set_stack (b :: a :: rest) st)) = false).
Proof.
  split; [| split].
  - intros x y st'. subst st'. split.
    + unfold opEq. cbn. unfold same_text. cbn [toString]. rewrite text_of_int_eqb.
      destruct st; reflexivity.
    + unfold opNeq. cbn. unfold same_text. cbn [toString]. rewrite text_of_int_eqb.
      destruct st; reflexivity.
  - intros x k Hk. unfold opEq. cbn. unfold same_text. cbn [toString].
    destruct st as [prog run pc_ s g L cs]. cbn [program] in *.
    rewrite Hk, String.eqb_refl. reflexivity.
  - intros a b. split; reflexivity.
Qed.

(** The int 5 and the string "5", in a machine whose string table holds
    that text. *)
Lemma equality_opcodes_witness :
  at_ (strings (program (mkState (mkBytecodeFile TAIL_MAGIC 1 0 [] [] ["5"%string] [] [] [] [] [])
                           true 0 [] [] [] []))) 0
  = Some (pretty 5)
  ∧ ∀ F,
      opEq F (set_stack [VString 0; VInt 5]
                (mkState (mkBytecodeFile TAIL_MAGIC 1 0 [] [] ["5"%string] [] [] [] [] [])
                   true 0 [] [] [] []))
      = Ok (tt, set_stack [VBool true]
                  (mkState (mkBytecodeFile TAIL_MAGIC 1 0 [] [] ["5"%string] [] [] [] [] [])
                     true 0 [] [] [] [])).
Proof.
  split; [reflexivity |]. intros F.
  destruct (equality_opcodes F
              (mkState (mkBytecodeFile TAIL_MAGIC 1 0 [] [] ["5"%string] [] [] [] [] [])
                 true 0 [] [] [] []) []) as (_ & Heq & _).
  apply (Heq 5 0). reflexivity.
Defined.

(** ** Variables *)

Lemma push_ok (v : Value) (st : State) : push v st = Ok (tt, set_stack (v :: stack st) st).
Proof. reflexivity. Qed.

Lemma len_grown (index : Z) (g : list Value) :
  0 <= index < 2 ^ 32 - 1 → len (grown index g) = Z.max (len g) (index + 1).
Proof.
  intros Hidx. pose proof (len_nonneg g) as H0. unfold grown.
  destruct (Z.leb_spec (len g) index); [| lia].
  unfold len. rewrite length_resize, u32_small by lia. unfold len in *. lia.
Qed.

Lemma at_grown (index j : Z) (g : list Value) :
  0 <= index < 2 ^ 32 - 1 → 0 <= j < len g → at_ (grown index g) j = at_ g j.
Proof.
  intros Hidx Hj. unfold grown. destruct (Z.leb_spec (len g) index); [| reflexivity].
  rewrite !at_lookup by lia. unfold len in *.
  rewrite u32_small by lia. apply lookup_resize; lia.
Qed.

Lemma growGlobals_grown (index : Z) (st : State) :
  growGlobals index st = Ok (tt, set_globals (grown index (globals st)) st).
Proof.
  rewrite growGlobals_eq. unfold grown.
  destruct (len (globals st) <=? index); [reflexivity | destruct st; reflexivity].
Qed.

Lemma opStoreGlobal_ok (st : State) (index : Z) (v : Value) (rest : list Value) :
  stack st = v :: rest → 0 <= index < 2 ^ 32 - 1 →
  opStoreGlobal index st
  = Ok (tt, set_globals (<[Z.to_nat index := v]> (grown index (globals st))) st).
Proof.
  intros Hst Hidx. pose proof (len_grown index (globals st) Hidx) as Hl.
  unfold opStoreGlobal.
  rewrite (op_bind_ok _ _ _ _ _ (growGlobals_grown index st)).
  rewrite (op_bind_ok _ _ _ _ _ (peek_top (set_globals _ st) v rest Hst)).
  rewrite (op_bind_ok get _ _ _ _ eq_refl). cbn [globals set_globals].
  destruct (Z.leb_spec (len (grown index (globals st))) index); [lia |].
  reflexivity.
Qed.

Lemma global_store_then_load_result (st : State) (index : Z) (v : Value) (rest : list Value) :
  stack st = v :: rest → 0 <= index < 2 ^ 32 - 1 →
  ∃ g, VM.bind (opStoreGlobal index) (fun _ => opLoadGlobal index) st
       = Ok (tt, set_stack (v :: v :: rest) (set_globals g st))
       ∧ at_ g index = Some v
       ∧ len g = Z.max (len (globals st)) (index + 1)
       ∧ ∀ j, 0 <= j < len (globals st) → j ≠ index → at_ g j = at_ (globals st) j.
Proof.
  intros Hst Hidx. pose proof (len_nonneg (globals st)) as H0.
  pose proof (len_grown index (globals st) Hidx) as Hl0.
  set (g0 := grown index (globals st)) in *.
  assert (len (<[Z.to_nat index := v]> g0) = len g0) as Hli
    by (unfold len; rewrite length_insert; reflexivity).
  exists (<[Z.to_nat index := v]> g0).
  split; [| split; [apply at_update; lia | split; [lia |]]].
  2:{ intros j Hj Hne. rewrite <- (at_grown index j (globals st)) by lia. fold g0.
      rewrite !at_lookup by lia. apply list_lookup_insert_ne. lia. }
  rewrite (op_bind_ok _ _ _ _ _ (opStoreGlobal_ok st index v rest Hst Hidx)). fold g0.
  unfold opLoadGlobal.
  rewrite (op_bind_ok _ _ _ _ _ (growGlobals_grown index _)). cbn [globals set_globals].
  assert (grown index (<[Z.to_nat index := v]> g0) = <[Z.to_nat index := v]> g0) as ->.
  { unfold grown. destruct (Z.leb_spec (len (<[Z.to_nat index := v]> g0)) index); [lia |].
    reflexivity. }
  rewrite (op_bind_ok get _ _ _ _ eq_refl). cbn [globals set_globals].
  rewrite at_update by lia. rewrite push_ok. cbn [stack set_globals]. rewrite Hst.
  destruct st; reflexivity.
Qed.

(** A value stored to a global slot is what a load of that slot pushes
    next: after [STORE_GLOBAL index; LOAD_GLOBAL index] the operand stack
    of the machine holds the value twice on top of the rest
    ([STORE_GLOBAL] does not pop), the global slot holds the value, the
    vector of globals has grown to hold the slot when it had to, the other
    slots that existed keep their values, and nothing else of the machine
    has changed. For an operand below 0xFFFFFFFF. *)
Theorem global_store_then_load (st : State) (index : Z) (v : Value) (rest : list Value) :
  stack st = v :: rest → 0 <= index < 2 ^ 32 - 1 →
  ∃ st', VM.bind (opStoreGlobal index) (fun _ => opLoadGlobal index) st = Ok (tt, st')
    ∧ stack st' = v :: v :: rest
    ∧ at_ (globals st') index = Some v
    ∧ len (globals st') = Z.max (len (globals st)) (index + 1)
    ∧ (∀ j, 0 <= j < len (globals st) → j ≠ index →
            at_ (globals st') j = at_ (globals st) j)
    ∧ locals_ st' = locals_ st ∧ callStack st' = callStack st
    ∧ pc st' = pc st ∧ running st' = running st ∧ program st' = program st.
Proof.
  intros Hst Hidx.
  destruct (global_store_then_load_result st index v rest Hst Hidx)
    as (g & E & Hat & Hlen & Hother).
  eexists. split; [exact E |].
  cbn [stack globals locals_ callStack pc running program set_stack set_globals].
  repeat split; assumption.
Qed.

(** In the state of the call example: the 9 on top goes to global 2. *)
Lemma global_store_then_load_witness :
  ∃ st', VM.bind (opStoreGlobal 2) (fun _ => opLoadGlobal 2) example_before_call = Ok (tt, st')
    ∧ stack st' = [VInt 9; VInt 9; VInt 1; VInt 7]
    ∧ at_ (globals st') 2 = Some (VInt 9)
    ∧ len (globals st') = 3.
Proof.
  destruct (global_store_then_load example_before_call 2 (VInt 9) [VInt 1; VInt 7]
              eq_refl ltac:(lia)) as (st' & E & Hs & Hat & Hlen & _).
  exists st'. split; [exact E |]. split; [exact Hs |]. split; [exact Hat | exact Hlen].
Defined.

(** Reading a global slot that was never written is no error: for a slot
    below 0xFFFFFFFF the vector of globals grows up to the slot, filled
    with nil, the operand stack of the machine gets a nil on top, and
    nothing else changes. At 0xFFFFFFFF the vector is resized to
    [index + 1 = 0] slots and the read is outside it, which C++ leaves
    undefined. *)
Theorem load_of_unset_global (st : State) (index : Z) :
  len (globals st) <= index →
  (index < 2 ^ 32 - 1 →
   ∃ st', opLoadGlobal index st = Ok (tt, st')
     ∧ stack st' = VNil :: stack st
     ∧ globals st'
       = globals st ++ replicate (Z.to_nat (index + 1 - len (globals st))) VNil
     ∧ locals_ st' = locals_ st ∧ callStack st' = callStack st
     ∧ pc st' = pc st ∧ running st' = running st ∧ program st' = program st)
  ∧ (index = 2 ^ 32 - 1 → opLoadGlobal index st = undefined_access st).
Proof.
  intros Hle. pose proof (len_nonneg (globals st)) as H0. unfold opLoadGlobal.
  rewrite (op_bind_ok _ _ _ _ _ (growGlobals_eq index st)).
  destruct (Z.leb_spec (len (globals st)) index); [| lia].
  rewrite (op_bind_ok get _ _ _ _ eq_refl). cbn [globals set_globals]. split.
  - intros Hlt. rewrite u32_small by lia. unfold len in *.
    rewrite resize_ge by lia.
    replace (Z.to_nat (index + 1) - length (globals st))%nat
      with (Z.to_nat (index + 1 - Z.of_nat (length (globals st)))) by lia.
    rewrite at_lookup by lia. rewrite lookup_app_r by lia.
    rewrite lookup_replicate_2 by lia.
    eexists. split; [reflexivity |]. repeat split.
  - intros ->. change (Z.to_nat (u32 (2 ^ 32 - 1 + 1))) with 0%nat.
    rewrite resize_0. reflexivity.
Qed.

Lemma load_of_unset_global_witness :
  len (globals example_before_call) <= 1
  ∧ (∃ st', opLoadGlobal 1 example_before_call = Ok (tt, st')
       ∧ stack st' = [VNil; VInt 9; VInt 1; VInt 7]
       ∧ globals st' = [VNil; VNil])
  ∧ opLoadGlobal (2 ^ 32 - 1) example_before_call
    = Err "undefined behaviour: vector index out of range"%string.
Proof.
  assert (len (globals example_before_call) <= 1) as H1 by (vm_compute; discriminate).
  assert (len (globals example_before_call) <= 2 ^ 32 - 1) as H2 by (vm_compute; discriminate).
  split; [exact H1 |]. split.
  - destruct (load_of_unset_global example_before_call 1 H1) as [Hin _].
    destruct (Hin ltac:(reflexivity)) as (st' & E & Hs & Hg & _).
    exists st'. split; [exact E |]. split; [exact Hs | exact Hg].
  - destruct (load_of_unset_global example_before_call (2 ^ 32 - 1) H2) as [_ Hout].
    apply Hout. reflexivity.
Defined.

(** ** Calls *)

(** A call that is followed at once by the return of the callee unwinds
    completely: the machine continues after the [CALL], the locals and the
    call stack are what they were, and only the operand stack has changed
    (by what [CALL] removed; the value on top is the return value, nil
    when nothing is left). *)
Theorem call_then_return (st : State) (funcIndex : Z) (f : FunctionInfo) :
  findFunction (program st) funcIndex = Some f →
  0 <= arity f <= locals f →
  len (locals_ st) + locals f < 2 ^ 32 →
  arity f <= len (stack st) →
  0 <= pc st < 2 ^ 32 - 2 →
  VM.bind (callFunction funcIndex) (fun _ => returnFromFunction) st
  = Ok (tt, mkState (program st) (running st) (pc st + 1)
              (match drop (Z.to_nat (2 * arity f)) (stack st) with
               | [] => [VNil]
               | remaining => remaining
               end)
              (globals st) (locals_ st) (callStack st)).
Proof.
  intros Hf Har Hloc Hst Hpc.
  rewrite (op_bind_ok _ _ _ _ _ (callFunction_spec st funcIndex f Hf Har Hloc Hst)).
  unfold returnFromFunction. rewrite (op_bind_ok get _ _ _ _ eq_refl).
  cbn [callStack]. rewrite (op_bind_ok (modify _) _ _ _ _ eq_refl).
  cbn [returnAddr]. rewrite u32_small by lia.
  destruct (Z.eqb_spec (pc st + 1) UINT32_MAX) as [Heq | _];
    [unfold UINT32_MAX in Heq; lia |].
  rewrite (op_bind_ok get _ _ _ _ eq_refl).
  unfold set_callStack. cbn [program running pc stack globals locals_ callStack localStart].
  replace (Z.to_nat (arity f) + Z.to_nat (arity f))%nat with (Z.to_nat (2 * arity f)) by lia.
  assert (resize (Z.to_nat (len (locals_ st))) VNil
            (locals_ st ++ rev (take (Z.to_nat (arity f)) (stack st))
               ++ replicate (Z.to_nat (locals f) - Z.to_nat (arity f)) VNil)
          = locals_ st) as Hres.
  { unfold len. rewrite Nat2Z.id. rewrite resize_le by (rewrite length_app; lia).
    apply take_app_length. }
  destruct (drop (Z.to_nat (2 * arity f)) (stack st)) as [| v left_];
    cbn; rewrite Hres; reflexivity.
Qed.

(** The call of the example, returned from at once. *)
Lemma call_then_return_witness :
  VM.bind (callFunction 0) (fun _ => returnFromFunction) example_before_call
  = Ok (tt, mkState example_program true 7 [VInt 7] [] [VInt 7]
              [mkCallFrame UINT32_MAX 0 0 (mkFunctionInfo "Main" 2 0 1)]).
Proof.
  apply (call_then_return example_before_call 0 (mkFunctionInfo "f" 0 1 1));
    first [ reflexivity | vm_compute; intuition discriminate ].
Defined.

(** ** Operands that are missing, opcodes that do not exist *)

(** An opcode that takes two operands throws [Stack underflow], with the
    address of the instruction in the message, when the stack holds fewer
    than two values. *)
Theorem binary_opcodes_need_two_operands F C H (m : Machine) (instr : Instruction) :
  trace m = false →
  at_ (code (program (vm m))) (pc (vm m)) = Some instr →
  opcode instr ∈ binary_opcodes →
  (length (stack (vm m)) < 2)%nat →
  step F C H m
  = Err ("Runtime error at PC=" +:+ pretty (pc (vm m)) +:+ ": Stack underflow")%string.
Proof.
  intros Ht Hi Hop Hlen. rewrite (step_untraced F C H m instr Ht Hi).
  destruct instr as [op a]. cbn [opcode] in *.
  destruct m as [[prog run pc_ s g L cs] tr co ci sd]. cbn [vm stack pc] in *.
  destruct s as [| v [| w s]]; [| | simpl in Hlen; lia];
    unfold binary_opcodes in Hop;
    repeat (apply elem_of_cons in Hop as [-> | Hop]; [reflexivity |]);
    inversion Hop.
Qed.

(** The example machine at its [LT], with the 0 alone on the stack. *)
Lemma binary_opcodes_need_two_operands_witness :
  OP_LT ∈ binary_opcodes
  ∧ ∀ F C H,
      step F C H (machine_of (mkState example_loop true 4 [VInt 0] [] [VInt 0] []))
      = Err "Runtime error at PC=4: Stack underflow"%string.
Proof.
  split; [unfold binary_opcodes; set_solver |]. intros F C H.
  apply (binary_opcodes_need_two_operands F C H
           (machine_of (mkState example_loop true 4 [VInt 0] [] [VInt 0] []))
           (mkInstruction OP_LT 0)); [reflexivity | reflexivity | | simpl; lia].
  unfold binary_opcodes. set_solver.
Defined.

(** A byte that is none of the 39 opcodes makes the round throw
    [Unknown opcode] with the byte in decimal. *)
Theorem unknown_opcode_throws F C H (m : Machine) (instr : Instruction) :
  trace m = false →
  at_ (code (program (vm m))) (pc (vm m)) = Some instr →
  opcode instr ∉ known_opcodes →
  step F C H m
  = Err ("Runtime error at PC=" +:+ pretty (pc (vm m)) +:+ ": Unknown opcode: "
         +:+ pretty (opcode instr))%string.
Proof.
  intros Ht Hi Hop. rewrite (step_untraced F C H m instr Ht Hi).
  destruct instr as [op a]. cbn [opcode] in *.
  unfold known_opcodes in Hop.
  repeat (apply not_elem_of_cons in Hop as [? Hop]).
  unfold executeInstruction, mbind. cbn [opcode].
  repeat match goal with
         | |- context [op =? ?b] => destruct (Z.eqb_spec op b) as [? | _]; [contradiction |]
         end.
  reflexivity.
Qed.

Lemma unknown_opcode_throws_witness :
  (0x99 ∉ known_opcodes)
  ∧ ∀ F C H,
      step F C H (machine_of (mkState (set_code_of example_loop [mkInstruction 0x99 0])
                                true 0 [] [] [] []))
      = Err "Runtime error at PC=0: Unknown opcode: 153"%string.
Proof.
  assert (0x99 ∉ known_opcodes) as Hnot.
  { unfold known_opcodes. intros Hin.
    repeat (apply elem_of_cons in Hin as [Hin | Hin]; [discriminate |]). inversion Hin. }
  split; [exact Hnot |]. intros F C H.
  apply (unknown_opcode_throws F C H
           (machine_of (mkState (set_code_of example_loop [mkInstruction 0x99 0])
                          true 0 [] [] [] []))
           (mkInstruction 0x99 0)); [reflexivity | reflexivity | exact Hnot].
Defined.

(** ** Tracing *)

Lemma getConstant_ok (st : State) (index : Z) (cst : Constant) :
  0 <= index → at_ (constants (program st)) index = Some cst →
  getConstant index st = Ok (cst, st).
Proof.
  intros Hi Hc. unfold getConstant. rewrite (op_bind_ok get _ _ _ _ eq_refl).
  rewrite at_lookup in Hc by lia. pose proof (lookup_lt_Some _ _ _ Hc) as Hlt.
  destruct (Z.leb_spec (len (constants (program st))) index); [unfold len in *; lia |].
  rewrite at_lookup, Hc by lia. reflexivity.
Qed.

Lemma opPush_ok (st : State) (index : Z) (cst : Constant) :
  0 <= index → at_ (constants (program st)) index = Some cst →
  opPush index st = Ok (tt, set_stack (value_of_constant cst :: stack st) st).
Proof.
  intros Hi Hc. unfold opPush. rewrite (op_bind_ok _ _ _ _ _ (getConstant_ok st index cst Hi Hc)).
  reflexivity.
Qed.

Lemma traceInstruction_push (m : Machine) (index : Z) (cst : Constant) :
  0 <= index → at_ (constants (program (vm m))) index = Some cst →
  ∃ m', traceInstruction (mkInstruction OP_PUSH index) m = Ok (tt, m')
        ∧ vm m' = set_stack (value_of_constant cst :: stack (vm m)) (vm m).
Proof.
  intros Hidx Hc. unfold traceInstruction.
  rewrite (mbind_ok mget _ m m m eq_refl).
  rewrite (mbind_ok (write _) _ _ _ _ eq_refl).
  change (opcode (mkInstruction OP_PUSH index) =? OP_PUSH) with true. cbv iota.
  cbn [operand].
  erewrite (mbind_ok (lift _)); [| apply lift_ok; cbn [vm]; apply opPush_ok; eassumption].
  eexists. split; reflexivity.
Qed.

Lemma traceStack_ok F (m : Machine) :
  ∃ m', traceStack F m = Ok (tt, m') ∧ vm m' = vm m.
Proof. unfold traceStack, mbind, mget, write. eexists. split; reflexivity. Qed.

(** [PUSH] puts the value of its constant on the stack, once. With
    tracing on it does so twice: [traceInstruction] pushes the value where
    it means to print it, and then the instruction is executed. *)
Theorem push_under_trace F C H (m : Machine) (index : Z) (cst : Constant) :
  at_ (code (program (vm m))) (pc (vm m)) = Some (mkInstruction OP_PUSH index) →
  0 <= index → at_ (constants (program (vm m))) index = Some cst →
  ∃ m', step F C H m = Ok (tt, m')
        ∧ pc (vm m') = u32 (pc (vm m) + 1)
        ∧ stack (vm m')
          = (if trace m then [value_of_constant cst; value_of_constant cst]
             else [value_of_constant cst]) ++ stack (vm m).
Proof.
  intros Hi Hidx Hc. destruct (trace m) eqn:Ht.
  - destruct (traceInstruction_push m index cst Hidx Hc) as (m1 & H1 & Hvm1).
    destruct (traceStack_ok F m1) as (m2 & H2 & Hvm2).
    assert (opPush index (vm m2)
            = Ok (tt, set_stack (value_of_constant cst :: stack (vm m2)) (vm m2))) as H3.
    { apply opPush_ok; [exact Hidx |]. rewrite Hvm2, Hvm1. exact Hc. }
    assert (mbind (traceInstruction (mkInstruction OP_PUSH index)) (fun _ => traceStack F) m
            = Ok (tt, m2)) as H12
      by (rewrite (mbind_ok _ _ _ _ _ H1); exact H2).
    unfold step. rewrite (mbind_ok mget _ m m m eq_refl), Hi, Ht.
    rewrite (mbind_ok _ _ _ _ _ H12).
    change (executeInstruction F C H (mkInstruction OP_PUSH index)) with (lift (opPush index)).
    change (sets_pc (opcode (mkInstruction OP_PUSH index))) with false. cbv iota.
    rewrite (mbind_ok _ _ _ _ _ (lift_ok _ _ _ _ H3)).
    eexists. split; [reflexivity |].
    cbn [lift modify vm set_vm pc stack set_pc set_stack]. rewrite Hvm2, Hvm1.
    split; reflexivity.
  - rewrite (step_untraced F C H m _ Ht Hi).
    change (executeInstruction F C H (mkInstruction OP_PUSH index)) with (lift (opPush index)).
    rewrite (mbind_ok _ _ _ _ _ (lift_ok _ _ _ _ (opPush_ok (vm m) index cst Hidx Hc))).
    eexists. split; [reflexivity |]. split; reflexivity.
Qed.

(** The first instruction of the example, traced. *)
Lemma push_under_trace_witness :
  value_of_constant (CInt 0) = VInt 0
  ∧ ∀ F C H,
      ∃ m', step F C H (mkMachine (mkState example_loop true 0 [] [] [VNil] []) true "" [] 12345)
            = Ok (tt, m')
            ∧ pc (vm m') = 1
            ∧ stack (vm m') = [VInt 0; VInt 0].
Proof.
  split; [reflexivity |]. intros F C H.
  apply (push_under_trace F C H
           (mkMachine (mkState example_loop true 0 [] [] [VNil] []) true "" [] 12345)
           0 (CInt 0)); [reflexivity | lia | reflexivity].
Defined.

(** ** Native functions *)

Lemma callNative_named F H (m : Machine) (nativeIndex : Z) (name : string) :
  0 <= nativeIndex →
  at_ (nativeImports (program (vm m))) nativeIndex = Some name →
  callNative F H nativeIndex m
  = match nativeFuncs F H !! name with
    | None => lift (runtimeError ("Native function not implemented: " +:+ name))
    | Some native => native
    end m.
Proof.
  intros Hi Hn. unfold callNative. rewrite (mbind_ok mget _ m m m eq_refl).
  rewrite at_lookup in Hn by lia. pose proof (lookup_lt_Some _ _ _ Hn) as Hlt.
  destruct (Z.leb_spec (len (nativeImports (program (vm m)))) nativeIndex);
    [unfold len in *; lia |].
  rewrite at_lookup, Hn by lia. reflexivity.
Qed.

(** [CALL_NATIVE] throws when its operand is no index of the import table,
    and when the imported name is none of the thirteen that the machine
    registers. *)
Lemma native_call_errors F H (m : Machine) (nativeIndex : Z) :
  (len (nativeImports (program (vm m))) <= nativeIndex →
   callNative F H nativeIndex m
   = Err ("Runtime error at PC=" +:+ pretty (pc (vm m))
          +:+ ": Native import index out of bounds")%string)
  ∧ (∀ name, 0 <= nativeIndex →
       at_ (nativeImports (program (vm m))) nativeIndex = Some name →
       name ∉ native_names →
       callNative F H nativeIndex m
       = Err ("Runtime error at PC=" +:+ pretty (pc (vm m))
              +:+ ": Native function not implemented: " +:+ name)%string).
Proof.
  split.
  - intros Hout. unfold callNative. rewrite (mbind_ok mget _ m m m eq_refl).
    destruct (Z.leb_spec (len (nativeImports (program (vm m)))) nativeIndex); [| lia].
    reflexivity.
  - intros name Hi Hn Hnot. rewrite (callNative_named F H m nativeIndex name Hi Hn).
    unfold nativeFuncs. rewrite not_elem_of_list_to_map_1 by exact Hnot. reflexivity.
Qed.

(** [Random.int] pushes an int between 0 and 99: after the call the
    operand stack of the machine holds, on top of what it held, the new
    seed modulo 100, where the new seed is the low 31 bits of
    [seed * 1103515245 + 12345]; the seed stays a non-negative 31-bit
    number, and nothing else of the machine changes. *)
Theorem random_int_range F H (m : Machine) (nativeIndex : Z) :
  0 <= nativeIndex →
  at_ (nativeImports (program (vm m))) nativeIndex = Some "Random.int"%string →
  ∃ r m',
    callNative F H nativeIndex m = Ok (tt, m')
    ∧ stack (vm m') = VInt r :: stack (vm m)
    ∧ 0 <= r < 100
    ∧ r = seed m' mod 100
    ∧ seed m' = Z.land (seed m * 1103515245 + 12345) 0x7fffffff
    ∧ 0 <= seed m' < 2 ^ 31
    ∧ globals (vm m') = globals (vm m) ∧ locals_ (vm m') = locals_ (vm m)
    ∧ callStack (vm m') = callStack (vm m) ∧ pc (vm m') = pc (vm m)
    ∧ running (vm m') = running (vm m) ∧ program (vm m') = program (vm m)
    ∧ trace m' = trace m ∧ cout m' = cout m ∧ cin m' = cin m.
Proof.
  intros Hi Hn. rewrite (callNative_named F H m nativeIndex _ Hi Hn).
  change (nativeFuncs F H !! "Random.int"%string) with (Some nativeRandomInt).
  unfold nativeRandomInt.
  set (next := Z.land (seed m * 1103515245 + 12345) 0x7fffffff).
  assert (0 <= next < 2 ^ 31) as Hnext.
  { subst next. change 0x7fffffff with (Z.ones 31). rewrite Z.land_ones by lia.
    apply Z.mod_pos_bound. lia. }
  exists (next mod 100). eexists. split; [reflexivity |].
  cbn [vm stack globals locals_ callStack pc running program trace cout cin seed set_stack].
  split; [reflexivity |]. split; [apply Z.mod_pos_bound; lia |].
  split; [reflexivity |]. split; [reflexivity |]. split; [exact Hnext |].
  repeat split.
Qed.

(** The first number of a fresh machine is 6. *)
Lemma random_int_range_witness :
  nativeImports example_random = ["Random.int"%string]
  ∧ ∀ F H,
      ∃ r m',
        callNative F H 0 (machine_of (mkState example_random true 0 [] [] [] []))
        = Ok (tt, m')
        ∧ stack (vm m') = [VInt r]
        ∧ 0 <= r < 100
        ∧ 0 <= seed m' < 2 ^ 31.
Proof.
  split; [reflexivity |]. intros F H.
  destruct (random_int_range F H (machine_of (mkState example_random true 0 [] [] [] [])) 0
              ltac:(lia) eq_refl) as (r & m' & E & Hs & Hr & _ & _ & Hseed & _).
  exists r, m'. split; [exact E |]. split; [exact Hs |]. split; [exact Hr | exact Hseed].
Defined.

(** A call of a function of [Math], [String], [Array] or [File], which the
    parser marks native and the compiler turns into [CALL_NATIVE], throws
    when it is executed: the machine registers no function of these
    classes. *)
Theorem unimplemented_native_classes F H (m : Machine) (nativeIndex : Z)
    (className methodName : string) :
  className ∈ unimplemented_classes →
  0 <= nativeIndex →
  at_ (nativeImports (program (vm m))) nativeIndex = Some (className +:+ "." +:+ methodName)%string →
  callNative F H nativeIndex m
  = Err ("Runtime error at PC=" +:+ pretty (pc (vm m))
         +:+ ": Native function not implemented: " +:+ className +:+ "." +:+ methodName)%string.
Proof.
  intros Hc Hi Hn.
  apply (proj2 (native_call_errors F H m nativeIndex) _ Hi Hn).
  unfold unimplemented_classes in Hc. unfold native_names. intros Hin.
  repeat (apply elem_of_cons in Hc as [-> | Hc];
          [repeat (apply elem_of_cons in Hin as [Hin | Hin]; [discriminate |]);
           inversion Hin |]).
  inversion Hc.
Qed.

Lemma unimplemented_native_classes_witness :
  "Math"%string ∈ unimplemented_classes
  ∧ ∀ F H,
      callNative F H 0
        (machine_of (mkState (mkBytecodeFile TAIL_MAGIC 1 0 [] [] [] [] [] [] []
                                ["Math.sqrt"%string]) true 0 [] [] [] []))
      = Err "Runtime error at PC=0: Native function not implemented: Math.sqrt"%string.
Proof.
  assert ("Math"%string ∈ unimplemented_classes) as Hin
    by (unfold unimplemented_classes; set_solver).
  split; [exact Hin |]. intros F H.
  apply (unimplemented_native_classes F H
           (machine_of (mkState (mkBytecodeFile TAIL_MAGIC 1 0 [] [] [] [] [] [] []
                                   ["Math.sqrt"%string]) true 0 [] [] [] []))
           0 "Math" "sqrt" Hin); [lia | reflexivity].
Defined.

(** ** How a run ends *)

Lemma run_step F C H (rounds : nat) (m m' : Machine) :
  continues m = true → step F C H m = Ok (tt, m') →
  run F C H (S rounds) m = run F C H rounds m'.
Proof. intros Hc Hs. cbn [run]. rewrite Hc, Hs. reflexivity. Qed.

Lemma run_stopped F C H (rounds : nat) (m : Machine) :
  continues m = false → run F C H rounds m = Finished m.
Proof. intros Hc. destruct rounds; cbn [run]; rewrite Hc; reflexivity. Qed.

(** [HALT] ends the run after its round, with [pc] behind it. So does a
    [RET] in the frame that [execute] made for [Main], which is popped;
    that [RET] neither moves [pc] nor touches the operand stack. Nothing
    else of the machine changes. *)
Theorem halt_and_outermost_return_end_the_run F C H (rounds : nat) (m : Machine)
    (instr : Instruction) :
  trace m = false →
  continues m = true →
  at_ (code (program (vm m))) (pc (vm m)) = Some instr →
  (opcode instr = OP_HALT →
   run F C H (S rounds) m
   = Finished (mkMachine
                 (mkState (program (vm m)) false (u32 (pc (vm m) + 1)) (stack (vm m))
                    (globals (vm m)) (locals_ (vm m)) (callStack (vm m)))
                 (trace m) (cout m) (cin m) (seed m)))
  ∧ (opcode instr = OP_RET →
     ∀ frame frames,
       callStack (vm m) = frame :: frames → returnAddr frame = UINT32_MAX →
       run F C H (S rounds) m
       = Finished (mkMachine
                     (mkState (program (vm m)) false (pc (vm m)) (stack (vm m))
                        (globals (vm m)) (locals_ (vm m)) frames)
                     (trace m) (cout m) (cin m) (seed m))).
Proof.
  intros Ht Hc Hi. destruct instr as [op a]. cbn [opcode]. split.
  - intros ->. erewrite run_step; [| exact Hc |].
    2:{ rewrite (step_untraced F C H m _ Ht Hi). reflexivity. }
    apply run_stopped. reflexivity.
  - intros -> frame frames Hcs Hret. erewrite run_step; [| exact Hc |].
    2:{ rewrite (step_untraced F C H m _ Ht Hi).
        change (executeInstruction F C H (mkInstruction OP_RET a)) with (lift returnFromFunction).
        assert (returnFromFunction (vm m)
                = Ok (tt, set_running false (set_callStack frames (vm m)))) as Hr.
        { unfold returnFromFunction. rewrite (op_bind_ok get _ _ _ _ eq_refl), Hcs.
          rewrite (op_bind_ok (modify _) _ _ _ _ eq_refl), Hret. reflexivity. }
        rewrite (mbind_ok _ _ _ _ _ (lift_ok _ _ _ _ Hr)). reflexivity. }
    apply run_stopped. reflexivity.
Qed.

(** The [HALT] and the last [RET] of the loop example. *)
Lemma halt_and_outermost_return_end_the_run_witness :
  continues (machine_of (mkState example_loop true 11 [VNil] [] [VInt 0] [])) = true
  ∧ ∀ F C H,
      run F C H 1 (machine_of (mkState example_loop true 11 [VNil] [] [VInt 0] []))
      = Finished (machine_of (mkState example_loop false 12 [VNil] [] [VInt 0] []))
      ∧ run F C H 1
          (machine_of (mkState example_loop true 10 [VNil] [] [VInt 0]
                         [mkCallFrame UINT32_MAX 0 0 (mkFunctionInfo "Main" 0 0 1)]))
        = Finished (machine_of (mkState example_loop false 10 [VNil] [] [VInt 0] [])).
Proof.
  split; [reflexivity |]. intros F C H. split.
  - apply (proj1 (halt_and_outermost_return_end_the_run F C H 0
                    (machine_of (mkState example_loop true 11 [VNil] [] [VInt 0] []))
                    (mkInstruction OP_HALT 0) eq_refl eq_refl eq_refl) eq_refl).
  - apply (proj2 (halt_and_outermost_return_end_the_run F C H 0
                    (machine_of (mkState example_loop true 10 [VNil] [] [VInt 0]
                                   [mkCallFrame UINT32_MAX 0 0 (mkFunctionInfo "Main" 0 0 1)]))
                    (mkInstruction OP_RET 0) eq_refl eq_refl eq_refl) eq_refl
                 _ _ eq_refl eq_refl).
Defined.

(** ** Starting *)

(** [execute] throws before it runs anything when the image has no
    function named [Main]; otherwise it starts at the address of the first
    one, with as many nil locals as that function declares and a frame
    whose return address is the marker 0xFFFFFFFF. *)
Theorem execute_starts_at_first_main F C H (rounds : nat) (bytecode : BytecodeFile)
    (m : Machine) :
  (Forall (fun f => name f ≠ "Main"%string) (functions bytecode) →
   execute F C H rounds bytecode m = Thrown "Main function not found")
  ∧ (∀ before mainFunc after,
       functions bytecode = before ++ mainFunc :: after →
       Forall (fun f => name f ≠ "Main"%string) before →
       name mainFunc = "Main"%string →
       execute F C H rounds bytecode m
       = run F C H rounds
           (mkMachine
              (mkState bytecode true (address mainFunc) [] []
                 (replicate (Z.to_nat (locals mainFunc)) VNil)
                 [mkCallFrame UINT32_MAX 0 0 mainFunc])
              (trace m) (cout m) (cin m) (seed m))).
Proof.
  split.
  - intros Hnone. unfold execute, boot.
    assert (list_find (fun f => name f = "Main"%string) (functions bytecode) = None) as ->
      by (apply list_find_None; exact Hnone).
    reflexivity.
  - intros before mainFunc after Hfs Hbefore Hmain. unfold execute, boot. rewrite Hfs.
    assert (list_find (fun f => name f = "Main"%string) (before ++ mainFunc :: after)
            = Some (length before, mainFunc)) as ->; [| reflexivity].
    apply list_find_Some. split; [apply list_lookup_middle; reflexivity |].
    split; [exact Hmain |]. intros j y Hj Hlt.
    rewrite lookup_app_l in Hj by exact Hlt.
    exact (proj1 (Forall_lookup _ _) Hbefore j y Hj).
Qed.

(** The example program, whose second function is [Main], and the same
    image without its functions. *)
Lemma execute_starts_at_first_main_witness :
  functions example_program = [mkFunctionInfo "f" 0 1 1] ++ mkFunctionInfo "Main" 2 0 1 :: []
  ∧ ∀ F C H rounds m,
      execute F C H rounds example_program m
      = run F C H rounds
          (mkMachine
             (mkState example_program true 2 [] [] [VNil]
                [mkCallFrame UINT32_MAX 0 0 (mkFunctionInfo "Main" 2 0 1)])
             (trace m) (cout m) (cin m) (seed m))
      ∧ execute F C H rounds emptyBytecode m = Thrown "Main function not found".
Proof.
  split; [reflexivity |]. intros F C H rounds m. split.
  - destruct (execute_starts_at_first_main F C H rounds example_program m) as [_ Hmain].
    apply (Hmain [mkFunctionInfo "f" 0 1 1] (mkFunctionInfo "Main" 2 0 1) []).
    + reflexivity.
    + constructor; [discriminate | constructor].
    + reflexivity.
  - destruct (execute_starts_at_first_main F C H rounds emptyBytecode m) as [Hnone _].
    apply Hnone. constructor.
Defined.

End VMExecFacts.

(** * Properties of the parser *)

Module ParserFacts.
Import Lexer Ast Parser.

Lemma yields_ret {A} (Q : A → Prop) (a : A) : Q a → yields Q (ret a).
Proof. intros H st. exact H. Qed.

Lemma yields_throw {A} (Q : A → Prop) (e : Exn) : yields Q (throw e).
Proof. intros st. exact I. Qed.

Lemma yields_bind {A B} (Q : B → Prop) (m : P A) (k : A → P B) :
  (∀ a, yields Q (k a)) → yields Q (Parser.bind m k).
Proof.
  intros H st. unfold Parser.bind.
  destruct (m st) as [[a | e] st']; [apply H | exact I].
Qed.

Lemma yields_bind_with {A B} (R : A → Prop) (Q : B → Prop) (m : P A) (k : A → P B) :
  yields R m → (∀ a, R a → yields Q (k a)) → yields Q (Parser.bind m k).
Proof.
  intros Hm H st. unfold Parser.bind. specialize (Hm st).
  destruct (m st) as [[a | e] st']; [apply H, Hm | exact I].
Qed.

Lemma yields_try_catch {A} (Q : A → Prop) (m : P A) (handler : string → P A) :
  yields Q m → (∀ what, yields Q (handler what)) → yields Q (try_catch m handler).
Proof.
  intros Hm Hh st. unfold try_catch. specialize (Hm st).
  destruct (m st) as [[a | [what | what]] st']; [exact Hm | apply Hh | exact I].
Qed.

Lemma all_assign_free_snoc (l : list Stmt) (s : Stmt) :
  all_assign_free l → assign_free s → all_assign_free (l ++ [s]).
Proof.
  unfold all_assign_free, assign_free. intros Hl Hs.
  rewrite existsb_app, Hl. cbn. rewrite Hs. reflexivity.
Qed.

Ltac step :=
  lazymatch goal with
  | |- yields _ (ret _) => apply yields_ret; try reflexivity
  | |- yields _ (throw _) => apply yields_throw
  | |- yields _ (Parser.bind _ _) => apply yields_bind; intros ?
  end.

Section WithTokens.

Variable tokens : list Token.
Variable stod : string → option Z.

Lemma parseVarDeclaration_assign_free :
  yields assign_free (parseVarDeclaration tokens stod).
Proof.
  unfold parseVarDeclaration. do 3 step.
  destruct (negb _); repeat step.
Qed.

Lemma parseArrayDeclaration_assign_free :
  yields assign_free (parseArrayDeclaration tokens stod).
Proof. unfold parseArrayDeclaration. repeat step. Qed.

Section OneLevel.

Variable self : Self.
Hypothesis Hself : self_assign_free self.

Lemma parseBlock_loop_assign_free (fuel : nat) :
  ∀ statements, all_assign_free statements →
    yields all_assign_free (parseBlock_loop tokens self fuel statements).
Proof.
  induction fuel as [| fuel IH]; intros statements Hs; cbn [parseBlock_loop].
  - apply yields_throw.
  - do 2 step. destruct (negb _ && negb _).
    + apply (yields_bind_with assign_free); [apply Hself |].
      intros stmt Hstmt. apply IH.
      destruct (is_null_stmt stmt); [exact Hs | apply all_assign_free_snoc; assumption].
    + apply yields_ret, Hs.
Qed.

Lemma parseBlock_assign_free : yields assign_free (parseBlock tokens self).
Proof.
  unfold parseBlock.
  apply (yields_bind_with all_assign_free); [apply parseBlock_loop_assign_free; reflexivity |].
  intros statements Hs. step. apply yields_ret. exact Hs.
Qed.

Lemma parseIfStatement_assign_free : yields assign_free (parseIfStatement tokens stod self).
Proof.
  unfold parseIfStatement. do 3 step.
  apply (yields_bind_with assign_free); [apply parseBlock_assign_free |].
  intros thenBranch Hthen. step.
  apply (yields_bind_with assign_free).
  - destruct a2; [| apply yields_ret; reflexivity].
    step. destruct a2; apply Hself.
  - intros elseBranch Helse. apply yields_ret.
    unfold assign_free in *. cbn [has_assign]. rewrite Hthen, Helse. reflexivity.
Qed.

Lemma parseWhileStatement_assign_free :
  yields assign_free (parseWhileStatement tokens stod self).
Proof.
  unfold parseWhileStatement. do 3 step.
  apply (yields_bind_with assign_free); [apply Hself |].
  intros body Hbody. apply yields_ret. exact Hbody.
Qed.

Lemma parseForStatement_assign_free :
  yields assign_free (parseForStatement tokens stod self).
Proof.
  unfold parseForStatement. do 2 step.
  apply (yields_bind_with assign_free).
  - destruct a0; [apply yields_ret; reflexivity |].
    do 4 step. destruct (isTypeToken _); [apply parseVarDeclaration_assign_free |].
    repeat step.
  - intros initializer Hinit. do 6 step.
    apply (yields_bind_with assign_free); [apply Hself |].
    intros body Hbody. apply yields_ret.
    unfold assign_free in *. cbn [has_assign]. rewrite Hinit, Hbody. reflexivity.
Qed.

Lemma parseStatement_assign_free : yields assign_free (parseStatement tokens stod self).
Proof.
  unfold parseStatement.
  step. destruct a; [apply parseIfStatement_assign_free |].
  step. destruct a; [apply parseWhileStatement_assign_free |].
  step. destruct a; [apply parseForStatement_assign_free |].
  step. destruct a; [unfold parseReturnStatement; repeat step |].
  step. destruct a; [unfold parseBreakStatement; repeat step |].
  step. destruct a; [unfold parseContinueStatement; repeat step |].
  step. destruct a; [apply parseBlock_assign_free |].
  do 3 step. destruct (isTypeToken _); [step; apply parseVarDeclaration_assign_free |].
  do 2 step. destruct (_ && _); [apply parseArrayDeclaration_assign_free |].
  repeat step.
Qed.

Lemma parseFunction_assign_free : yields assign_free (parseFunction tokens self).
Proof.
  unfold parseFunction. do 6 step.
  apply (yields_bind_with assign_free); [apply parseBlock_assign_free |].
  intros body Hbody. destruct body; apply yields_ret; try reflexivity.
  exact Hbody.
Qed.

Lemma parseDeclaration_assign_free : yields assign_free (parseDeclaration tokens stod self).
Proof.
  unfold parseDeclaration. apply yields_try_catch.
  - step. destruct a; [unfold parseInclude; repeat step |].
    step. destruct a; [apply parseFunction_assign_free | apply parseStatement_assign_free].
  - intros what. repeat step.
Qed.

End OneLevel.

Lemma parsers_assign_free (fuel : nat) : self_assign_free (parsers tokens stod fuel).
Proof.
  induction fuel as [| fuel IH]; cbn [parsers].
  - repeat split; apply yields_throw.
  - repeat split; cbn [self_declaration self_statement self_block self_if].
    + apply parseDeclaration_assign_free, IH.
    + apply parseStatement_assign_free, IH.
    + apply parseBlock_assign_free, IH.
    + apply parseIfStatement_assign_free, IH.
Qed.

Lemma parse_loop_assign_free (fuel : nat) :
  ∀ statements, all_assign_free statements →
    yields all_assign_free (parse_loop tokens stod fuel statements).
Proof.
  induction fuel as [| fuel IH]; intros statements Hs; cbn [parse_loop].
  - apply yields_ret, Hs.
  - step. destruct a; [apply yields_ret, Hs |].
    apply (yields_bind_with all_assign_free); [| intros l Hl; apply IH, Hl].
    apply yields_try_catch.
    + apply (yields_bind_with assign_free); [apply parsers_assign_free |].
      intros stmt Hstmt. apply yields_ret.
      destruct (is_null_stmt stmt); [exact Hs | apply all_assign_free_snoc; assumption].
    + intros what. do 2 step. apply yields_ret, Hs.
Qed.

(** Whatever the tokens, no statement that [parse] returns holds an
    [AssignStmt]: an assignment reaches the compiler as the expression
    [BinaryExpr(target, "=", value)] only, and [compileAssign] is never
    called on parsed source. *)
Lemma parse_never_builds_AssignStmt (statements : list Stmt) (st : State) :
  parse tokens stod = (Return statements, st) → all_assign_free statements.
Proof.
  intros H. pose proof (parse_loop_assign_free (length tokens) [] eq_refl
                          (mkState 0 [] ∅)) as Hy.
  unfold parse in H. rewrite H in Hy. exact Hy.
Qed.

End WithTokens.

(** The statement [x = 2;] is parsed as an expression statement. *)
Lemma assignment_is_parsed_as_expression (stod : string → option Z) :
  fst (parse (fst (tokenize "x = 2;")) stod)
  = Return [ExprStmt (BinaryExpr (VariableExpr "x") "=" (LiteralExpr (Ast.INT 2)))].
Proof. vm_compute. reflexivity. Qed.

(** The tokens of [x = 2;]: the statement returned is an expression
    statement. *)
Lemma parse_never_builds_AssignStmt_witness :
  all_assign_free [ExprStmt (BinaryExpr (VariableExpr "x") "=" (LiteralExpr (Ast.INT 2)))].
Proof.
  apply (parse_never_builds_AssignStmt (fst (tokenize "x = 2;")) (fun _ => Some 0%Z) _
           (snd (parse (fst (tokenize "x = 2;")) (fun _ => Some 0%Z)))).
  vm_compute. reflexivity.
Defined.

End ParserFacts.

(** * The parser: which exceptions leave [parse] *)

Module ParserMoreFacts.
Import Lexer Ast Parser.

Lemma returns_bind {A B} (m : P A) (k : A → P B) st a st' :
  m st = (Return a, st') → Parser.bind m k st = k a st'.
Proof. unfold Parser.bind. intros ->. reflexivity. Qed.

Lemma throws_bind {A B} (m : P A) (k : A → P B) st e st' :
  m st = (Throw e, st') → Parser.bind m k st = (Throw e, st').
Proof. unfold Parser.bind. intros ->. reflexivity. Qed.

(** ** Error recovery catches every [std::runtime_error] *)




Section WithTokens.

Variable tokens : list Token.
Variable stod : string → option Z.







End WithTokens.

(** ** An exception that is not caught *)

Section LiteralOutOfRange.

Variable stod : string → option Z.
Variables (s : string) (l c : nat) (rest : list Token).
Variables (errs : list string) (incl : gmap string string).
Hypothesis Hs : stoll s = None.

Local Abbreviation tokens := (mkToken NUMBER s l c :: rest).
Local Abbreviation st0 := (mkState 0 errs incl).
Local Abbreviation st1 := (mkState 1 errs incl).
Local Abbreviation thrown := (Throw (OtherError "stoll"), mkState 1 errs incl).

Lemma parsePrimary_throws self : parsePrimary tokens stod self st0 = thrown.
Proof.
  unfold parsePrimary.
  rewrite (returns_bind (match_ tokens NUMBER) _ st0 true st1) by reflexivity.
  cbv beta iota.
  rewrite (returns_bind (previous tokens) _ st1 (mkToken NUMBER s l c) st1) by reflexivity.
  cbn [Lexer.text]. rewrite Hs. reflexivity.
Qed.

Lemma parseCall_throws self : parseCall tokens stod self st0 = thrown.
Proof. unfold parseCall. apply throws_bind, parsePrimary_throws. Qed.

Lemma parseUnary_throws self fuel : parseUnary tokens stod self (S fuel) st0 = thrown.
Proof.
  cbn [parseUnary].
  rewrite (returns_bind (matchAny tokens [BANG; MINUS]) _ st0 false st0) by reflexivity.
  apply parseCall_throws.
Qed.

Lemma parseFactor_throws self : parseFactor tokens stod self st0 = thrown.
Proof. unfold parseFactor. apply throws_bind, parseUnary_throws. Qed.

Lemma parseTerm_throws self : parseTerm tokens stod self st0 = thrown.
Proof. unfold parseTerm. apply throws_bind, parseFactor_throws. Qed.

Lemma parseComparison_throws self : parseComparison tokens stod self st0 = thrown.
Proof. unfold parseComparison. apply throws_bind, parseTerm_throws. Qed.

Lemma parseEquality_throws self : parseEquality tokens stod self st0 = thrown.
Proof. unfold parseEquality. apply throws_bind, parseComparison_throws. Qed.

Lemma parseLogicalAnd_throws self : parseLogicalAnd tokens stod self st0 = thrown.
Proof. unfold parseLogicalAnd. apply throws_bind, parseEquality_throws. Qed.

Lemma parseLogicalOr_throws self : parseLogicalOr tokens stod self st0 = thrown.
Proof. unfold parseLogicalOr. apply throws_bind, parseLogicalAnd_throws. Qed.

Lemma parseExpression_throws : parseExpression tokens stod st0 = thrown.
Proof.
  unfold parseExpression. cbn [parseAssignment]. apply throws_bind, parseLogicalOr_throws.
Qed.

Lemma parseStatement_throws self : parseStatement tokens stod self st0 = thrown.
Proof.
  unfold parseStatement.
  do 7 (erewrite (returns_bind (match_ tokens _) _ st0 false st0) by reflexivity;
        cbv beta iota).
  rewrite (returns_bind get _ st0 st0 st0) by reflexivity. cbv beta zeta.
  rewrite (returns_bind (matchAny tokens [UNMUT; MUT]) _ st0 false st0) by reflexivity.
  rewrite (returns_bind (peek tokens) _ st0 (mkToken NUMBER s l c) st0) by reflexivity.
  cbn [Lexer.type isTypeToken]. cbv beta iota.
  rewrite (returns_bind (check tokens IDENTIFIER) _ st0 false st0) by reflexivity.
  rewrite (returns_bind get _ st0 st0 st0) by reflexivity.
  cbn [andb]. cbv beta iota.
  apply throws_bind, parseExpression_throws.
Qed.

Lemma parseDeclaration_throws self : parseDeclaration tokens stod self st0 = thrown.
Proof.
  unfold parseDeclaration, try_catch.
  do 2 (erewrite (returns_bind (match_ tokens _) _ st0 false st0) by reflexivity;
        cbv beta iota).
  rewrite parseStatement_throws. reflexivity.
Qed.

Lemma parse_loop_throws statements :
  parse_loop tokens stod (length tokens) statements st0 = thrown.
Proof.
  change (length tokens) with (S (length rest)). cbn [parse_loop].
  rewrite (returns_bind (isAtEnd tokens) _ st0 false st0) by reflexivity.
  cbv beta iota. apply throws_bind. unfold try_catch.
  rewrite (throws_bind _ _ st0 (OtherError "stoll") st1)
    by (cbn [parsers self_declaration]; apply parseDeclaration_throws).
  reflexivity.
Qed.

End LiteralOutOfRange.

(** An integer literal that [std::stoll] cannot convert, as one above
    2^63 - 1, ends the parse with an exception that error recovery does not
    catch: it is no [std::runtime_error]. When the first token is such a
    literal, [parse] throws it whatever follows, and no error is recorded. *)
Theorem integer_literal_out_of_range_escapes (stod : string → option Z) (s : string)
    (l c : nat) (rest : list Token) :
  stoll s = None →
  parse (mkToken NUMBER s l c :: rest) stod
  = (Throw (OtherError "stoll"), mkState 1 [] ∅).
Proof. intros Hs. unfold parse. apply parse_loop_throws, Hs. Qed.

Lemma integer_literal_out_of_range_escapes_witness :
  2 ^ 63 = 9223372036854775808 ∧
  ∀ stod,
    parse (fst (tokenize "9223372036854775808;")) stod
    = (Throw (OtherError "stoll"), mkState 1 [] ∅).
Proof.
  split; [reflexivity |]. intros stod.
  apply (integer_literal_out_of_range_escapes stod "9223372036854775808" 1 20
           [mkToken SEMICOLON ";" 1 21; mkToken EOF_TOKEN "" 1 21]).
  vm_compute. reflexivity.
Defined.

End ParserMoreFacts.
(** * Properties of the driver *)

Module PipelineFacts.
Import Ast Pipeline.

(** ** A single input file without includes *)

Lemma parseArguments_single (path : string) :
  endsWith path ".tail" = true →
  parseArguments [path] [] "" = Ok ([path], "").
Proof.
  intros H. cbn [parseArguments].
  destruct (String.eqb path "-o") eqn:E.
  - apply String.eqb_eq in E. subst path. discriminate H.
  - rewrite H. reflexivity.
Qed.

Lemma scanLines_without_include (load : string → Loading → result Failure Loading)
    (lines : list string) (st : Loading) :
  Forall (fun line => includeNameOf line = None) lines →
  scanLines load lines st = Ok st.
Proof.
  induction 1 as [| line lines Hline _ IH]; [reflexivity |].
  cbn [scanLines]. rewrite Hline. exact IH.
Qed.

Lemma collectSources_single (fs : FileSystem) (fuel : nat) (path source : string) :
  open_read fs path = Some source →
  Forall (fun line => includeNameOf line = None)
    (getlines (list_ascii_of_string source) []) →
  collectSources fs fuel [path] ([], ∅) = Ok ([path], {[path_filename path]} ∪ ∅).
Proof.
  intros Hread Hlines. cbn [collectSources]. unfold lines_of. rewrite Hread.
  rewrite scanLines_without_include by exact Hlines. reflexivity.
Qed.

Lemma parseSources_single (stod : string → option Z) (fs : FileSystem)
    (path source : string) (tokens : list Lexer.Token) (statements : list Stmt)
    (st : Parser.State) :
  open_read fs path = Some source →
  Lexer.tokenize source = (tokens, []) →
  Parser.parse tokens stod = (Parser.Return statements, st) →
  Parser.errors st = [] →
  parseSources stod fs [path] [path] [] ∅
  = Ok ([mkFileData path statements true (path_stem path)],
        {[path_stem path := functionsIn statements]}).
Proof.
  intros Hread Hlex Hparse Herrors. cbn [parseSources].
  rewrite Hread, Hlex, Hparse, Herrors.
  rewrite bool_decide_eq_true_2 by (apply list_elem_of_singleton; reflexivity).
  unfold functionsOf. rewrite lookup_empty. reflexivity.
Qed.

(** With one input file that includes nothing, [main] reaches the first
    pass with the functions of that file under the stem of its path. *)
Lemma tailc_single_file (stod : string → option Z) (fs : FileSystem) (fuel : nat)
    (path source : string) (tokens : list Lexer.Token) (statements : list Stmt)
    (st : Parser.State) :
  endsWith path ".tail" = true →
  open_read fs path = Some source →
  Forall (fun line => includeNameOf line = None)
    (getlines (list_ascii_of_string source) []) →
  Lexer.tokenize source = (tokens, []) →
  Parser.parse tokens stod = (Parser.Return statements, st) →
  Parser.errors st = [] →
  tailc stod fs fuel [path]
  = Pipeline.bind
      (generate [mkFileData path statements true (path_stem path)]
         {[path_stem path := functionsIn statements]})
      (fun bytecode => Ok (path_stem path +:+ ".tailc", bytecode)).
Proof.
  intros Hpath Hread Hlines Hlex Hparse Herrors. unfold tailc.
  rewrite (parseArguments_single path Hpath). cbn [Pipeline.bind].
  rewrite (collectSources_single fs fuel path source Hread Hlines). cbn [Pipeline.bind].
  rewrite (parseSources_single stod fs path source tokens statements st
             Hread Hlex Hparse Herrors).
  reflexivity.
Qed.

(** The first pass over a single input file: its functions other than
    [Main], then every [Main] it holds. *)
Lemma firstPass_single_file (path moduleName : string) (statements : list Stmt)
    (st : Compiler.State) :
  firstPass {[moduleName := functionsIn statements]}
    [mkFileData path statements true moduleName] st
  = match compileOthers moduleName (functionsIn statements) st with
    | Ok (_, st') => compileMains (functionsIn statements) false st'
    | Err what => Err what
    end.
Proof.
  unfold firstPass.
  cbn [compileFunctionsOf compileMainsOf isMainFile Pipeline.moduleName Bool.eqb].
  unfold functionsOf. rewrite lookup_singleton_eq. cbn [default]. unfold id.
  unfold Compiler.bind, Compiler.ret.
  destruct (compileOthers moduleName (functionsIn statements) st) as [[[] st'] | what];
    [| reflexivity].
  destruct (compileMains (functionsIn statements) false st') as [[hasMain st''] | what];
    reflexivity.
Qed.

(** Rewrites [tailc] on the single file of [Hread] with
    [tailc_single_file], lexing and parsing its source by computation. *)
Ltac single_file stod fs fuel Hpath Hread :=
  lazymatch type of Hread with
  | open_read _ ?path = Some ?source =>
      let lexed := eval vm_compute in (Lexer.tokenize source) in
      lazymatch lexed with
      | (?tokens, []) =>
          let parsed := eval vm_compute in (Parser.parse tokens stod) in
          lazymatch parsed with
          | (Parser.Return ?statements, ?st) =>
              rewrite (tailc_single_file stod fs fuel path source tokens statements st
                         Hpath Hread
                         ltac:(vm_compute; repeat constructor)
                         ltac:(vm_compute; reflexivity)
                         ltac:(vm_compute; reflexivity)
                         ltac:(reflexivity));
              unfold generate; rewrite firstPass_single_file
          end
      end
  end.

(** ** The first pass *)

(** The first pass compiles every [Main]: a source whose second [Main] does
    not compile is rejected, although [compile] stops at the first. *)
Lemma every_Main_goes_through_the_first_pass (stod : string → option Z)
    (fs : FileSystem) (fuel : nat) (path : string) :
  endsWith path ".tail" = true →
  open_read fs path = Some "fn Main(){ } fn Main(){ x; }" →
  tailc stod fs fuel [path] = Err (CompilationFailed "Undefined variable: x")
  ∧ ∃ bytecode,
      Compiler.compile
        [FunctionStmt "Main" [] []; FunctionStmt "Main" [] [ExprStmt (VariableExpr "x")]]
      = Ok bytecode.
Proof.
  intros Hpath Hread. split; [| eexists; vm_compute; reflexivity].
  single_file stod fs fuel Hpath Hread. vm_compute. reflexivity.
Qed.

(** Without a function called [Main], [main] gives up after the first
    pass. *)
Lemma source_without_Main_is_rejected (stod : string → option Z)
    (fs : FileSystem) (fuel : nat) (path : string) :
  endsWith path ".tail" = true →
  open_read fs path = Some "int x = 1;" →
  tailc stod fs fuel [path] = Err NoMain.
Proof.
  intros Hpath Hread. single_file stod fs fuel Hpath Hread. vm_compute. reflexivity.
Qed.

(** ** Includes *)

(** On [example_disk], [src/main.tail] includes [util], which is found next
    to it and includes itself: the file is loaded once, its function is
    compiled, and the call in [Main] resolves. *)
Lemma included_file_is_loaded_once (stod : string → option Z) (fuel : nat) :
  collectSources example_disk (S (S fuel)) ["src/main.tail"] ([], ∅)
  = Ok (["src/main.tail"; "src/util.tail"], {["util"]} ∪ ({["main.tail"]} ∪ ∅))
  ∧ ∃ bytecode,
      tailc stod example_disk (S (S fuel)) ["src/main.tail"] = Ok ("main.tailc", bytecode)
      ∧ List.map TVM.name (TVM.functions bytecode) = ["twice"; "Main"].
Proof.
  split; [vm_compute; reflexivity |].
  eexists. split; [vm_compute; reflexivity | reflexivity].
Qed.

End PipelineFacts.

(** * Properties of the compiler and of the pipeline *)

Module CompilerFacts.
Import Ast TVM Compiler BasicFacts.

(** An assignment expression, the only form the parser gives an assignment,
    never compiles: [compileBinary] knows no operator [=]. *)
Lemma assignment_expression_never_compiles (target value : Expr) (st : State) :
  ∃ what, compileExpr (BinaryExpr target "=" value) st = Err what.
Proof.
  cbn [compileExpr]. unfold Compiler.bind.
  destruct (compileExpr target st) as [[[] st1] | what]; [| eauto].
  destruct (compileExpr value st1) as [[[] st2] | what]; [| eauto].
  cbn. eauto.
Qed.

(** The first declaration compiled in a block gets slot 0, whatever the
    enclosing contexts hold: [compileBlock] pushes a context that counts
    from zero. *)
Lemma first_declaration_of_a_block_gets_slot_zero (name : string) (st : State) :
  ∃ st', declareLocal name (set_contextStack (newFunctionContext :: contextStack st) st)
         = Ok (0, st').
Proof. eexists. reflexivity. Qed.

(** ** Jumps that are never patched *)

Lemma bind_inv {A B} (m : C A) (k : A → C B) st r st' :
  Compiler.bind m k st = Ok (r, st') →
  ∃ x st1, m st = Ok (x, st1) ∧ k x st1 = Ok (r, st').
Proof.
  unfold Compiler.bind. destruct (m st) as [[x st1] | e]; [eauto | discriminate].
Qed.

Lemma quiet_ret {A} (a : A) : quiet (Compiler.ret a).
Proof.
  intros st r st' [= <- <-]. split; [reflexivity |]. exists []. rewrite app_nil_r. reflexivity.
Qed.

Lemma quiet_throw {A} (what : string) : quiet (@throw A what).
Proof. intros st r st' [=]. Qed.

Lemma quiet_get : quiet get.
Proof. intros st r st' [= <- <-]. split; [reflexivity |]. exists []. rewrite app_nil_r. reflexivity. Qed.

Lemma quiet_bind {A B} (m : C A) (k : A → C B) :
  quiet m → (∀ x, quiet (k x)) → quiet (Compiler.bind m k).
Proof.
  intros Hm Hk st r st' H. apply bind_inv in H as (x & st1 & H1 & H2).
  apply Hm in H1 as (Hl1 & e1 & Hc1). apply Hk in H2 as (Hl2 & e2 & Hc2).
  split; [congruence |]. exists (e1 ++ e2). rewrite Hc2, Hc1, app_assoc. reflexivity.
Qed.

Lemma quiet_modify (f : State → State) :
  (∀ st, loopStack (f st) = loopStack st ∧ code (bytecode (f st)) = code (bytecode st)) →
  quiet (modify f).
Proof.
  intros Hf st r st' [= <- <-]. destruct (Hf st) as [Hl Hc].
  split; [exact Hl |]. exists []. rewrite app_nil_r. exact Hc.
Qed.

Lemma quiet_modify_bytecode (f : BytecodeFile → BytecodeFile) :
  (∀ b, code (f b) = code b) → quiet (modify_bytecode f).
Proof. intros Hf. apply quiet_modify. intros st. split; [reflexivity | apply Hf]. Qed.

Lemma quiet_emit (op : OpCode) (operand : Z) : quiet (emit op operand).
Proof. intros st r st' [= <- <-]. split; [reflexivity |]. eexists. reflexivity. Qed.

Ltac quiet_step :=
  lazymatch goal with
  | |- quiet (Compiler.ret _) => apply quiet_ret
  | |- quiet (throw _) => apply quiet_throw
  | |- quiet get => apply quiet_get
  | |- quiet (emit _ _) => apply quiet_emit
  | |- quiet (Compiler.bind _ _) => apply quiet_bind; [| intros ?]
  | |- quiet (modify_bytecode _) => apply quiet_modify_bytecode; intros ?; reflexivity
  | |- quiet (modify _) => apply quiet_modify; intros ?; split; reflexivity
  | |- quiet (if ?b then _ else _) => destruct b
  | |- quiet (match ?x with _ => _ end) => destruct x
  | |- quiet (let '(_, _) := ?x in _) => destruct x
  end.

Ltac quiet_tac := repeat quiet_step.

Lemma quiet_codeSize : quiet codeSize.
Proof. unfold codeSize. quiet_tac. Qed.

Lemma quiet_pushConstant cst : quiet (pushConstant cst).
Proof. unfold pushConstant. quiet_tac. Qed.

Lemma quiet_addConstantWith p cst : quiet (addConstantWith p cst).
Proof. unfold addConstantWith. quiet_tac; apply quiet_pushConstant. Qed.

Lemma quiet_addConstantString value : quiet (addConstantString value).
Proof. unfold addConstantString. quiet_tac; apply quiet_pushConstant. Qed.

Lemma quiet_emitPushNil : quiet emitPushNil.
Proof. unfold emitPushNil. quiet_tac. apply quiet_pushConstant. Qed.

Lemma quiet_compileLiteral value : quiet (compileLiteral value).
Proof.
  destruct value; cbn [compileLiteral];
    unfold emitPushInt, emitPushFloat, emitPushBool, emitPushString,
      addConstantInt, addConstantFloat, addConstantBool;
    quiet_tac;
    first [apply quiet_addConstantWith | apply quiet_addConstantString | apply quiet_emitPushNil].
Qed.

Lemma quiet_compileVariable name : quiet (compileVariable name).
Proof. unfold compileVariable, resolveLocal, resolveGlobal. quiet_tac. Qed.

Lemma quiet_compileNewArray t n : quiet (compileNewArray t n).
Proof. unfold compileNewArray. quiet_tac. apply quiet_pushConstant. Qed.

Lemma quiet_emitCall c m n : quiet (emitCall c m n).
Proof. unfold emitCall, addNativeImport. quiet_tac. Qed.

Lemma quiet_declareLocal name : quiet (declareLocal name).
Proof. unfold declareLocal. quiet_tac. Qed.


(** ** Instructions that later steps leave alone *)

Lemma at_app_l {A} (l extra : list A) (a : Z) :
  0 <= a < len l → at_ (l ++ extra) a = at_ l a.
Proof.
  unfold len. intros H. rewrite !at_lookup by lia. apply lookup_app_l. lia.
Qed.

Lemma len_set_operand (x target : Z) (cd : list Instruction) :
  len (set_operand x target cd) = len cd.
Proof.
  unfold set_operand, update_at, len. destruct (at_ cd x); [| reflexivity].
  rewrite length_insert. reflexivity.
Qed.

Lemma at_set_operand_ne (x target a : Z) (cd : list Instruction) :
  0 <= a → a ≠ x → at_ (set_operand x target cd) a = at_ cd a.
Proof.
  intros Ha Hne. unfold set_operand. destruct (at_ cd x) as [i |] eqn:Hx; [| reflexivity].
  unfold at_ in Hx. destruct (Z.ltb_spec x 0); [discriminate |].
  unfold update_at. rewrite !at_lookup by lia.
  apply list_lookup_insert_ne. lia.
Qed.

Lemma len_patches (patches : list Z) (target : Z) (cd : list Instruction) :
  len (fold_left (fun cd addr => set_operand addr target cd) patches cd) = len cd.
Proof.
  revert cd. induction patches as [| x patches IH]; intros cd; [reflexivity |].
  cbn [fold_left]. rewrite IH. apply len_set_operand.
Qed.

Lemma at_patches_ne (patches : list Z) (target a : Z) (cd : list Instruction) :
  0 <= a → a ∉ patches →
  at_ (fold_left (fun cd addr => set_operand addr target cd) patches cd) a = at_ cd a.
Proof.
  intros Ha. revert cd. induction patches as [| x patches IH]; intros cd Hn; [reflexivity |].
  cbn [fold_left]. apply not_elem_of_cons in Hn as [Hne Hn].
  rewrite IH by exact Hn. apply at_set_operand_ne; assumption.
Qed.

Lemma keeps_refl (X : list Z) (st : State) : keeps X st st.
Proof.
  split; [lia |]. intros _. split; [exact id |].
  intros a Ha _. split; [exact Ha | reflexivity].
Qed.

Lemma keeps_trans (X : list Z) (st st1 st2 : State) :
  keeps X st st1 → keeps X st1 st2 → keeps X st st2.
Proof.
  intros [Hl1 H1] [Hl2 H2]. split; [lia |].
  intros Hb. destruct (H1 ltac:(lia)) as [Hw1 K1]. destruct (H2 Hb) as [Hw2 K2].
  split; [auto |]. intros a Ha HX.
  destruct (K1 a Ha HX) as [Ha1 He1].
  destruct (K2 a Ha1 HX) as [Ha2 He2].
  split; [exact Ha2 | congruence].
Qed.

Lemma keeps_weaken (X X' : list Z) (st st' : State) :
  X ⊆ X' → keeps X st st' → keeps X' st st'.
Proof.
  intros Hsub [Hl H]. split; [exact Hl |].
  intros Hb. destruct (H Hb) as [Hw K]. split; [exact Hw |].
  intros a Ha HX. apply (K a Ha). intros Hin. apply HX, Hsub, Hin.
Qed.

Lemma good_weaken {A} (X X' : list Z) (m : C A) : X ⊆ X' → good X m → good X' m.
Proof. intros Hsub Hm st r st' H. eapply keeps_weaken; [exact Hsub | eapply Hm, H]. Qed.

Lemma good_of_quiet {A} (X : list Z) (m : C A) : quiet m → good X m.
Proof.
  intros Hm st r st' H. apply Hm in H as (Hl & extra & Hc).
  pose proof (len_nonneg extra) as H0.
  split; [rewrite Hc, len_app; lia |].
  intros _. split.
  - intros Hw a Ha. rewrite Hl in Ha. apply Hw in Ha. rewrite Hc, len_app. lia.
  - intros a [Ha Hn] _. split.
    + split; [rewrite Hc, len_app; lia | rewrite Hl; exact Hn].
    + rewrite Hc. apply at_app_l, Ha.
Qed.

Lemma good_bind {A B} (X : list Z) (m : C A) (k : A → C B) :
  good X m → (∀ x, good X (k x)) → good X (Compiler.bind m k).
Proof.
  intros Hm Hk st r st' H. apply bind_inv in H as (x & st1 & H1 & H2).
  eapply keeps_trans; [eapply Hm, H1 | eapply Hk, H2].
Qed.

Lemma good_ret {A} (X : list Z) (a : A) : good X (Compiler.ret a).
Proof. apply good_of_quiet, quiet_ret. Qed.

(** [patchJump] and [patchJumps] write to the addresses they are given
    only. *)
Lemma good_patchJump (X : list Z) (x : Z) : x ∈ X → good X (patchJump x).
Proof.
  intros Hx st r st' H. unfold patchJump in H.
  apply bind_inv in H as (n & st1 & H1 & H2).
  unfold codeSize, Compiler.bind, get, Compiler.ret in H1. injection H1 as <- <-.
  injection H2 as _ <-. unfold keeps, settled, patches_emitted.
  cbn [bytecode set_bytecode code set_code loopStack].
  rewrite len_set_operand. split; [lia |].
  intros _. split; [exact id |].
  intros a [Ha Hn] HX. split; [split; [exact Ha | exact Hn] |].
  apply at_set_operand_ne; [lia | intros ->; exact (HX Hx)].
Qed.

(** An address that [emitJump] returns is new: later steps may patch it. *)
Lemma good_emitJump_then {B} (X : list Z) (op : OpCode) (k : Z → C B) :
  (∀ x, good (x :: X) (k x)) → good X (Compiler.bind (emitJump op) k).
Proof.
  intros Hk st r st' H. apply bind_inv in H as (x & st1 & H1 & H2).
  unfold emitJump, emit, codeSize, modify_bytecode, modify, Compiler.bind, get, Compiler.ret in H1.
  injection H1 as <- <-.
  apply Hk in H2 as [Hl H2]. unfold keeps, settled, patches_emitted in *.
  cbn [bytecode set_bytecode code set_code loopStack] in *.
  rewrite len_app in *. change (len [_]) with 1 in *.
  pose proof (len_nonneg (code (bytecode st))) as H0.
  split; [lia |].
  intros Hb. destruct (H2 Hb) as [Hw K]. split.
  { intros Hw0. apply Hw. intros a Ha. apply Hw0 in Ha. lia. }
  intros a [Ha Hn] HX.
  assert (u32 (u32 (len (code (bytecode st)) + 1) - 1) = len (code (bytecode st))) as Hx.
  { rewrite (u32_small (_ + 1)) by lia. rewrite u32_small by lia. lia. }
  rewrite Hx in K.
  destruct (K a) as [Hs He].
  - split; [lia | exact Hn].
  - apply not_elem_of_cons. split; [lia | exact HX].
  - split; [exact Hs |]. rewrite He. apply at_app_l. lia.
Qed.


Lemma awaits_patch_cons (a : Z) (loop : LoopContext) (ls : list LoopContext) :
  awaits_patch a (loop :: ls)
  ↔ (a ∈ breakPatches loop ∨ a ∈ continuePatches loop) ∨ awaits_patch a ls.
Proof.
  unfold awaits_patch. split.
  - intros (l & Hl & H). apply elem_of_cons in Hl as [-> | Hl]; [left; exact H | right; eauto].
  - intros [H | (l & Hl & H)]; [exists loop | exists l]; (split; [| exact H]).
    + apply elem_of_cons. left. reflexivity.
    + apply elem_of_cons. right. exact Hl.
Qed.

Lemma good_pushLoop (X : list Z) : good X (pushLoop (mkLoopContext [] [])).
Proof.
  intros st r st' [= _ <-]. split; [cbn; lia |].
  assert (∀ a, awaits_patch a (mkLoopContext [] [] :: loopStack st)
               → awaits_patch a (loopStack st)) as Hsame.
  { intros a. rewrite awaits_patch_cons. cbn [breakPatches continuePatches].
    intros [[H | H] | H]; [inversion H | inversion H | exact H]. }
  intros _. split.
  - intros Hw a Ha. apply Hw, Hsame, Ha.
  - intros a [Ha Hn] _. split; [| reflexivity]. split; [exact Ha |].
    intros H. apply Hn, Hsame, H.
Qed.

Lemma good_popLoop (X : list Z) : good X popLoop.
Proof.
  intros st r st' [= _ <-]. split; [cbn; lia |].
  assert (∀ a, awaits_patch a (tail (loopStack st)) → awaits_patch a (loopStack st)) as Hsub.
  { intros a H. destruct (loopStack st) as [| loop ls]; [exact H |].
    apply awaits_patch_cons. right. exact H. }
  intros _. split.
  - intros Hw a Ha. apply Hw, Hsub, Ha.
  - intros a [Ha Hn] _. split; [| reflexivity]. split; [exact Ha |].
    intros H. apply Hn, Hsub, H.
Qed.

(** The patch lists of the innermost loop hold no settled address. *)
Lemma good_patch_current (X : list Z) (sel : LoopContext → list Z) (target : Z) :
  (∀ loop a, a ∈ sel loop → a ∈ breakPatches loop ∨ a ∈ continuePatches loop) →
  ∀ st loop rest, loopStack st = loop :: rest →
    ∀ r st', patchJumps (sel loop) target st = Ok (r, st') → keeps X st st'.
Proof.
  intros Hsel st loop rest Hls r st' [= _ <-]. unfold keeps, settled, patches_emitted.
  cbn [bytecode set_bytecode code set_code loopStack]. rewrite len_patches.
  split; [lia |]. intros _. split; [exact id |].
  intros a [Ha Hn] _. split; [split; assumption |].
  apply at_patches_ne; [lia |]. intros Hin. apply Hn. rewrite Hls.
  apply awaits_patch_cons. left. apply Hsel, Hin.
Qed.

(** [break] and [continue] queue the address of the jump they emit. *)
Lemma keeps_queue_jump (X : list Z) (queue : LoopContext → Z → LoopContext) :
  (∀ loop jump a,
      a ∈ breakPatches (queue loop jump) ∨ a ∈ continuePatches (queue loop jump) →
      a = jump ∨ a ∈ breakPatches loop ∨ a ∈ continuePatches loop) →
  ∀ st loop rest r st',
    loopStack st = loop :: rest →
    Compiler.bind (emitJump OP_JMP)
      (fun jump => modify (fun st => set_loopStack (queue loop jump :: rest) st)) st
    = Ok (r, st') →
    keeps X st st'.
Proof.
  intros Hq st loop rest r st' Hls H.
  unfold emitJump, emit, codeSize, modify_bytecode, modify, Compiler.bind, get, Compiler.ret in H.
  injection H as _ <-. unfold keeps, settled, patches_emitted.
  cbn [bytecode set_bytecode code set_code loopStack set_loopStack].
  rewrite len_app. change (len [_]) with 1.
  pose proof (len_nonneg (code (bytecode st))) as H0.
  split; [lia |]. intros Hb.
  rewrite (u32_small (_ + 1)) by lia. rewrite u32_small by lia.
  assert (∀ a, awaits_patch a (queue loop (len (code (bytecode st)) + 1 - 1) :: rest)
               → a = len (code (bytecode st)) ∨ awaits_patch a (loopStack st)) as Hnew.
  { intros a. rewrite Hls, !awaits_patch_cons. intros [H | H]; [| auto].
    apply Hq in H as [-> | H]; [left; lia | auto]. }
  split.
  - intros Hw a Ha. apply Hnew in Ha as [-> | Ha]; [lia |]. apply Hw in Ha. lia.
  - intros a [Ha Hn] _. split; [split; [lia |] | apply at_app_l; lia].
    intros H. apply Hnew in H as [-> | H]; [lia | exact (Hn H)].
Qed.

Lemma good_compileBreak (X : list Z) : good X compileBreak.
Proof.
  intros st r st' H. unfold compileBreak in H.
  apply bind_inv in H as (s & st1 & [= <- <-] & H).
  destruct (loopStack st) as [| loop rest] eqn:Hls; [discriminate |].
  refine (keeps_queue_jump X (fun loop jump =>
            mkLoopContext (breakPatches loop ++ [jump]) (continuePatches loop))
            _ st loop rest r st' Hls H).
  cbn [breakPatches continuePatches]. intros l j a [Hin | Hin]; [| auto].
  apply elem_of_app in Hin as [Hin | Hin]; [auto |].
  apply list_elem_of_singleton in Hin. auto.
Qed.

Lemma good_compileContinue (X : list Z) : good X compileContinue.
Proof.
  intros st r st' H. unfold compileContinue in H.
  apply bind_inv in H as (s & st1 & [= <- <-] & H).
  destruct (loopStack st) as [| loop rest] eqn:Hls; [discriminate |].
  refine (keeps_queue_jump X (fun loop jump =>
            mkLoopContext (breakPatches loop) (continuePatches loop ++ [jump]))
            _ st loop rest r st' Hls H).
  cbn [breakPatches continuePatches]. intros l j a [Hin | Hin]; [auto |].
  apply elem_of_app in Hin as [Hin | Hin]; [auto |].
  apply list_elem_of_singleton in Hin. auto.
Qed.

(** ** Expressions *)

Lemma Expr_nested_ind (P : Expr → Prop) :
  P ENull →
  (∀ value, P (LiteralExpr value)) →
  (∀ name, P (VariableExpr name)) →
  (∀ lhs op rhs, P lhs → P rhs → P (BinaryExpr lhs op rhs)) →
  (∀ lhs op rhs, P lhs → P rhs → P (CompareExpr lhs op rhs)) →
  (∀ lhs op rhs, P lhs → P rhs → P (LogicalExpr lhs op rhs)) →
  (∀ className methodName args isNative,
      Forall P args → P (CallExpr className methodName args isNative)) →
  (∀ object name, P object → P (GetExpr object name)) →
  (∀ elements, Forall P elements → P (ArrayExpr elements)) →
  (∀ array index, P array → P index → P (IndexExpr array index)) →
  ∀ e, P e.
Proof.
  intros HNull HLit HVar HBin HCmp HLog HCall HGet HArr HIdx.
  fix IH 1. intros [| value | name | lhs op rhs | lhs op rhs | lhs op rhs
                    | className methodName args isNative | object name | elements
                    | array index].
  - exact HNull.
  - apply HLit.
  - apply HVar.
  - apply HBin; apply IH.
  - apply HCmp; apply IH.
  - apply HLog; apply IH.
  - apply HCall. induction args as [| e args IHargs]; constructor; [apply IH | exact IHargs].
  - apply HGet, IH.
  - apply HArr. induction elements as [| e l IHl]; constructor; [apply IH | exact IHl].
  - apply HIdx; apply IH.
Qed.

Lemma good_compileExprs (X : list Z) (exprs : list Expr) :
  Forall (fun e => ∀ X, good X (compileExpr e)) exprs →
  good X (compileExprs compileExpr exprs).
Proof.
  induction 1 as [| e exprs He _ IH]; cbn [compileExprs].
  - apply good_ret.
  - apply good_bind; [apply He | intros _; exact IH].
Qed.

Lemma quiet_emitPush :
  (∀ v, quiet (emitPushInt v)) ∧ (∀ v, quiet (emitPushFloat v))
  ∧ (∀ v, quiet (emitPushBool v)) ∧ (∀ v, quiet (emitPushString v)).
Proof.
  unfold emitPushInt, emitPushFloat, emitPushBool, emitPushString,
    addConstantInt, addConstantFloat, addConstantBool.
  split; [| split; [| split]]; intros v; quiet_tac;
    first [apply quiet_addConstantWith | apply quiet_addConstantString].
Qed.

Ltac quiet_known :=
  first [ apply quiet_emit | apply quiet_compileLiteral | apply quiet_compileVariable
        | apply quiet_emitCall | apply quiet_declareLocal | apply quiet_emitPushNil
        | apply quiet_codeSize | apply quiet_compileNewArray | apply quiet_pushConstant
        | apply quiet_emitPush ].

Ltac quiet_all := repeat first [quiet_known | quiet_step].

Ltac good_step :=
  lazymatch goal with
  | |- good _ (Compiler.bind (emitJump _) _) => apply good_emitJump_then; intros ?
  | |- good _ (Compiler.bind _ _) => apply good_bind; [| intros ?]
  | |- good _ (patchJump _) => apply good_patchJump; set_solver
  | |- good _ (pushLoop _) => apply good_pushLoop
  | |- good _ popLoop => apply good_popLoop
  | |- good _ compileBreak => apply good_compileBreak
  | |- good _ compileContinue => apply good_compileContinue
  | |- good _ (compileExpr _) => auto
  | |- good _ (compileStmt _) => auto
  | |- good _ (if ?b then _ else _) => destruct b
  | |- good _ (match ?x with _ => _ end) => destruct x
  | |- _ => apply good_of_quiet; quiet_all
  end.

Lemma good_compileExpr (e : Expr) : ∀ X, good X (compileExpr e).
Proof.
  induction e using Expr_nested_ind; intros X; cbn [compileExpr].
  all: try solve [repeat good_step].
  - apply good_bind; [apply good_compileExprs; assumption | intros _; good_step].
  - destruct elements as [| e l]; [good_step |].
    apply good_bind; [apply good_compileExprs; assumption | intros _].
    repeat good_step.
Qed.

(** ** Statements *)

Lemma Stmt_nested_ind (P : Stmt → Prop) :
  P SNull →
  (∀ expression, P (ExprStmt expression)) →
  (∀ isMutable type name initializer, P (VarDeclStmt isMutable type name initializer)) →
  (∀ name value, P (AssignStmt name value)) →
  (∀ statements, Forall P statements → P (BlockStmt statements)) →
  (∀ name parameters body, Forall P body → P (FunctionStmt name parameters body)) →
  (∀ value, P (ReturnStmt value)) →
  (∀ condition thenBranch elseBranch,
      P thenBranch → P elseBranch → P (IfStmt condition thenBranch elseBranch)) →
  (∀ condition body, P body → P (WhileStmt condition body)) →
  (∀ initializer condition increment body,
      P initializer → P body → P (ForStmt initializer condition increment body)) →
  P BreakStmt →
  P ContinueStmt →
  (∀ type name size initializer, P (ArrayDeclStmt type name size initializer)) →
  ∀ s, P s.
Proof.
  intros HNull HExpr HVar HAssign HBlock HFun HRet HIf HWhile HFor HBreak HCont HArr.
  fix IH 1. intros [| expression | isMutable type name initializer | name value
                    | statements | name parameters body | value
                    | condition thenBranch elseBranch | condition body
                    | initializer condition increment body | |
                    | type name size initializer].
  - exact HNull.
  - apply HExpr.
  - apply HVar.
  - apply HAssign.
  - apply HBlock. induction statements as [| s l IHl]; constructor; [apply IH | exact IHl].
  - apply HFun. induction body as [| s l IHl]; constructor; [apply IH | exact IHl].
  - apply HRet.
  - apply HIf; apply IH.
  - apply HWhile, IH.
  - apply HFor; apply IH.
  - exact HBreak.
  - exact HCont.
  - apply HArr.
Qed.

Lemma good_compileStmts (X : list Z) (stmts : list Stmt) :
  Forall (fun s => ∀ X, good X (compileStmt s)) stmts →
  good X (compileStmts compileStmt stmts).
Proof.
  induction 1 as [| s stmts Hs _ IH]; cbn [compileStmts].
  - apply good_ret.
  - apply good_bind; [apply Hs | intros _; exact IH].
Qed.

(** With the innermost loop at hand, patching one of its lists. *)
Lemma good_with_current {B} (X : list Z) (patch : LoopContext → C unit)
    (rest : LoopContext → C B) :
  (∀ st loop ls r st',
      loopStack st = loop :: ls → patch loop st = Ok (r, st') → keeps X st st') →
  (∀ loop, good X (rest loop)) →
  good X (Compiler.bind currentLoop
            (fun loop => Compiler.bind (patch loop) (fun _ => rest loop))).
Proof.
  intros Hpatch Hrest st r st' H. apply bind_inv in H as (back & st1 & H1 & H2).
  unfold currentLoop, Compiler.bind, get in H1.
  destruct (loopStack st) as [| loop ls] eqn:Hls; [discriminate |].
  injection H1 as <- <-.
  apply bind_inv in H2 as ([] & st2 & H2 & H3).
  eapply keeps_trans; [eapply Hpatch; eassumption | eapply Hrest, H3].
Qed.

Lemma keeps_patch_list (X : list Z) (sel : LoopContext → list Z) (target : C Z) :
  (∀ loop a, a ∈ sel loop → a ∈ breakPatches loop ∨ a ∈ continuePatches loop) →
  quiet target →
  ∀ st loop ls r st',
    loopStack st = loop :: ls →
    match sel loop with
    | [] => Compiler.ret tt
    | _ :: _ => Compiler.bind target (fun n => patchJumps (sel loop) n)
    end st = Ok (r, st') →
    keeps X st st'.
Proof.
  intros Hsel Htarget st loop ls r st' Hls H.
  destruct (sel loop) eqn:Hc; [injection H as _ <-; apply keeps_refl |].
  rewrite <- Hc in H. apply bind_inv in H as (n & st2 & H1 & H2).
  pose proof (good_of_quiet X _ Htarget _ _ _ H1) as K1.
  apply Htarget in H1 as (Hl1 & _).
  eapply keeps_trans; [exact K1 |].
  apply (good_patch_current X sel n Hsel st2 loop ls ltac:(congruence) r st' H2).
Qed.

Ltac stmt_step :=
  lazymatch goal with
  | |- good _ (compileExpr _) => apply good_compileExpr
  | |- _ => good_step
  end.

Ltac seq_step :=
  lazymatch goal with
  | |- good _ (Compiler.bind (emitJump _) _) => apply good_emitJump_then; intros ?
  | |- good _ (Compiler.bind currentLoop _) => fail
  | |- good _ (Compiler.bind _ _) => apply good_bind; [solve [repeat stmt_step] | intros ?]
  end.

Ltac patch_current sel target :=
  eapply good_with_current;
  [ intros ? ? ? ? ? Hls Hpatch;
    refine (keeps_patch_list _ sel target _ _ _ _ _ _ _ Hls Hpatch);
    [ auto | quiet_all ]
  | intros ? ].

Lemma good_compileStmt (s : Stmt) : ∀ X, good X (compileStmt s).
Proof.
  induction s using Stmt_nested_ind; intros X; cbn [compileStmt].
  - stmt_step.
  - unfold compileExprStmt. repeat stmt_step.
  - unfold compileVarDecl. repeat stmt_step.
  - unfold compileAssign, resolveLocal, resolveGlobal. repeat stmt_step.
  - apply good_bind; [stmt_step | intros _].
    apply good_bind; [apply good_compileStmts; assumption | intros _; stmt_step].
  - unfold compileFunctionWith. cbv zeta.
    do 4 (apply good_bind; [solve [repeat stmt_step] | intros ?]).
    apply good_bind; [apply good_compileStmts; assumption | intros _].
    repeat stmt_step.
  - unfold compileReturn. repeat stmt_step.
  - repeat stmt_step.
  - repeat seq_step.
    patch_current continuePatches codeSize.
    repeat seq_step.
    patch_current breakPatches codeSize.
    stmt_step.
  - repeat seq_step.
    patch_current continuePatches codeSize.
    repeat seq_step.
    match goal with
    | |- good _ (Compiler.bind currentLoop (fun back => Compiler.bind (match _ with
           | [] => _ | _ :: _ => patchJumps _ ?exitAddr end) _)) =>
        patch_current breakPatches (@Compiler.ret Z exitAddr)
    end.
    stmt_step.
  - stmt_step.
  - stmt_step.
  - unfold compileArrayDecl. repeat stmt_step.
Qed.

Ltac stmt_step ::=
  lazymatch goal with
  | |- good _ (compileExpr _) => apply good_compileExpr
  | |- good _ (compileStmt _) => apply good_compileStmt
  | |- _ => good_step
  end.

Lemma keeps_settled (st st' : State) (a : Z) :
  keeps [] st st' → len (code (bytecode st')) < 2 ^ 32 → settled a st →
  settled a st' ∧ at_ (code (bytecode st')) a = at_ (code (bytecode st)) a.
Proof. intros [_ K] Hb Ha. apply (K Hb); [exact Ha | apply not_elem_of_nil]. Qed.

Lemma keeps_patches_emitted (st st' : State) :
  keeps [] st st' → len (code (bytecode st')) < 2 ^ 32 →
  patches_emitted st → patches_emitted st'.
Proof. intros [_ K] Hb. apply (K Hb). Qed.

(** Every [for] loop with a condition that compiles leaves the
    [JMP_IFNOT] after its condition unpatched. *)
Lemma for_leaves_exit_jump (X : list Z)
    (initializer : Stmt) (condition increment : Expr) (body : Stmt) :
  is_null_expr condition = false →
  leaves_unpatched X (compileStmt (ForStmt initializer condition increment body)).
Proof.
  intros Hcond. split; [apply good_compileStmt |].
  intros st r st' H Hw Hb _. cbn [compileStmt] in H. rewrite Hcond in H. cbn [negb] in H.
  apply bind_inv in H as ([] & st1 & H1 & H).
  assert (keeps [] st st1) as K1.
  { destruct (negb (is_null_stmt initializer));
      [exact (good_compileStmt _ _ _ _ _ H1) | exact (good_ret _ _ _ _ _ H1)]. }
  apply bind_inv in H as ([] & st2 & H2 & H).
  pose proof (good_pushLoop [] _ _ _ H2) as K2.
  apply bind_inv in H as (loopStart & st2' & [= <- <-] & H).
  apply bind_inv in H as (loop & st4 & H4 & H).
  apply bind_inv in H4 as ([] & st3 & H3 & H4).
  pose proof (good_compileExpr condition [] _ _ _ H3) as K3.
  unfold emitJump, emit, codeSize, modify_bytecode, modify, Compiler.bind, get, Compiler.ret in H4.
  injection H4 as <- <-.
  match type of H with
  | ?m _ = _ => assert (good [] m) as G
  end.
  { repeat seq_step.
    patch_current continuePatches codeSize.
    repeat seq_step.
    match goal with
    | |- good _ (Compiler.bind currentLoop (fun back => Compiler.bind (match _ with
           | [] => _ | _ :: _ => patchJumps _ ?exitAddr end) _)) =>
        patch_current breakPatches (@Compiler.ret Z exitAddr)
    end.
    stmt_step. }
  apply G in H as K4. clear G H.
  set (st4 := set_bytecode _ st3) in K4.
  assert (len (code (bytecode st4)) = len (code (bytecode st3)) + 1) as Hl4.
  { subst st4. cbn [bytecode set_bytecode code set_code]. rewrite len_app. reflexivity. }
  pose proof (len_nonneg (code (bytecode st))) as H0.
  destruct K1 as [L1 K1'], K2 as [L2 K2'], K3 as [L3 K3'].
  pose proof K4 as [L4 _].
  assert (patches_emitted st3) as Hw3.
  { apply K3'; [lia |]. apply K2'; [lia |]. apply K1'; [lia | exact Hw]. }
  set (a := len (code (bytecode st3))).
  assert (settled a st4) as Ha.
  { split; [subst a; lia |]. intros Hin.
    change (loopStack st4) with (loopStack st3) in Hin. apply Hw3 in Hin. subst a. lia. }
  destruct (keeps_settled st4 st' a K4 Hb Ha) as [Hs He].
  exists a. split; [subst a; lia |]. split; [exact Hs |]. rewrite He.
  subst st4 a. cbn [bytecode set_bytecode code set_code].
  rewrite at_lookup by lia. unfold len. rewrite Nat2Z.id.
  apply list_lookup_middle. reflexivity.
Qed.

(** ** A compiled program keeps the unpatched jump of its [for] loops *)

Lemma leaves_unpatched_bind_l {A B} (X : list Z) (m : C A) (k : A → C B) :
  leaves_unpatched X m → (∀ x, good X (k x)) → leaves_unpatched X (Compiler.bind m k).
Proof.
  intros [Gm Hm] Hk. split; [apply good_bind; assumption |].
  intros st r st' H Hw Hb HX. apply bind_inv in H as (x & st1 & H1 & H2).
  destruct (Hk x _ _ _ H2) as [L2 K2]. destruct (K2 Hb) as [_ K].
  destruct (Hm _ _ _ H1 Hw ltac:(lia) HX) as (a & Hge & Hs & He).
  exists a. split; [exact Hge |].
  destruct (K a Hs) as [Hs' He'].
  - intros Hin. apply HX in Hin. lia.
  - split; [exact Hs' | congruence].
Qed.

Lemma leaves_unpatched_bind_r {A B} (X : list Z) (m : C A) (k : A → C B) :
  good X m → (∀ x, leaves_unpatched X (k x)) → leaves_unpatched X (Compiler.bind m k).
Proof.
  intros Gm Hk. split; [apply good_bind; [exact Gm | intros x; apply Hk] |].
  intros st r st' H Hw Hb HX. apply bind_inv in H as (x & st1 & H1 & H2).
  destruct (Gm _ _ _ H1) as [L1 K1]. destruct (Hk x) as [Gk Fk].
  destruct (Gk _ _ _ H2) as [L2 _].
  destruct (K1 ltac:(lia)) as [Hw1 _].
  destruct (Fk _ _ _ H2 (Hw1 Hw) Hb) as (a & Hge & Hu).
  - intros y Hy. apply HX in Hy. lia.
  - exists a. split; [lia | exact Hu].
Qed.

Lemma leaves_unpatched_emitJump_then {B} (X : list Z) (op : OpCode) (k : Z → C B) :
  (∀ x, leaves_unpatched (x :: X) (k x)) →
  leaves_unpatched X (Compiler.bind (emitJump op) k).
Proof.
  intros Hk. split; [apply good_emitJump_then; intros x; apply Hk |].
  intros st r st' H Hw Hb HX. apply bind_inv in H as (x & st1 & H1 & H2).
  unfold emitJump, emit, codeSize, modify_bytecode, modify, Compiler.bind, get, Compiler.ret in H1.
  injection H1 as <- <-. destruct (Hk (u32 (u32 (len (code (bytecode
    (set_bytecode (set_code (code (bytecode st) ++ [mkInstruction op 0xFFFFFFFF]) (bytecode st)) st)))) - 1)))
    as [Gk Fk].
  destruct (Gk _ _ _ H2) as [L2 _].
  pose proof (len_nonneg (code (bytecode st))) as H0.
  cbn [bytecode set_bytecode code set_code loopStack] in *.
  rewrite len_app in *. change (len [_]) with 1 in *.
  destruct (Fk _ _ _ H2) as (a & Hge & Hu).
  - intros a Ha. cbn [loopStack set_bytecode] in Ha. apply Hw in Ha.
    cbn [bytecode set_bytecode code set_code]. rewrite len_app. change (len [_]) with 1. lia.
  - exact Hb.
  - cbn [bytecode set_bytecode code set_code]. rewrite len_app. change (len [_]) with 1.
    intros y Hy. apply elem_of_cons in Hy as [-> | Hy]; [| apply HX in Hy; lia].
    rewrite (u32_small (_ + 1)) by lia. rewrite u32_small by lia. lia.
  - exists a. cbn [bytecode set_bytecode code set_code] in Hge. rewrite len_app in Hge.
    change (len [_]) with 1 in Hge. split; [lia | exact Hu].
Qed.

Lemma leaves_unpatched_compileStmts (stmts : list Stmt) :
  Forall (fun s => has_for s = true → ∀ X, leaves_unpatched X (compileStmt s)) stmts →
  existsb has_for stmts = true →
  ∀ X, leaves_unpatched X (compileStmts compileStmt stmts).
Proof.
  induction 1 as [| s stmts Hs Hall IH]; cbn [existsb compileStmts]; [discriminate |].
  intros Hex X. destruct (has_for s) eqn:Hfor.
  - apply leaves_unpatched_bind_l; [apply Hs; reflexivity | intros _].
    apply good_compileStmts. apply Forall_forall. intros; apply good_compileStmt.
  - apply leaves_unpatched_bind_r; [apply good_compileStmt | intros _].
    apply IH, Hex.
Qed.

Lemma has_for_not_null (s : Stmt) : has_for s = true → is_null_stmt s = false.
Proof. destruct s; [discriminate | reflexivity ..]. Qed.

Ltac before_step :=
  lazymatch goal with
  | |- leaves_unpatched _ (Compiler.bind (emitJump _) _) =>
      apply leaves_unpatched_emitJump_then; intros ?
  | |- leaves_unpatched _ (Compiler.bind _ _) =>
      apply leaves_unpatched_bind_r; [solve [repeat stmt_step] | intros ?]
  end.

Ltac rest_is_good :=
  intros ?; repeat seq_step;
  try (patch_current continuePatches codeSize; repeat seq_step;
       first [ patch_current breakPatches codeSize
             | match goal with
               | |- good _ (Compiler.bind currentLoop (fun back => Compiler.bind (match _ with
                      | [] => _ | _ :: _ => patchJumps _ ?exitAddr end) _)) =>
                   patch_current breakPatches (@Compiler.ret Z exitAddr)
               end ]);
  repeat stmt_step.

(** A statement that holds a [for] loop with a condition leaves an
    unpatched jump. *)
Lemma has_for_leaves_unpatched (s : Stmt) :
  has_for s = true → ∀ X, leaves_unpatched X (compileStmt s).
Proof.
  induction s using Stmt_nested_ind; cbn [has_for]; try discriminate; intros Hfor X;
    cbn [compileStmt].
  - before_step. apply leaves_unpatched_bind_l; [| rest_is_good].
    apply leaves_unpatched_compileStmts; assumption.
  - unfold compileFunctionWith. cbv zeta. do 4 before_step.
    apply leaves_unpatched_bind_l; [| rest_is_good].
    apply leaves_unpatched_compileStmts; assumption.
  - destruct (has_for s1) eqn:Hthen.
    + do 2 before_step. apply leaves_unpatched_bind_l; [auto | rest_is_good].
    + cbn [orb] in Hfor. rewrite (has_for_not_null s2 Hfor). cbn [negb].
      do 5 before_step. apply leaves_unpatched_bind_l; [auto | rest_is_good].
  - do 4 before_step. apply leaves_unpatched_bind_l; [auto | rest_is_good].
  - destruct (is_null_expr condition) eqn:Hcond.
    2:{ pose proof (for_leaves_exit_jump X s1 condition increment s2 Hcond) as HF.
        cbn [compileStmt] in HF. rewrite Hcond in HF. exact HF. }
    cbn [negb orb] in Hfor. destruct (has_for s1) eqn:Hinit.
    + rewrite (has_for_not_null s1 Hinit). cbn [negb].
      apply leaves_unpatched_bind_l; [auto | rest_is_good].
    + cbn [orb] in Hfor. do 4 before_step.
      apply leaves_unpatched_bind_l; [auto | rest_is_good].
Qed.

Lemma good_compileFunction (X : list Z) name parameters body :
  good X (compileFunction name parameters body "").
Proof. apply (good_compileStmt (FunctionStmt name parameters body)). Qed.

Lemma good_compile_others (X : list Z) (ast : list Stmt) : good X (compile_others ast).
Proof.
  induction ast as [| s ast IH]; cbn [compile_others]; [apply good_ret |].
  destruct s; try exact IH.
  apply good_bind; [| intros _; exact IH].
  destruct (negb _); [apply good_compileFunction | apply good_ret].
Qed.

Lemma good_compile_main (X : list Z) (ast : list Stmt) : good X (compile_main ast).
Proof.
  induction ast as [| s ast IH]; cbn [compile_main]; [apply good_ret |].
  destruct s; try exact IH.
  destruct (String.eqb _ _); [| exact IH].
  apply good_bind; [apply good_compileFunction | intros _; apply good_ret].
Qed.

Lemma leaves_unpatched_compile_others (X : list Z) (ast : list Stmt) :
  existsb has_for
    (List.filter (fun s => match s with
                           | FunctionStmt name _ _ => negb (String.eqb name "Main")
                           | _ => false
                           end) ast) = true →
  leaves_unpatched X (compile_others ast).
Proof.
  induction ast as [| s ast IH]; cbn [List.filter compile_others]; [discriminate |].
  destruct s as [| | | | | name parameters body | | | | | | |]; try exact IH.
  destruct (negb (String.eqb name "Main")); cbn [existsb].
  - destruct (has_for (FunctionStmt name parameters body)) eqn:Hfor.
    + intros _. apply leaves_unpatched_bind_l; [| intros _; apply good_compile_others].
      apply (has_for_leaves_unpatched (FunctionStmt name parameters body) Hfor).
    + intros Hex. apply leaves_unpatched_bind_r; [apply good_compileFunction | intros _].
      apply IH, Hex.
  - intros Hex. apply leaves_unpatched_bind_r; [apply good_ret | intros _].
    apply IH, Hex.
Qed.

Lemma leaves_unpatched_compile_main (X : list Z) (ast : list Stmt) :
  existsb has_for
    match List.find (fun s => match s with
                              | FunctionStmt name _ _ => String.eqb name "Main"
                              | _ => false
                              end) ast with
    | Some main => [main]
    | None => []
    end = true →
  leaves_unpatched X (compile_main ast).
Proof.
  induction ast as [| s ast IH]; cbn [List.find compile_main]; [discriminate |].
  destruct s as [| | | | | name parameters body | | | | | | |]; try exact IH.
  destruct (String.eqb name "Main"); [| exact IH].
  cbn [existsb]. rewrite orb_false_r. intros Hfor.
  apply leaves_unpatched_bind_l; [| intros _; apply good_ret].
  apply (has_for_leaves_unpatched (FunctionStmt name parameters body) Hfor).
Qed.

Lemma patches_emitted_newCompiler : patches_emitted newCompiler.
Proof. intros a (loop & Hin & _). inversion Hin. Qed.

(** C1, what the code does instead. Whenever [compile] accepts a program
    one of whose compiled functions holds a [for] loop with a condition, and
    the code fits 32-bit addresses, the image holds a [JMP_IFNOT] whose
    operand is still 0xFFFFFFFF. *)
Theorem for_exit_jump_is_never_patched (ast : list Stmt) (image : BytecodeFile) :
  existsb has_for (compiled_functions ast) = true →
  compile ast = Ok image →
  len (code image) < 2 ^ 32 →
  ∃ a, 0 <= a < len (code image)
       ∧ at_ (code image) a = Some (mkInstruction OP_JMP_IFNOT 0xFFFFFFFF).
Proof.
  intros Hfor H Hb. unfold compile in H.
  destruct (compile_ ast newCompiler) as [[[] st] | what] eqn:Hc; [| discriminate].
  injection H as <-.
  assert (leaves_unpatched [] (compile_ ast)) as [_ L].
  { unfold compile_. unfold compiled_functions in Hfor. rewrite existsb_app in Hfor.
    apply orb_true_iff in Hfor as [Hfor | Hfor].
    - apply leaves_unpatched_bind_l; [apply leaves_unpatched_compile_others, Hfor |].
      intros _. apply good_bind; [apply good_compile_main | intros ?].
      repeat stmt_step.
    - apply leaves_unpatched_bind_r; [apply good_compile_others | intros _].
      apply leaves_unpatched_bind_l; [apply leaves_unpatched_compile_main, Hfor |].
      intros ?. repeat stmt_step. }
  destruct (L _ _ _ Hc patches_emitted_newCompiler Hb) as (a & _ & [Ha _] & He).
  - intros x Hx. inversion Hx.
  - exists a. split; [exact Ha | exact He].
Qed.

(** The syntax tree of [fn Main(){ for(;true;){ } }] and its image. *)
Lemma for_exit_jump_is_never_patched_witness :
  ∃ a, 0 <= a < 6
       ∧ at_ [ mkInstruction OP_PUSH 0;
               mkInstruction OP_JMP_IFNOT 0xFFFFFFFF;
               mkInstruction OP_JMP 0;
               mkInstruction OP_PUSH 1;
               mkInstruction OP_RET 0;
               mkInstruction OP_HALT 0 ] a
         = Some (mkInstruction OP_JMP_IFNOT 0xFFFFFFFF).
Proof.
  apply (for_exit_jump_is_never_patched
           [FunctionStmt "Main" []
              [ForStmt SNull (LiteralExpr (Ast.BOOL true)) ENull (BlockStmt [])]]
           (mkBytecodeFile TAIL_MAGIC 1 0
              [ mkInstruction OP_PUSH 0;
                mkInstruction OP_JMP_IFNOT 0xFFFFFFFF;
                mkInstruction OP_JMP 0;
                mkInstruction OP_PUSH 1;
                mkInstruction OP_RET 0;
                mkInstruction OP_HALT 0 ]
              [CBool true; CNil] [] [] [] []
              [mkFunctionInfo "Main" 0 0 0] []));
    [reflexivity | vm_compute; reflexivity | reflexivity].
Defined.

(** The source [fn Main(){ for(;true;){ } }], in a file that is the only
    argument of [main], goes through the whole tool chain without error,
    and the [JMP_IFNOT] emitted after the condition keeps the operand
    0xFFFFFFFF. *)
Lemma for_loop_example_is_compiled (stod : string → option Z)
    (fs : Pipeline.FileSystem) (fuel : nat) (path : string) :
  Pipeline.endsWith path ".tail" = true →
  Pipeline.open_read fs path = Some "fn Main(){ for(;true;){ } }" →
  Pipeline.tailc stod fs fuel [path]
  = Ok (path_stem path +:+ ".tailc",
        mkBytecodeFile TAIL_MAGIC 1 0
          [ mkInstruction OP_PUSH 0;
            mkInstruction OP_JMP_IFNOT 0xFFFFFFFF;
            mkInstruction OP_JMP 0;
            mkInstruction OP_PUSH 1;
            mkInstruction OP_RET 0;
            mkInstruction OP_HALT 0 ]
          [CBool true; CNil] [] [] [] []
          [mkFunctionInfo "Main" 0 0 0] []).
Proof.
  intros Hpath Hread. PipelineFacts.single_file stod fs fuel Hpath Hread.
  vm_compute. reflexivity.
Qed.

(** C4, the failing input: an assignment to a declared local is parsed as
    the expression [x = 2] and the compiler rejects it. Given a file that
    holds this source as its only argument, [main] ends in its [catch] with
    the message of [compileBinary] and writes no image. *)
Theorem assignment_to_declared_local_is_rejected (stod : string → option Z)
    (fs : Pipeline.FileSystem) (fuel : nat) (path : string) :
  Pipeline.endsWith path ".tail" = true →
  Pipeline.open_read fs path = Some "fn Main(){ int x = 1; x = 2; }" →
  Pipeline.main stod fs fuel [path]
  = Err (Pipeline.CompilationFailed "Unknown binary operator: =").
Proof.
  intros Hpath Hread. unfold Pipeline.main.
  PipelineFacts.single_file stod fs fuel Hpath Hread.
  vm_compute. reflexivity.
Qed.

Lemma assignment_to_declared_local_is_rejected_witness :
  Pipeline.endsWith "main.tail" ".tail" = true
  ∧ ∀ stod fuel,
      Pipeline.main stod
        (Pipeline.with_file "main.tail" "fn Main(){ int x = 1; x = 2; }" Pipeline.empty_disk)
        fuel ["main.tail"]
      = Err (Pipeline.CompilationFailed "Unknown binary operator: =").
Proof.
  split; [reflexivity |]. intros stod fuel.
  apply (assignment_to_declared_local_is_rejected stod
           (Pipeline.with_file "main.tail" "fn Main(){ int x = 1; x = 2; }" Pipeline.empty_disk)
           fuel "main.tail"); reflexivity.
Defined.

(** ** Slots of block-local declarations *)

Lemma keeps_contexts_bind {A B} (m : C A) (k : A → C B) :
  keeps_contexts m → (∀ x, keeps_contexts (k x)) → keeps_contexts (Compiler.bind m k).
Proof.
  intros Hm Hk st r st' H. apply bind_inv in H as (x & st1 & H1 & H2).
  rewrite (Hk _ _ _ _ H2). exact (Hm _ _ _ H1).
Qed.

Lemma keeps_contexts_modify_bytecode (f : BytecodeFile → BytecodeFile) :
  keeps_contexts (modify_bytecode f).
Proof. intros st r st' [= _ <-]. reflexivity. Qed.

Ltac contexts_step :=
  lazymatch goal with
  | |- keeps_contexts (Compiler.bind _ _) => apply keeps_contexts_bind; [| intros ?]
  | |- keeps_contexts (modify_bytecode _) => apply keeps_contexts_modify_bytecode
  | |- keeps_contexts (Compiler.ret _) => intros ? ? ? [= _ <-]; reflexivity
  | |- keeps_contexts get => intros ? ? ? [= _ <-]; reflexivity
  | |- keeps_contexts (throw _) => intros ? ? ? [=]
  | |- keeps_contexts (if ?b then _ else _) => destruct b
  | |- keeps_contexts (match ?x with _ => _ end) => destruct x
  | |- keeps_contexts (compileExpr _) => auto
  end.

Ltac contexts_tac :=
  unfold compileLiteral, compileVariable, emitCall, compileNewArray, addNativeImport,
    emitPushInt, emitPushFloat, emitPushBool, emitPushString, emitPushNil,
    addConstantInt, addConstantFloat, addConstantBool, addConstantString, addConstantWith,
    pushConstant, resolveLocal, resolveGlobal, patchJump, emitJump, codeSize, emit;
  repeat contexts_step.

Lemma keeps_contexts_compileExprs (exprs : list Expr) :
  Forall (fun e => keeps_contexts (compileExpr e)) exprs →
  keeps_contexts (compileExprs compileExpr exprs).
Proof.
  induction 1 as [| e exprs He _ IH]; cbn [compileExprs].
  - contexts_tac.
  - apply keeps_contexts_bind; [exact He | intros _; exact IH].
Qed.

Lemma keeps_contexts_compileExpr (e : Expr) : keeps_contexts (compileExpr e).
Proof.
  induction e using Expr_nested_ind; cbn [compileExpr]; try solve [contexts_tac].
  - apply keeps_contexts_bind; [apply keeps_contexts_compileExprs; assumption | intros _].
    contexts_tac.
  - destruct elements as [| e l]; [contexts_tac |].
    apply keeps_contexts_bind; [apply keeps_contexts_compileExprs; assumption | intros _].
    contexts_tac.
Qed.

(** C6, what the code does instead. A declaration compiled in a block
    is stored to slot 0, whatever slots the enclosing function has given
    out: [compileBlock] pushes a context that counts from zero. *)
Theorem block_local_shares_slot_with_outer_local
    (isMutable : bool) (type name : string) (initializer : Expr) (st st' : State) :
  compileStmt (BlockStmt [VarDeclStmt isMutable type name initializer]) st = Ok (tt, st') →
  last (code (bytecode st')) = Some (mkInstruction OP_STORE 0).
Proof.
  intros H. cbn [compileStmt compileStmts] in H.
  apply bind_inv in H as ([] & st1 & [= <-] & H).
  apply bind_inv in H as ([] & st4 & H & [= <-]).
  apply bind_inv in H as ([] & st4' & H & [= <-]).
  unfold compileVarDecl in H.
  apply bind_inv in H as ([] & st2 & H2 & H).
  assert (contextStack st2 = newFunctionContext :: contextStack st) as Hctx.
  { revert H2. match goal with |- ?m _ = _ → _ => assert (keeps_contexts m) as K end.
    { pose proof (keeps_contexts_compileExpr initializer). contexts_tac. }
    intros H2. rewrite (K _ _ _ H2). reflexivity. }
  unfold declareLocal, Compiler.bind, get in H. rewrite Hctx in H.
  cbn in H. injection H as <-.
  cbn [bytecode set_bytecode set_contextStack code set_code].
  apply last_snoc.
Qed.

(** With [a] in slot 0 of the function, the block [{ int b = 2; }] stores
    [b] to slot 0 as well. *)
Lemma block_local_shares_slot_with_outer_local_witness :
  resolveLocal_in (contextStack example_with_local) "a" = 0
  ∧ ∃ st', compileStmt (BlockStmt [VarDeclStmt true "int" "b" (LiteralExpr (Ast.INT 2))])
             example_with_local = Ok (tt, st')
           ∧ last (code (bytecode st')) = Some (mkInstruction OP_STORE 0).
Proof.
  split; [reflexivity |]. eexists. split; [vm_compute; reflexivity |].
  apply (block_local_shares_slot_with_outer_local true "int" "b" (LiteralExpr (Ast.INT 2))
           example_with_local).
  vm_compute. reflexivity.
Defined.

(** In [fn Main(){ int a = 1; { int b = 2; } }] the local [a], declared in
    the body of [Main], and [b], declared in a nested block, are both stored
    to slot 0, while the function is given two local slots. *)
Lemma block_example_is_compiled (stod : string → option Z)
    (fs : Pipeline.FileSystem) (fuel : nat) (path : string) :
  Pipeline.endsWith path ".tail" = true →
  Pipeline.open_read fs path = Some "fn Main(){ int a = 1; { int b = 2; } }" →
  Pipeline.tailc stod fs fuel [path]
  = Ok (path_stem path +:+ ".tailc",
        mkBytecodeFile TAIL_MAGIC 1 0
          [ mkInstruction OP_PUSH 0;
            mkInstruction OP_STORE 0;
            mkInstruction OP_PUSH 1;
            mkInstruction OP_STORE 0;
            mkInstruction OP_PUSH 2;
            mkInstruction OP_RET 0;
            mkInstruction OP_HALT 0 ]
          [CInt 1; CInt 2; CNil] [] [] [] []
          [mkFunctionInfo "Main" 0 0 2] []).
Proof.
  intros Hpath Hread. PipelineFacts.single_file stod fs fuel Hpath Hread.
  vm_compute. reflexivity.
Qed.

(** The example image of the virtual machine is what [main] builds for its
    source, held by [main.tail], on any disk. *)
Lemma example_program_is_compiled (stod : string → option Z)
    (fs : Pipeline.FileSystem) (fuel : nat) :
  Pipeline.tailc stod
    (Pipeline.with_file "main.tail"
       "fn f(int a) { return a; } fn Main() { int x = 7; Console.println(1 + f(9)); }" fs)
    fuel ["main.tail"]
  = Ok ("main.tailc", VM.example_program).
Proof. vm_compute. reflexivity. Qed.

End CompilerFacts.

(** * The compiler: what every compiled image satisfies *)

Module CompilerMoreFacts.
Import Ast TVM Compiler BasicFacts CompilerFacts.
Import VMExec.

Lemma preserves_ret {A} (I : State → Prop) (a : A) : preserves I (Compiler.ret a).
Proof. intros st x st' HI [= _ <-]. exact HI. Qed.

Lemma preserves_throw {A} (I : State → Prop) (what : string) : preserves I (@throw A what).
Proof. intros st x st' _ H. discriminate H. Qed.

Lemma preserves_get (I : State → Prop) : preserves I get.
Proof. intros st x st' HI [= _ <-]. exact HI. Qed.

Lemma preserves_bind {A B} (I : State → Prop) (m : C A) (k : A → C B) :
  preserves I m → (∀ a, preserves I (k a)) → preserves I (Compiler.bind m k).
Proof.
  intros Hm Hk st b st' HI H. apply bind_inv in H as (a & st1 & H1 & H2).
  exact (Hk a st1 b st' (Hm st a st1 HI H1) H2).
Qed.

Lemma preserves_modify (I : State → Prop) (f : State → State) :
  (∀ st, I st → I (f st)) → preserves I (modify f).
Proof. intros Hf st x st' HI [= _ <-]. apply Hf, HI. Qed.

Lemma tidy_modify_bytecode (f : BytecodeFile → BytecodeFile) :
  (∀ b, tidy_image b → tidy_image (f b)) → preserves tidy (modify_bytecode f).
Proof.
  intros Hf. apply preserves_modify. intros st [Hg Hb]. split; [exact Hg | apply Hf, Hb].
Qed.

Lemma tidy_emit (op : OpCode) (operand : Z) :
  op ∈ emitted_opcodes → preserves tidy (emit op operand).
Proof.
  intros Hop. apply tidy_modify_bytecode. intros b (Hc & Hrest).
  split; [| exact Hrest]. cbn [code set_code].
  apply Forall_app. split; [exact Hc |]. constructor; [exact Hop | constructor].
Qed.

Lemma Forall_set_operand (Q : OpCode → Prop) (addr target : Z) (cd : list Instruction) :
  Forall (fun i => Q (opcode i)) cd →
  Forall (fun i => Q (opcode i)) (set_operand addr target cd).
Proof.
  intros H. unfold set_operand. destruct (at_ cd addr) as [i |] eqn:E; [| exact H].
  unfold update_at. apply Forall_insert; [exact H |]. cbn [opcode].
  unfold at_ in E. destruct (addr <? 0); [discriminate |].
  rewrite Forall_lookup in H. exact (H _ _ E).
Qed.

Lemma Forall_patches (Q : OpCode → Prop) (patches : list Z) (target : Z)
    (cd : list Instruction) :
  Forall (fun i => Q (opcode i)) cd →
  Forall (fun i => Q (opcode i))
    (fold_left (fun cd addr => set_operand addr target cd) patches cd).
Proof.
  revert cd. induction patches as [| a patches IH]; intros cd H; [exact H |].
  cbn [fold_left]. apply IH, Forall_set_operand, H.
Qed.

Lemma tidy_codeSize : preserves tidy codeSize.
Proof. intros st x st' HI [= _ <-]. exact HI. Qed.

Lemma tidy_patchJump (jumpAddr : Z) : preserves tidy (patchJump jumpAddr).
Proof.
  unfold patchJump. apply preserves_bind; [apply tidy_codeSize | intros n].
  apply tidy_modify_bytecode. intros b (Hc & Hrest). split; [| exact Hrest].
  cbn [code set_code]. apply (Forall_set_operand (fun op => op ∈ emitted_opcodes)), Hc.
Qed.

Lemma tidy_patchJumps (patches : list Z) (target : Z) :
  preserves tidy (patchJumps patches target).
Proof.
  apply tidy_modify_bytecode. intros b (Hc & Hrest). split; [| exact Hrest].
  cbn [code set_code]. apply (Forall_patches (fun op => op ∈ emitted_opcodes)), Hc.
Qed.

Lemma tidy_pushConstant (cst : Constant) :
  (∀ k, cst ≠ CString k) → preserves tidy (pushConstant cst).
Proof.
  intros Hcst. unfold pushConstant.
  apply preserves_bind; [apply preserves_get | intros st0].
  apply preserves_bind; [| intros _; apply preserves_ret].
  apply tidy_modify_bytecode. intros b (Hc & Hm & Hv & Hf & Hi & Hfl & Hs & Hcs).
  repeat (split; [assumption |]). cbn [constants strings set_constants].
  apply Forall_app. split; [exact Hcs |]. constructor; [| constructor].
  destruct cst; try exact I. destruct (Hcst stringIdx eq_refl).
Qed.

Lemma tidy_addConstantWith (p : Constant → bool) (cst : Constant) :
  (∀ k, cst ≠ CString k) → preserves tidy (addConstantWith p cst).
Proof.
  intros Hcst. unfold addConstantWith.
  apply preserves_bind; [apply preserves_get | intros st0].
  destruct (findConstant _ _); [apply preserves_ret | apply tidy_pushConstant, Hcst].
Qed.

Lemma Forall_string_in_range_grow (strs : list string) (value : string) (cs : list Constant) :
  Forall (string_in_range strs) cs → Forall (string_in_range (strs ++ [value])) cs.
Proof.
  intros H. eapply Forall_impl; [exact H |]. intros c Hc. destruct c; try exact I.
  cbn in *. rewrite len_app. unfold len at 2. cbn. lia.
Qed.

Lemma tidy_addConstantString (value : string) : preserves tidy (addConstantString value).
Proof.
  intros st idx st' [Hg (Hc & Hm & Hv & Hf & Hi & Hfl & Hs & Hcs)] H.
  unfold addConstantString, Compiler.bind, get in H.
  destruct (findStringConstant _ _ _ _) as [j |].
  - injection H as _ <-. split; [exact Hg |]. repeat (split; [assumption |]). exact Hcs.
  - cbn in H. injection H as _ <-. split; [exact Hg |].
    cbn [bytecode set_bytecode set_strings set_constants code magic version flags
         intArrays floatArrays stringArrays constants strings].
    repeat (split; [assumption |]).
    apply Forall_app. split; [apply Forall_string_in_range_grow, Hcs |].
    constructor; [| constructor]. cbn [string_in_range strings set_constants set_strings].
    rewrite len_app. change (len [value]) with 1.
    pose proof (len_nonneg (strings (bytecode st))) as Hn.
    unfold u32. pose proof (Z.mod_pos_bound (len (strings (bytecode st))) (2 ^ 32) eq_refl).
    pose proof (Z.mod_le (len (strings (bytecode st))) (2 ^ 32) Hn eq_refl). unfold len in *. lia.
Qed.

Create HintDb tidy discriminated.

#[local] Hint Resolve preserves_ret preserves_throw preserves_get tidy_codeSize
  tidy_patchJump tidy_patchJumps tidy_addConstantString : tidy.

Ltac emitted_tac := apply (bool_decide_unpack _); vm_compute; exact I.

Ltac tidy_known :=
  first
    [ assumption
    | solve [auto 1 with tidy nocore]
    | apply tidy_emit; emitted_tac
    | apply tidy_addConstantWith; intros ?; discriminate
    | apply tidy_pushConstant; intros ?; discriminate
    | apply preserves_modify; intros ? HI; exact HI ].

Ltac tidy_step :=
  first
    [ tidy_known
    | lazymatch goal with
      | |- preserves _ (Compiler.bind _ _) => apply preserves_bind; [| intros ?]
      | |- preserves _ (if ?b then _ else _) => destruct b
      | |- preserves _ (match ?x with _ => _ end) => destruct x
      end ].

Ltac tidy_tac := repeat tidy_step.

Lemma tidy_emitJump (op : OpCode) : op ∈ emitted_opcodes → preserves tidy (emitJump op).
Proof.
  intros Hop. unfold emitJump.
  apply preserves_bind; [apply tidy_emit, Hop | intros _]. tidy_tac.
Qed.

Lemma tidy_emitPushInt value : preserves tidy (emitPushInt value).
Proof. unfold emitPushInt, addConstantInt. tidy_tac. Qed.

Lemma tidy_emitPushFloat value : preserves tidy (emitPushFloat value).
Proof. unfold emitPushFloat, addConstantFloat. tidy_tac. Qed.

Lemma tidy_emitPushBool value : preserves tidy (emitPushBool value).
Proof. unfold emitPushBool, addConstantBool. tidy_tac. Qed.

Lemma tidy_emitPushString value : preserves tidy (emitPushString value).
Proof. unfold emitPushString. tidy_tac. Qed.

Lemma tidy_emitPushNil : preserves tidy emitPushNil.
Proof. unfold emitPushNil. tidy_tac. Qed.

#[local] Hint Resolve tidy_emitPushInt tidy_emitPushFloat tidy_emitPushBool
  tidy_emitPushString tidy_emitPushNil : tidy.

Lemma tidy_compileNewArray elemType size : preserves tidy (compileNewArray elemType size).
Proof. unfold compileNewArray. destruct elemType; tidy_tac. Qed.

Lemma tidy_addNativeImport name : preserves tidy (addNativeImport name).
Proof.
  unfold addNativeImport. apply preserves_bind; [apply preserves_get | intros st0].
  destruct (list_find _ _) as [[i n] |]; [apply preserves_ret |].
  apply preserves_bind; [| intros _; apply preserves_ret].
  apply tidy_modify_bytecode. intros b Hb. exact Hb.
Qed.

Lemma tidy_declareLocal name : preserves tidy (declareLocal name).
Proof. unfold declareLocal, addLocal. tidy_tac. Qed.

Lemma tidy_resolveLocal name : preserves tidy (resolveLocal name).
Proof. unfold resolveLocal. tidy_tac. Qed.

(** The table of globals is empty, so the branch for a global variable
    always ends in "Undefined variable". *)
Lemma tidy_global_branch (name : string) (op : OpCode) (what : string) :
  preserves tidy
    (Compiler.bind (resolveGlobal name)
       (fun idx => if negb (idx =? UINT32_MAX) then emit op idx else throw what)).
Proof.
  intros st a st' [Hg _] H. unfold resolveGlobal, get, Compiler.bind in H.
  cbv beta iota in H. rewrite Hg, lookup_empty in H. cbn in H. discriminate H.
Qed.

#[local] Hint Resolve tidy_compileNewArray tidy_addNativeImport tidy_declareLocal
  tidy_resolveLocal tidy_global_branch : tidy.

Lemma tidy_compileLiteral value : preserves tidy (compileLiteral value).
Proof. unfold compileLiteral. destruct value; tidy_tac. Qed.

Lemma tidy_compileVariable name : preserves tidy (compileVariable name).
Proof. unfold compileVariable. tidy_tac. Qed.

Lemma tidy_emitCall className methodName isNative :
  preserves tidy (emitCall className methodName isNative).
Proof. unfold emitCall. tidy_tac. Qed.

#[local] Hint Resolve tidy_compileLiteral tidy_compileVariable tidy_emitCall
  tidy_emitJump : tidy.

Lemma tidy_compileExprs (exprs : list Expr) :
  Forall (fun e => preserves tidy (compileExpr e)) exprs →
  preserves tidy (compileExprs compileExpr exprs).
Proof.
  induction 1 as [| e exprs He _ IH]; cbn [compileExprs]; [apply preserves_ret |].
  apply preserves_bind; [exact He | intros _; exact IH].
Qed.

Lemma tidy_compileExpr (e : Expr) : preserves tidy (compileExpr e).
Proof.
  induction e using Expr_nested_ind; cbn [compileExpr].
  - tidy_tac.
  - tidy_tac.
  - tidy_tac.
  - tidy_tac.
  - tidy_tac.
  - repeat first [ apply tidy_emitJump; emitted_tac | tidy_step ].
  - apply preserves_bind; [apply tidy_compileExprs; assumption | intros _]. tidy_tac.
  - tidy_tac.
  - destruct elements as [| e elements]; [tidy_tac |].
    apply preserves_bind; [apply tidy_compileExprs; assumption | intros _]. tidy_tac.
  - tidy_tac.
Qed.

#[local] Hint Resolve tidy_compileExpr : tidy.

Lemma tidy_compileVarDecl type name initializer :
  preserves tidy (compileVarDecl type name initializer).
Proof. unfold compileVarDecl. tidy_tac. Qed.

Lemma tidy_compileAssign name value : preserves tidy (compileAssign name value).
Proof. unfold compileAssign. tidy_tac. Qed.

Lemma tidy_compileExprStmt expression : preserves tidy (compileExprStmt expression).
Proof. unfold compileExprStmt. tidy_tac. Qed.

Lemma tidy_compileReturn value : preserves tidy (compileReturn value).
Proof. unfold compileReturn. tidy_tac. Qed.

Lemma tidy_currentLoop : preserves tidy currentLoop.
Proof. unfold currentLoop. tidy_tac. Qed.

Lemma tidy_pushLoop loop : preserves tidy (pushLoop loop).
Proof. unfold pushLoop. tidy_tac. Qed.

Lemma tidy_popLoop : preserves tidy popLoop.
Proof. unfold popLoop. tidy_tac. Qed.

Lemma tidy_compileBreak : preserves tidy compileBreak.
Proof.
  unfold compileBreak. repeat first [ apply tidy_emitJump; emitted_tac | tidy_step ].
Qed.

Lemma tidy_compileContinue : preserves tidy compileContinue.
Proof.
  unfold compileContinue. repeat first [ apply tidy_emitJump; emitted_tac | tidy_step ].
Qed.

Lemma tidy_compileArrayDecl type name size initializer :
  preserves tidy (compileArrayDecl type name size initializer).
Proof. unfold compileArrayDecl. tidy_tac. Qed.

#[local] Hint Resolve tidy_compileVarDecl tidy_compileAssign tidy_compileExprStmt
  tidy_compileReturn tidy_currentLoop tidy_pushLoop tidy_popLoop tidy_compileBreak
  tidy_compileContinue tidy_compileArrayDecl : tidy.

Lemma tidy_compileStmts (stmts : list Stmt) :
  Forall (fun s => preserves tidy (compileStmt s)) stmts →
  preserves tidy (compileStmts compileStmt stmts).
Proof.
  induction 1 as [| s stmts Hs _ IH]; cbn [compileStmts]; [apply preserves_ret |].
  apply preserves_bind; [exact Hs | intros _; exact IH].
Qed.

Lemma tidy_compileFunctionWith (compileBody : list Stmt → C unit) name parameters body
    sourceFileName :
  preserves tidy (compileBody body) →
  preserves tidy (compileFunctionWith compileBody name parameters body sourceFileName).
Proof.
  intros Hbody. unfold compileFunctionWith.
  repeat first
    [ apply tidy_modify_bytecode; intros b Hb; exact Hb
    | tidy_step ].
Qed.

Lemma tidy_compileStmt (s : Stmt) : preserves tidy (compileStmt s).
Proof.
  induction s using Stmt_nested_ind; cbn [compileStmt];
    try solve [repeat first [ apply tidy_emitJump; emitted_tac | tidy_step ]].
  - apply preserves_bind; [tidy_tac | intros _].
    apply preserves_bind; [apply tidy_compileStmts; assumption | intros _]. tidy_tac.
  - apply tidy_compileFunctionWith, tidy_compileStmts. assumption.
Qed.

Lemma tidy_compileFunction name parameters body sourceFileName :
  preserves tidy (compileFunction name parameters body sourceFileName).
Proof.
  apply tidy_compileFunctionWith, tidy_compileStmts.
  apply Forall_forall. intros s _. apply tidy_compileStmt.
Qed.

#[local] Hint Resolve tidy_compileFunction : tidy.

Lemma tidy_compile_others (ast : list Stmt) : preserves tidy (compile_others ast).
Proof.
  induction ast as [| s ast IH]; cbn [compile_others]; [apply preserves_ret |].
  destruct s; tidy_tac.
Qed.

Lemma tidy_compile_main (ast : list Stmt) : preserves tidy (compile_main ast).
Proof.
  induction ast as [| s ast IH]; cbn [compile_main]; [apply preserves_ret |].
  destruct s; tidy_tac.
Qed.

#[local] Hint Resolve tidy_compile_others tidy_compile_main : tidy.

Lemma tidy_compile_ (ast : list Stmt) : preserves tidy (compile_ ast).
Proof. unfold compile_. tidy_tac. Qed.

Lemma tidy_newCompiler : tidy newCompiler.
Proof.
  split; [reflexivity |]. split; [constructor |].
  repeat (split; [reflexivity |]). constructor.
Qed.

Lemma compile_tidy (ast : list Stmt) (image : BytecodeFile) :
  compile ast = Ok image → tidy_image image.
Proof.
  unfold compile. destruct (compile_ ast newCompiler) as [[[] st] | what] eqn:E; [| discriminate].
  intros [= <-]. exact (proj2 (tidy_compile_ ast _ _ _ tidy_newCompiler E)).
Qed.

Lemma emitted_is_not_never_emitted (op : OpCode) :
  op ∈ emitted_opcodes → op ∉ never_emitted.
Proof.
  assert (Forall (fun op => op ∉ never_emitted) emitted_opcodes) as H
    by (apply (bool_decide_unpack _); vm_compute; exact I).
  rewrite Forall_forall in H. apply H.
Qed.

(** Every instruction of an image that [compile] returns has one of the 28
    opcodes of [emitted_opcodes]. The compiler never emits [LOAD_GLOBAL] or
    [STORE_GLOBAL], because nothing ever enters its table of globals, nor
    [DUP], [SWAP], [NEG], [INC], [DEC], [AND], [OR], [STORE_INDEX] or
    [ARRAY_LEN], which the virtual machine implements. *)
Theorem compiler_emits_only_these_opcodes (ast : list Stmt) (image : BytecodeFile) :
  compile ast = Ok image →
  Forall (fun i => opcode i ∈ emitted_opcodes ∧ opcode i ∉ never_emitted) (code image).
Proof.
  intros H. destruct (compile_tidy ast image H) as (Hc & _).
  eapply Forall_impl; [exact Hc |]. intros i Hi.
  split; [exact Hi | apply emitted_is_not_never_emitted, Hi].
Qed.

Lemma compiler_emits_only_these_opcodes_witness :
  Forall (fun i => opcode i ∈ emitted_opcodes ∧ opcode i ∉ never_emitted)
    [ mkInstruction OP_PUSH 0; mkInstruction OP_PRINTLN 0; mkInstruction OP_PUSH 1;
      mkInstruction OP_RET 0; mkInstruction OP_HALT 0 ].
Proof.
  apply (compiler_emits_only_these_opcodes (hello "hi")
           (mkBytecodeFile TAIL_MAGIC 1 0
              [ mkInstruction OP_PUSH 0; mkInstruction OP_PRINTLN 0; mkInstruction OP_PUSH 1;
                mkInstruction OP_RET 0; mkInstruction OP_HALT 0 ]
              [CString 0; CNil] ["hi"%string] [] [] []
              [mkFunctionInfo "Main" 0 0 0] [])).
  vm_compute. reflexivity.
Defined.

(** An image that [compile] returns carries the magic "TAIL", version 1 and
    no flags; its three array pools are empty; and every string constant
    refers to an entry of its string table, so the machine can always
    resolve it. *)
Theorem compiled_image_header_and_pools (ast : list Stmt) (image : BytecodeFile) :
  compile ast = Ok image →
  magic image = TAIL_MAGIC ∧ version image = 1 ∧ flags image = 0
  ∧ intArrays image = [] ∧ floatArrays image = [] ∧ stringArrays image = []
  ∧ ∀ i k, at_ (constants image) i = Some (CString k) →
           ∃ s, at_ (strings image) k = Some s.
Proof.
  intros H. destruct (compile_tidy ast image H) as (_ & Hm & Hv & Hf & Hi & Hfl & Hs & Hcs).
  repeat (split; [assumption |]).
  intros i k Hik. unfold at_ in Hik. destruct (i <? 0); [discriminate |].
  rewrite Forall_lookup in Hcs. specialize (Hcs _ _ Hik). cbn in Hcs.
  rewrite at_lookup by lia.
  destruct (lookup_lt_is_Some (strings image) (Z.to_nat k)) as [_ Hlt].
  destruct Hlt as [s Hs']; [unfold len in Hcs; lia |]. exists s. exact Hs'.
Qed.

Lemma compiled_image_header_and_pools_witness :
  TAIL_MAGIC = TAIL_MAGIC ∧ 1 = 1 ∧ 0 = 0
  ∧ @nil (list Z) = [] ∧ @nil (list Z) = [] ∧ @nil (list string) = []
  ∧ ∀ i k, at_ [CString 0; CNil] i = Some (CString k) →
           ∃ s, at_ ["hi"%string] k = Some s.
Proof.
  apply (compiled_image_header_and_pools (hello "hi")
           (mkBytecodeFile TAIL_MAGIC 1 0
              [ mkInstruction OP_PUSH 0; mkInstruction OP_PRINTLN 0; mkInstruction OP_PUSH 1;
                mkInstruction OP_RET 0; mkInstruction OP_HALT 0 ]
              [CString 0; CNil] ["hi"%string] [] [] []
              [mkFunctionInfo "Main" 0 0 0] [])).
  vm_compute. reflexivity.
Defined.

Lemma compileFunctionWith_last (compileBody : list Stmt → C unit) name parameters body
    (st st' : State) :
  compileFunctionWith compileBody name parameters body "" st = Ok (tt, st') →
  ∃ f, last (functions (bytecode st')) = Some f ∧ TVM.name f = name.
Proof.
  intros H. unfold compileFunctionWith in H.
  repeat (apply bind_inv in H as (? & ? & _ & H)).
  injection H as <-. cbn [bytecode set_bytecode functions set_functions].
  eexists. split; [apply last_snoc | reflexivity].
Qed.

Lemma compile_main_true (ast : list Stmt) (st st' : State) :
  compile_main ast st = Ok (true, st') →
  (∃ parameters body, FunctionStmt "Main" parameters body ∈ ast)
  ∧ ∃ f, last (functions (bytecode st')) = Some f ∧ TVM.name f = "Main"%string.
Proof.
  induction ast as [| s ast IH]; cbn [compile_main]; [discriminate |].
  assert (compile_main ast st = Ok (true, st') →
          (∃ parameters body, FunctionStmt "Main" parameters body ∈ s :: ast)
          ∧ ∃ f, last (functions (bytecode st')) = Some f ∧ TVM.name f = "Main"%string) as Hrest.
  { intros H. destruct (IH H) as ((parameters & body & Hin) & Hf). split; [| exact Hf].
    exists parameters, body. apply elem_of_cons. right. exact Hin. }
  destruct s as [| | | | | fname parameters body | | | | | | |]; try exact Hrest.
  destruct (String.eqb_spec fname "Main") as [-> | _]; [| exact Hrest].
  intros H. apply bind_inv in H as ([] & st1 & H1 & H2). injection H2 as <-.
  unfold compileFunction in H1.
  split; [| exact (compileFunctionWith_last _ _ _ _ _ _ H1)].
  exists parameters, body. apply elem_of_cons. left. reflexivity.
Qed.

Lemma boot_finds_last_main (image : BytecodeFile) (f : FunctionInfo) (m : Machine) :
  last (functions image) = Some f → TVM.name f = "Main"%string →
  ∃ m', boot image m = Ok m'.
Proof.
  intros Hlast Hname. unfold boot.
  destruct (list_find _ (functions image)) as [[i g] |] eqn:E; [eexists; reflexivity |].
  exfalso. apply list_find_None in E. apply last_Some in Hlast as [l' Hl'].
  rewrite Hl' in E. apply Forall_app in E as [_ E]. apply Forall_cons in E as [E _].
  exact (E Hname).
Qed.

(** [compile] accepts a program only if it holds a function [Main]. The
    image then ends with [HALT], and the last entry of its function table is
    [Main], which is compiled after every other function; so the machine
    always finds [Main] in a compiled image and starts. *)
Theorem compiled_image_has_main_and_halt (ast : list Stmt) (image : BytecodeFile) :
  compile ast = Ok image →
  (∃ parameters body, FunctionStmt "Main" parameters body ∈ ast)
  ∧ (∃ i, last (code image) = Some i ∧ opcode i = OP_HALT)
  ∧ (∃ f, last (functions image) = Some f ∧ TVM.name f = "Main"%string)
  ∧ ∀ m, ∃ m', boot image m = Ok m'.
Proof.
  enough (compile ast = Ok image →
          (∃ parameters body, FunctionStmt "Main" parameters body ∈ ast)
          ∧ (∃ i, last (code image) = Some i ∧ opcode i = OP_HALT)
          ∧ ∃ f, last (functions image) = Some f ∧ TVM.name f = "Main"%string) as Hshape.
  { intros Hc. destruct (Hshape Hc) as (H1 & H2 & f & Hf & Hname).
    split; [exact H1 |]. split; [exact H2 |]. split; [exists f; split; assumption |].
    intros m. exact (boot_finds_last_main image f m Hf Hname). }
  unfold compile. destruct (compile_ ast newCompiler) as [[[] st] | what] eqn:E; [| discriminate].
  intros [= <-]. unfold compile_ in E.
  apply bind_inv in E as ([] & st1 & _ & E).
  apply bind_inv in E as (hasMain & st2 & Hmain & E).
  destruct hasMain; [| discriminate E]. cbn [negb] in E.
  destruct (compile_main_true ast st1 st2 Hmain) as (Hin & f & Hf & Hname).
  apply bind_inv in E as (st3 & st4 & Hget & E). injection Hget as <- <-.
  split; [exact Hin |].
  destruct (last (code (bytecode st2))) as [i |] eqn:Hlast.
  - destruct (Z.eqb_spec (opcode i) OP_HALT) as [Hop | Hop]; cbn [negb] in E.
    + injection E as <-. split; [exists i; split; assumption |]. exists f. split; assumption.
    + injection E as <-. cbn [bytecode set_bytecode code set_code functions].
      split; [eexists; split; [apply last_snoc | reflexivity] |]. exists f. split; assumption.
  - injection E as <-. cbn [bytecode set_bytecode code set_code functions].
    split; [eexists; split; [apply last_snoc | reflexivity] |]. exists f. split; assumption.
Qed.

Lemma compiled_image_has_main_and_halt_witness :
  (∃ parameters body, FunctionStmt "Main" parameters body ∈ hello "hi")
  ∧ (∃ i, last [ mkInstruction OP_PUSH 0; mkInstruction OP_PRINTLN 0; mkInstruction OP_PUSH 1;
                 mkInstruction OP_RET 0; mkInstruction OP_HALT 0 ] = Some i
          ∧ opcode i = OP_HALT)
  ∧ (∃ f, last [mkFunctionInfo "Main" 0 0 0] = Some f ∧ TVM.name f = "Main"%string)
  ∧ ∀ m, ∃ m',
      boot (mkBytecodeFile TAIL_MAGIC 1 0
              [ mkInstruction OP_PUSH 0; mkInstruction OP_PRINTLN 0; mkInstruction OP_PUSH 1;
                mkInstruction OP_RET 0; mkInstruction OP_HALT 0 ]
              [CString 0; CNil] ["hi"%string] [] [] []
              [mkFunctionInfo "Main" 0 0 0] []) m = Ok m'.
Proof.
  apply (compiled_image_has_main_and_halt (hello "hi")
           (mkBytecodeFile TAIL_MAGIC 1 0
              [ mkInstruction OP_PUSH 0; mkInstruction OP_PRINTLN 0; mkInstruction OP_PUSH 1;
                mkInstruction OP_RET 0; mkInstruction OP_HALT 0 ]
              [CString 0; CNil] ["hi"%string] [] [] []
              [mkFunctionInfo "Main" 0 0 0] [])).
  vm_compute. reflexivity.
Defined.



End CompilerMoreFacts.

(** * Compiler and machine together *)

Module EndToEndFacts.
Import Ast TVM VM VMExec Compiler.

(** The program [fn Main(){ Console.println(text); }] compiles, whatever
    the text, and the machine runs its image to the end without error in
    five rounds: it appends the text and a newline to the output and
    stops at the return of [Main]. *)
Theorem hello_prints_its_text (F : FloatOps) (C : FloatCmp) (H : Host)
    (text : string) (m : Machine) :
  trace m = false →
  ∃ image m',
    compile (hello text) = Ok image
    ∧ execute F C H 5 image m = Finished m'
    ∧ cout m' = (cout m +:+ text +:+ endl)%string
    ∧ running (vm m') = false.
Proof.
  destruct m as [st tr out inp sd]. cbn [trace]. intros ->.
  eexists _, _. split; [vm_compute; reflexivity |].
  split; [vm_compute; reflexivity |]. split; reflexivity.
Qed.

Lemma hello_prints_its_text_witness :
  trace (machine_of (vm example_at_test)) = false
  ∧ ∀ F C H, ∃ image m',
      compile (hello "Hello, Tail") = Ok image
      ∧ execute F C H 5 image (machine_of (vm example_at_test)) = Finished m'
      ∧ cout m' = (cout (machine_of (vm example_at_test)) +:+ "Hello, Tail" +:+ endl)%string
      ∧ running (vm m') = false.
Proof.
  split; [reflexivity |]. intros F C H.
  apply (hello_prints_its_text F C H "Hello, Tail" (machine_of (vm example_at_test))).
  reflexivity.
Defined.

End EndToEndFacts.
